(** * PPO with Elastic Weight Consolidation on a task-cycling HalfCheetah

    A shallow embedding of the two source files of the repository:

    - [safety_half_cheetah_velocity_v2.py]: the environment with its internal
      task cycle ([Cheetah] below);
    - [ppo_ewc_lambda.py]: rollout collection ([Collector] below), the
      clipped PPO update with KL early stopping and the EWC regularizer
      ([Ppo] below), the running episode statistics ([Episodes]), the
      sampling loop as a whole ([SamplingLoop]) and the evaluation episodes
      ([Eval]).

    Floating-point tensors are idealised as lists of exact rationals ([Q]);
    Python integers are [Z].  Library code that the two files only call
    (MuJoCo physics, the actor and critic networks, autograd, the optimizers,
    the rollout buffer) enters through type classes, so that every statement
    holds for any implementation of it. *)

From Stdlib Require Import ZArith QArith Qminmax Lia Lqa String Sorted.
From stdpp Require Import base option list gmap strings.

Open Scope Z_scope.

(** ** Python containers *)

(** [l[i]] on a Python list of length [n]: a negative index counts from the
    end, an index outside [-n, n) raises [IndexError] (here [None]). *)
Definition py_index (n : nat) (i : Z) : option nat :=
  if decide (0 <= i < Z.of_nat n) then Some (Z.to_nat i)
  else if decide (- Z.of_nat n <= i < 0) then Some (Z.to_nat (Z.of_nat n + i))
  else None.

Definition py_getitem {A} (l : list A) (i : Z) : option A :=
  k ← py_index (length l) i; l !! k.

Definition py_setitem {A} (l : list A) (i : Z) (x : A) : option (list A) :=
  k ← py_index (length l) i; Some (<[k := x]> l).

(** ** Tensors *)

(** A tensor is the flat list of its entries. *)
Abbreviation tensor := (list Q).

Definition tsub (a b : tensor) : tensor := zip_with Qminus a b.
Definition tmul (a b : tensor) : tensor := zip_with Qmult a b.
Definition tadd (a b : tensor) : tensor := zip_with Qplus a b.
Definition tmin (a b : tensor) : tensor := zip_with Qmin a b.
(** [t.pow(2)] *)
Definition tpow2 (a : tensor) : tensor := map (fun x => x * x)%Q a.
(** [t.sum()] *)
Definition tsum (a : tensor) : Q := foldr Qplus 0%Q a.
(** [t * c] and [t / c] for a scalar [c] *)
Definition tscale (c : Q) (a : tensor) : tensor := map (fun x => x * c)%Q a.
Definition tdiv (a : tensor) (c : Q) : tensor := map (fun x => x / c)%Q a.
(** [t.mean()] *)
Definition tmean (a : tensor) : Q := (tsum a / inject_Z (Z.of_nat (length a)))%Q.
(** [torch.clamp(t, lo, hi)] *)
Definition clamp (lo hi x : Q) : Q := Qmin (Qmax x lo) hi.
Definition tclamp (lo hi : Q) (a : tensor) : tensor := map (clamp lo hi) a.
(** [np.zeros(n)] *)
Definition zeros (n : nat) : tensor := replicate n 0%Q.

Definition nonneg (a : tensor) : Prop := Forall (fun x => (0 <= x)%Q) a.

(** ** The environment: [SafetyHalfCheetahVelocityEnv] *)

Module Cheetah.

Definition TASK_CYCLE : list string :=
  ["nominal"; "eighteen"; "nominal"; "sixteen"; "twenty"]%string.

Definition MULTIPLIERS : gmap string Q :=
  list_to_map [("nominal"%string, 1%Q); ("sixteen"%string, (16 / 14)%Q);
               ("eighteen"%string, (18 / 14)%Q); ("twenty"%string, (20 / 14)%Q)].

(** [1_000_000 / 10] *)
Definition TASK_LENGTH : Z := 1000000 / 10.

Definition NOMINAL_MASSES : tensor :=
  [0; 625020921 # 100000000; 154351464 # 100000000; 15874477 # 10000000;
   109539749 # 100000000; 143807531 # 100000000; 120083682 # 100000000;
   88451883 # 100000000]%Q.

(** What the class inherits from [HalfCheetahEnv] and MuJoCo.  The
    simulator state [Sim] is [self.data]; the body masses are part of
    [self.model] and are passed to whatever reads the model. *)
Class Physics := {
  Sim : Type;
  Action : Type;
  Observation : Type;
  do_simulation : tensor -> Sim -> Action -> Sim;
  qpos0 : Sim -> Q;
  dt : Q;
  control_cost : Action -> Q;
  forward_reward_weight : Q;
  get_obs : Sim -> Observation;
  (** the effect of the inherited [self.reset()] on the simulator state *)
  reset : tensor -> Sim -> Sim
}.

Section Env.
Context {Ph : Physics}.

Record Env := mkEnv {
  current_task : Z;
  steps_since_change : Z;
  current_task_name : string;
  velocity_threshold : Q;
  body_mass : tensor;
  data : Sim
}.

Record Info := mkInfo {
  x_position : Q;
  info_x_velocity : Q;
  reward_run : Q;
  reward_ctrl : Q
}.

Record StepResult := mkStepResult {
  observation : Observation;
  reward : Q;
  cost : Q;
  terminated : bool;
  truncated : bool;
  info : Info
}.

(** [__init__]: the fields the class adds, on top of the inherited
    construction that yields the model's masses and the simulator. *)
Definition init (mass0 : tensor) (d0 : Sim) : option Env :=
  name ← py_getitem TASK_CYCLE 0;
  Some (mkEnv 0 0 name (32096 # 10000)%Q mass0 d0).

Definition change_task (e : Env) : option Env :=
  task_name ← py_getitem TASK_CYCLE (current_task e);
  m ← MULTIPLIERS !! task_name;
  let mass := tscale m NOMINAL_MASSES in
  Some (mkEnv (current_task e) (steps_since_change e) task_name
              (velocity_threshold e) mass (reset mass (data e))).

Definition check_task (e : Env) : option Env :=
  if decide (TASK_LENGTH < steps_since_change e) then
    change_task
      (mkEnv ((current_task e + 1) `mod` Z.of_nat (length TASK_CYCLE)) 0
             (current_task_name e) (velocity_threshold e)
             (body_mass e) (data e))
  else Some e.

(** The velocity measured by one call of [step]. *)
Definition x_velocity (e : Env) (a : Action) : Q :=
  ((qpos0 (do_simulation (body_mass e) (data e) a) - qpos0 (data e)) / dt)%Q.

Definition step (e : Env) (action : Action) : option (Env * StepResult) :=
  let x_position_before := qpos0 (data e) in
  let d := do_simulation (body_mass e) (data e) action in
  let x_position_after := qpos0 d in
  let x_vel := ((x_position_after - x_position_before) / dt)%Q in
  let ctrl_cost := control_cost action in
  let forward_reward := (forward_reward_weight * x_vel)%Q in
  let obs := get_obs d in
  let rew := (forward_reward - ctrl_cost)%Q in
  let terminated := false in
  let inf := mkInfo x_position_after x_vel forward_reward (- ctrl_cost)%Q in
  (* float(x_velocity > self._velocity_threshold) *)
  let cst := if Qlt_le_dec (velocity_threshold e) x_vel then 1%Q else 0%Q in
  e1 ← check_task (mkEnv (current_task e) (steps_since_change e)
                         (current_task_name e) (velocity_threshold e)
                         (body_mass e) d);
  let e2 := mkEnv (current_task e1) (steps_since_change e1 + 1)
                  (current_task_name e1) (velocity_threshold e1)
                  (body_mass e1) (data e1) in
  Some (e2, mkStepResult obs rew cst terminated false inf).

End Env.

End Cheetah.

(** ** The rollout buffer *)

(** One vectorised call of [buffer.store]: a row per environment slot. *)
Record Transition := mkTransition {
  t_obs : list tensor;
  t_act : list tensor;
  t_reward : tensor;
  t_cost : tensor;
  t_value_r : tensor;
  t_value_c : tensor;
  t_log_prob : tensor
}.

(** The dictionary returned by [buffer.get()]. *)
Record Batch := mkBatch {
  b_obs : list tensor;
  b_act : list tensor;
  b_log_prob : tensor;
  b_target_value_r : tensor;
  b_target_value_c : tensor;
  b_adv_r : tensor;
  b_adv_c : tensor
}.

Definition empty_batch : Batch := mkBatch [] [] [] [] [] [] [].

(** The interface of [VectorizedOnPolicyBuffer] that [main] uses. *)
Class Buffer := {
  Buf : Type;
  store : Buf -> Transition -> Buf;
  finish_path : Buf -> Q -> Q -> nat -> Buf;
  get : Buf -> Batch * Buf
}.

(** Modelled from the spec: [VectorizedOnPolicyBuffer] lives in
    [safepo.common.buffer], which is not among the sources.  The spec says
    that [store] appends one step, that [finish_path] closes one slot's
    trajectory segment and computes its returns and advantages, and of
    [get] that it "yields the entire epoch's data and implicitly clears
    storage for the next epoch", that it "implicitly resets for the next
    epoch", and of the regularizer that it uses "whatever data currently
    sits in the just-drained Buffer".  So a drain hands out the rows of
    the epoch and marks the storage as drained; the rows sit there until
    the first [store] of the next epoch starts over.  The advantage
    arithmetic is outside the core and stays a parameter [gae]. *)
Module DrainBuffer.

Record Storage := mkStorage {
  stored : list Transition;
  closed : list (Q * Q * nat)
}.

Definition cleared : Storage := mkStorage [] [].

(** The rows, and whether they have been handed out by a drain. *)
Record State := mkState {
  rows : Storage;
  drained : bool
}.

Section Gae.
(** target values for both critics, reward and cost advantages *)
Variable gae : Storage -> tensor * tensor * tensor * tensor.

Definition drain (b : Storage) : Batch :=
  let '(target_r, target_c, adv_r, adv_c) := gae b in
  mkBatch (concat (map t_obs (stored b))) (concat (map t_act (stored b)))
          (concat (map t_log_prob (stored b)))
          target_r target_c adv_r adv_c.

Definition buffer : Buffer := {|
  Buf := State;
  store := fun b t =>
    if drained b then mkState (mkStorage [t] []) false
    else mkState (mkStorage (stored (rows b) ++ [t]) (closed (rows b))) false;
  finish_path := fun b vr vc idx =>
    mkState (mkStorage (stored (rows b)) (closed (rows b) ++ [(vr, vc, idx)]))
            (drained b);
  get := fun b => (drain (rows b), mkState (rows b) true)
|}.
End Gae.

End DrainBuffer.

(** A buffer that only records the calls made on it, to count them. *)
Module CallLog.

Inductive Call :=
| Store (t : Transition)
| FinishPath (last_value_r last_value_c : Q) (idx : nat)
| Get.

#[export] Instance buffer : Buffer := {|
  Buf := list Call;
  store := fun b t => b ++ [Store t];
  finish_path := fun b vr vc idx => b ++ [FinishPath vr vc idx];
  get := fun b => (empty_batch, b ++ [Get])
|}.




End CallLog.

(** ** The rollout collector (the sampling loop of [main]) *)

Module Collector.

(** [policy.step(obs, deterministic=False)]: the [k]-th draw of actions
    with their log-probabilities, and the two critics. *)
Class Policy := {
  sample : nat -> list tensor -> list tensor * tensor;
  value_r : tensor -> Q;
  value_c : tensor -> Q
}.

(** What one [env.step(action)] of the vectorised environment returns.
    [final_observation] is the entry of [info], when the key is there. *)
Record EnvStep := mkEnvStep {
  next_obs : list tensor;
  reward : tensor;
  cost : tensor;
  terminated : list bool;
  truncated : list bool;
  final_observation : option (list (option tensor))
}.

Class VecEnv := {
  EnvState : Type;
  env_step : EnvState -> list tensor -> EnvState * EnvStep
}.

Section Rollout.
Context {P : Policy} {V : VecEnv} {B : Buffer}.

Record Rollout := mkRollout {
  r_env : EnvState;
  r_obs : list tensor;
  r_buf : Buf
}.

(** [obs.shape[-1]] *)
Definition obs_dim (obs : list tensor) : nat :=
  match obs with o :: _ => length o | [] => O end.

(** The rewriting of [info["final_observation"]]: a missing array
    becomes a zero vector. *)
Definition fill_final (dim : nat) (fo : list (option tensor)) : list tensor :=
  map (fun array => match array with Some a => a | None => zeros dim end) fo.

(** The values handed to [finish_path] for slot [idx]; [None] is a
    [KeyError] or [IndexError]. *)
Definition last_values (epoch_end done time_out : bool) (obs : list tensor)
    (final : option (list tensor)) (idx : nat) : option (Q * Q) :=
  let lv := (0%Q, 0%Q) in
  if negb done then
    lv1 ← (if epoch_end then o ← obs !! idx; Some (value_r o, value_c o)
           else Some lv);
    if time_out then fo ← final; o ← fo !! idx; Some (value_r o, value_c o)
    else Some lv1
  else Some lv.

(** The body of the loop over [enumerate(zip(terminated, truncated))]. *)
Definition slot (epoch_end : bool) (obs : list tensor)
    (final : option (list tensor)) (buf : Buf) (idx : nat)
    (done time_out : bool) : option Buf :=
  if epoch_end || done || time_out then
    lv ← last_values epoch_end done time_out obs final idx;
    Some (finish_path buf lv.1 lv.2 idx)
  else Some buf.

Fixpoint slots (epoch_end : bool) (obs : list tensor)
    (final : option (list tensor)) (buf : Buf) (idx : nat)
    (flags : list (bool * bool)) : option Buf :=
  match flags with
  | [] => Some buf
  | (done, time_out) :: flags' =>
      buf' ← slot epoch_end obs final buf idx done time_out;
      slots epoch_end obs final buf' (S idx) flags'
  end.

(** [steps >= local_steps_per_epoch - 1] *)
Definition is_epoch_end (local_steps_per_epoch steps : nat) : bool :=
  bool_decide (Z.of_nat steps >= Z.of_nat local_steps_per_epoch - 1).

(** One iteration of [for steps in range(local_steps_per_epoch)].  The
    running episode statistics and the logger are left out: they feed
    nothing back into the buffer or the policy. *)
Definition rollout_step (local_steps_per_epoch : nat) (steps : nat)
    (r : Rollout) : option Rollout :=
  let obs := r_obs r in
  let '(act, log_prob) := sample steps obs in
  let '(env', out) := env_step (r_env r) act in
  let final := fill_final (obs_dim obs) <$> final_observation out in
  let buf1 := store (r_buf r)
                (mkTransition obs act (reward out) (cost out)
                              (map value_r obs) (map value_c obs) log_prob) in
  let obs := next_obs out in
  let epoch_end := is_epoch_end local_steps_per_epoch steps in
  buf2 ← slots epoch_end obs final buf1 0 (zip (terminated out) (truncated out));
  Some (mkRollout env' obs buf2).



(** The iterations [steps, steps + 1, ..., steps + todo - 1]. *)
Fixpoint rollout_from (local_steps_per_epoch : nat) (todo steps : nat)
    (r : Rollout) : option Rollout :=
  match todo with
  | O => Some r
  | S todo' =>
      r' ← rollout_step local_steps_per_epoch steps r;
      rollout_from local_steps_per_epoch todo' (S steps) r'
  end.

Definition rollout (local_steps_per_epoch : nat) (r : Rollout)
    : option Rollout :=
  rollout_from local_steps_per_epoch local_steps_per_epoch 0 r.

(** The three boundary conditions of the spec, for one slot at one
    step; [None] when the step is no boundary for the slot. *)
Inductive Boundary := NaturalTermination | Truncation | EpochEnd.

Definition boundary (epoch_end done time_out : bool) : option Boundary :=
  if done then Some NaturalTermination
  else if time_out then Some Truncation
  else if epoch_end then Some EpochEnd
  else None.
End Rollout.

End Collector.

(** ** The trainer: [main] of [ppo_ewc_lambda.py] *)

Module Ppo.

(** Parameter tensors live in a store, addressed by position, so that an
    in-place optimizer step and a [clone()] can be told apart.  A clone
    takes the next free position. *)
Abbreviation loc := nat.
Abbreviation Heap := (list tensor).
(** the values of [named_parameters()], in order *)
Abbreviation Params := (list (string * tensor)).
Abbreviation Fisher := (gmap string tensor).
Abbreviation Anchor := (gmap string loc).

(** One element of the [DataLoader]. *)
Record Minibatch := mkMinibatch {
  obs_b : list tensor;
  act_b : list tensor;
  log_prob_b : tensor;
  target_value_r_b : tensor;
  target_value_c_b : tensor;
  adv_b : tensor
}.

(** What [main] calls in PyTorch and in [ActorVCritic].  Random draws are
    functions of the epoch and of the step or pass at which they are made. *)
Class Torch := {
  exp : Q -> Q;
  (** [policy.actor(obs).log_prob(act).sum(dim=-1)] for one row *)
  actor_log_prob : Params -> tensor -> tensor -> Q;
  (** [param.grad] of the parameter of that name after
      [policy.zero_grad(); log_prob.backward()] *)
  grad_log_prob : Params -> tensor -> tensor -> string -> tensor;
  (** the mean over the rows of the summed KL divergence between the
      action distributions of two parameter settings *)
  kl_divergence : Params -> Params -> list tensor -> Q;
  (** both critics with the state of the three optimizers, learning
      rates included *)
  Critics : Type;
  (** [actor_scheduler.step()] *)
  scheduler_step : Critics -> Critics;
  critic_r : Critics -> tensor -> Q;
  critic_c : Critics -> tensor -> Q;
  (** [loss_r] and [loss_c], parameter norms included *)
  critic_losses : Critics -> Minibatch -> Q * Q;
  (** sampling of [policy.step] at the given epoch and step *)
  policy_sample : Params -> nat -> nat -> list tensor -> list tensor * tensor;
  (** the shuffled minibatches of the given epoch and pass *)
  dataloader : nat -> Batch -> nat -> list Minibatch;
  (** [total_loss.backward()], [clip_grad_norm_] and the three optimizer
      steps: the new actor parameter values, in order, and the critics.
      The arguments are all that [total_loss] is computed from: the
      parameter values, the critics, the Fisher records with the values
      of their anchors, [lambda_ewc] and the minibatch. *)
  optimizer_step : Params -> Critics -> list (option Fisher) ->
                   list (option (gmap string tensor)) -> Q -> Minibatch ->
                   list tensor * Critics
}.

Record Config := mkConfig {
  tasks : list Z;
  lambda_ewc : Q;
  num_envs : Z;
  steps_per_epoch : Z;
  steps_per_task : Z;
  learning_iters : nat;
  target_kl : Q;
  use_value_coefficient : bool
}.

Definition num_tasks (cfg : Config) : nat := length (tasks cfg).

(** [steps_per_epoch // args.num_envs], as the bound of a [range] *)
Definition local_steps_per_epoch (cfg : Config) : nat :=
  Z.to_nat (steps_per_epoch cfg / num_envs cfg).

(** What the update loop reports: one entry per [logger.store] of a
    gradient step, with the loss that was backpropagated, and one per
    evaluation of the KL divergence. *)
Inductive Event :=
| GradientStep (total_loss loss_actor loss_ewc : Q)
| KLCheck (kl : Q).

Definition is_kl (e : Event) : bool :=
  match e with KLCheck _ => true | _ => false end.

Fixpoint fold_opt {A B} (f : A -> B -> option A) (a : A) (l : list B) : option A :=
  match l with
  | [] => Some a
  | b :: l' => a' ← f a b; fold_opt f a' l'
  end.

Section Main.
Context {T : Torch} {V : Collector.VecEnv} {B : Buffer}.

(** The variables of [main] that change while it runs. *)
Record Trainer := mkTrainer {
  heap : Heap;
  actor : list (string * loc);
  critics : Critics;
  fisher_matrices : list (option Fisher);
  old_params_list : list (option Anchor);
  current_task_index : Z;
  steps_since_change : Z;
  buffer : Buf;
  env : Collector.EnvState;
  obs : list tensor
}.

(** The state before the training loop. *)
Definition init (cfg : Config) (h : Heap) (a : list (string * loc))
    (c : Critics) (b : Buf) (e : Collector.EnvState) (o : list tensor) : Trainer :=
  mkTrainer h a c (replicate (num_tasks cfg) None)
            (replicate (num_tasks cfg) None) 0 0 b e o.

Definition named_values (h : Heap) (a : list (string * loc)) : Params :=
  map (fun np => (np.1, h !!! np.2)) a.

Definition anchor_values (h : Heap) (a : option Anchor) : option (gmap string tensor) :=
  (fun m : Anchor => (fun l => h !!! l) <$> m) <$> a.

(** *** Rollout *)

Definition policy_of (st : Trainer) (epoch : nat) : Collector.Policy := {|
  Collector.sample := policy_sample (named_values (heap st) (actor st)) epoch;
  Collector.value_r := critic_r (critics st);
  Collector.value_c := critic_c (critics st)
|}.

Definition collect (cfg : Config) (epoch : nat) (st : Trainer) : option Trainer :=
  r ← Collector.rollout (P := policy_of st epoch) (local_steps_per_epoch cfg)
        (Collector.mkRollout (env st) (obs st) (buffer st));
  Some (mkTrainer (heap st) (actor st) (critics st) (fisher_matrices st)
                  (old_params_list st) (current_task_index st)
                  (steps_since_change st) (Collector.r_buf r)
                  (Collector.r_env r) (Collector.r_obs r)).

(** *** The losses of one minibatch *)

Definition loss_pi (log_prob log_prob_b adv_b : tensor) : Q :=
  let ratio := map exp (tsub log_prob log_prob_b) in
  let ratio_cliped := tclamp (8 # 10) (12 # 10) ratio in
  (- tmean (tmin (tmul ratio adv_b) (tmul ratio_cliped adv_b)))%Q.

(** The actor loss in the spec's words: the ratio is clipped to
    [0.8, 1.2] and the smaller of the two products is taken, pair by
    pair. *)
Definition clip (lo hi r : Q) : Q :=
  if Qlt_le_dec r lo then lo else if Qlt_le_dec hi r then hi else r.

Definition surrogate (new_log_prob old_log_prob advantage : Q) : Q :=
  let ratio := exp (new_log_prob - old_log_prob) in
  Qmin (ratio * advantage) (clip (8 # 10) (12 # 10) ratio * advantage).

Fixpoint surrogates (new_log_prob old_log_prob advantage : tensor) : tensor :=
  match new_log_prob, old_log_prob, advantage with
  | n :: ns, o :: os, a :: advs => surrogate n o a :: surrogates ns os advs
  | _, _, _ => []
  end.

Definition loss_pi_spec (new_log_prob old_log_prob advantage : tensor) : Q :=
  (- (tsum (surrogates new_log_prob old_log_prob advantage)
      / inject_Z (Z.of_nat (length (surrogates new_log_prob old_log_prob advantage)))))%Q.

(** The body of [for name, param in policy.actor.named_parameters()];
    [None] is the [KeyError] of a missing name (or the [TypeError] of
    subscripting an absent anchor). *)
Definition param_penalty (h : Heap) (fisher_info : Fisher)
    (old_params : option Anchor) (ewc_loss : Q) (np : string * loc) : option Q :=
  fisher ← fisher_info !! np.1;
  anchor ← old_params;
  old ← anchor !! np.1;
  Some (ewc_loss + tsum (tmul fisher (tpow2 (tsub (h !!! np.2) (h !!! old)))))%Q.

(** The body of [for fisher_info, old_params in zip(...)]. *)
Definition task_penalty (h : Heap) (a : list (string * loc)) (ewc_loss : Q)
    (rec : option Fisher * option Anchor) : option Q :=
  match rec.1 with
  | Some fisher_info => fold_opt (param_penalty h fisher_info rec.2) ewc_loss a
  | None => Some ewc_loss
  end.

Definition ewc_loss (st : Trainer) : option Q :=
  fold_opt (task_penalty (heap st) (actor st)) 0%Q
           (zip (fisher_matrices st) (old_params_list st)).

Definition total_loss (cfg : Config) (loss_pi loss_r loss_c ewc_loss : Q) : Q :=
  if use_value_coefficient cfg
  then (loss_pi + 2 * loss_r + loss_c + ewc_loss * lambda_ewc cfg)%Q
  else (loss_pi + loss_r + loss_c + ewc_loss * lambda_ewc cfg)%Q.

(** *** One gradient step *)

(** The optimizer writes the new values into the parameters' own
    storage. *)
Definition write_params (h : Heap) (a : list (string * loc)) (vals : list tensor) : Heap :=
  foldl (fun h' nv => <[nv.1.2 := nv.2]> h') h (zip a vals).

Definition gradient_step (cfg : Config) (st : Trainer) (mb : Minibatch)
    : option (Trainer * Event) :=
  let params := named_values (heap st) (actor st) in
  let '(loss_r, loss_c) := critic_losses (critics st) mb in
  let log_prob := zip_with (actor_log_prob params) (obs_b mb) (act_b mb) in
  let loss_pi := loss_pi log_prob (log_prob_b mb) (adv_b mb) in
  ewc ← ewc_loss st;
  let total := total_loss cfg loss_pi loss_r loss_c ewc in
  let '(vals, critics') :=
    optimizer_step params (critics st) (fisher_matrices st)
                   (map (anchor_values (heap st)) (old_params_list st))
                   (lambda_ewc cfg) mb in
  Some (mkTrainer (write_params (heap st) (actor st) vals) (actor st) critics'
                  (fisher_matrices st) (old_params_list st)
                  (current_task_index st) (steps_since_change st)
                  (buffer st) (env st) (obs st),
        GradientStep total loss_pi (ewc * lambda_ewc cfg)%Q).

(** The inner [for ... in dataloader]. *)
Fixpoint minibatches (cfg : Config) (st : Trainer) (log : list Event)
    (mbs : list Minibatch) : option (Trainer * list Event) :=
  match mbs with
  | [] => Some (st, log)
  | mb :: mbs' =>
      r ← gradient_step cfg st mb;
      minibatches cfg r.1 (log ++ [r.2]) mbs'
  end.

(** *** The passes with their KL check *)

Record Update := mkUpdate {
  u_trainer : Trainer;
  update_counts : nat;
  final_kl : Q;
  u_log : list Event
}.

(** [for _ in range(learning_iters)], with [todo] passes still allowed
    and [pass] of them done. *)
Fixpoint passes (cfg : Config) (old_distribution : Params) (data : Batch)
    (loader : nat -> list Minibatch) (todo pass : nat) (u : Update) : option Update :=
  match todo with
  | O => Some u
  | S todo' =>
      r ← minibatches cfg (u_trainer u) (u_log u) (loader pass);
      let st := r.1 in
      let kl := kl_divergence old_distribution
                  (named_values (heap st) (actor st)) (b_obs data) in
      let u' := mkUpdate st (S (update_counts u)) kl (r.2 ++ [KLCheck kl]) in
      if Qlt_le_dec (target_kl cfg) kl then Some u'
      else passes cfg old_distribution data loader todo' (S pass) u'
  end.

(** [k] whole passes with no KL check between them, beginning with
    pass number [pass]: what the pass loop has done to the trainer when
    it has not stopped earlier. *)
Fixpoint full_passes (cfg : Config) (loader : nat -> list Minibatch)
    (k pass : nat) (st : Trainer) : option Trainer :=
  match k with
  | O => Some st
  | S k' =>
      r ← minibatches cfg st [] (loader pass);
      full_passes cfg loader k' (S pass) r.1
  end.

(** The measured KL divergence after those [k] passes. *)
Definition kl_after (cfg : Config) (old_distribution : Params) (data : Batch)
    (loader : nat -> list Minibatch) (k pass : nat) (st : Trainer) : option Q :=
  st' ← full_passes cfg loader k pass st;
  Some (kl_divergence old_distribution
          (named_values (heap st') (actor st')) (b_obs data)).

Definition kl_checks (log : list Event) : nat :=
  length (filter (fun e => is_kl e = true) log).

(** From [data = buffer.get()] to the end of the pass loop.  [final_kl]
    starts as a tensor of ones; its entries are read as one number. *)
Definition update (cfg : Config) (epoch : nat) (st : Trainer) : option (Batch * Update) :=
  let '(data, buf) := get (buffer st) in
  let st1 := mkTrainer (heap st) (actor st) (critics st) (fisher_matrices st)
                       (old_params_list st) (current_task_index st)
                       (steps_since_change st) buf (env st) (obs st) in
  let old_distribution := named_values (heap st) (actor st) in
  u ← passes cfg old_distribution data (dataloader epoch data)
             (learning_iters cfg) 0 (mkUpdate st1 0 1%Q []);
  Some (data, u).

(** *** The regularizer *)

Definition accumulate (grad : string -> tensor) (fisher_info : Fisher)
    (np : string * tensor) : Fisher :=
  match fisher_info !! np.1 with
  | None => <[np.1 := tpow2 (grad np.1)]> fisher_info
  | Some f => <[np.1 := tadd f (tpow2 (grad np.1))]> fisher_info
  end.

Definition compute_fisher_info (data : Batch) (params : Params) : Fisher :=
  let fisher_info :=
    foldl (fun fi oa => foldl (accumulate (grad_log_prob params oa.1 oa.2)) fi params)
          ∅ (zip (b_obs data) (b_act data)) in
  (fun f => tdiv f (inject_Z (Z.of_nat (length (b_obs data))))) <$> fisher_info.

(** [param.clone()] *)
Definition clone (h : Heap) (l : loc) : Heap * loc :=
  (h ++ [h !!! l], length h).

Definition save_old_params (h : Heap) (model : list (string * loc)) : Heap * Anchor :=
  foldl (fun hd np =>
           let '(h', l') := clone hd.1 np.2 in (h', <[np.1 := l']> hd.2))
        (h, ∅) model.

(** The test [steps_since_change >= steps_per_task], made after the
    epoch's steps were added. *)
Definition switch_due (cfg : Config) (st : Trainer) : bool :=
  bool_decide (steps_since_change st + steps_per_epoch cfg >= steps_per_task cfg).

(** The end of an epoch, from [steps_since_change += steps_per_epoch].
    A modulus of zero cannot be reached: [tasks] is then empty and the
    lookup in it has failed. *)
Definition regularizer_epoch_end (cfg : Config) (st : Trainer) : option Trainer :=
  let steps := steps_since_change st + steps_per_epoch cfg in
  if switch_due cfg st then
    current_task_num ← py_getitem (tasks cfg) (current_task_index st);
    let '(data, buf) := get (buffer st) in
    let current_fisher :=
      compute_fisher_info data (named_values (heap st) (actor st)) in
    let '(h, old_params) := save_old_params (heap st) (actor st) in
    fm ← py_setitem (fisher_matrices st) current_task_num (Some current_fisher);
    op ← py_setitem (old_params_list st) current_task_num (Some old_params);
    Some (mkTrainer h (actor st) (critics st) fm op
                    ((current_task_index st + 1) `mod` Z.of_nat (num_tasks cfg)) 0
                    buf (env st) (obs st))
  else
    Some (mkTrainer (heap st) (actor st) (critics st) (fisher_matrices st)
                    (old_params_list st) (current_task_index st) steps
                    (buffer st) (env st) (obs st)).

(** The estimate in the spec's words, for one parameter: the squares
    of its gradients at the stored pairs are accumulated, and the sum is
    divided by the pair count.  No pair, no entry. *)
Definition sum_squares (grads : list tensor) : option tensor :=
  foldl (fun acc g => Some match acc with
                           | None => tpow2 g
                           | Some f => tadd f (tpow2 g)
                           end) None grads.

Definition fisher_entry (data : Batch) (params : Params) (name : string)
    : option tensor :=
  let pairs := zip (b_obs data) (b_act data) in
  (fun f => tdiv f (inject_Z (Z.of_nat (length pairs)))) <$>
    sum_squares (map (fun oa => grad_log_prob params oa.1 oa.2 name) pairs).

(** What holds of the store throughout: parameter names are distinct,
    live parameters are allocated, and no stored anchor shares storage
    with a live parameter. *)
Record wf (st : Trainer) : Prop := mkWf {
  wf_names : NoDup (actor st).*1;
  wf_live : forall np, np ∈ actor st -> (np.2 < length (heap st))%nat;
  wf_lists : length (fisher_matrices st) = length (old_params_list st);
  wf_anchor : forall k a name l',
    old_params_list st !! k = Some (Some a) -> a !! name = Some l' ->
    (l' < length (heap st))%nat /\ l' ∉ (actor st).*2
}.

(** [frame st st']: from [st] to [st'] the heap has only grown, and
    only the storage of live parameters has been written. *)
Definition frame (st st' : Trainer) : Prop :=
  actor st' = actor st /\
  (length (heap st) <= length (heap st'))%nat /\
  forall l, (l < length (heap st))%nat -> l ∉ (actor st).*2 ->
            heap st' !! l = heap st !! l.

(** The trainer fields that a gradient step leaves alone. *)
Definition same_regularizer (st st' : Trainer) : Prop :=
  actor st' = actor st /\
  fisher_matrices st' = fisher_matrices st /\
  old_params_list st' = old_params_list st /\
  current_task_index st' = current_task_index st /\
  steps_since_change st' = steps_since_change st /\
  buffer st' = buffer st /\ env st' = env st /\ obs st' = obs st.

(** The number of epochs it takes the switch counter to reach
    [steps_per_task]: the quotient rounded up. *)
Definition epochs_per_switch (cfg : Config) : Z :=
  (steps_per_task cfg + steps_per_epoch cfg - 1) / steps_per_epoch cfg.

(** *** The training loop *)

(** [actor_scheduler.step()], once per epoch after the pass loop. *)
Definition schedule (st : Trainer) : Trainer :=
  mkTrainer (heap st) (actor st) (scheduler_step (critics st)) (fisher_matrices st)
            (old_params_list st) (current_task_index st) (steps_since_change st)
            (buffer st) (env st) (obs st).

(** One epoch, and whether it ended in a task switch.  The evaluation
    rollouts and the logging are left out: they run on environments of
    their own and write only to the logger. *)
Definition epoch (cfg : Config) (n : nat) (st : Trainer) : option (Trainer * bool) :=
  st1 ← collect cfg n st;
  du ← update cfg n st1;
  let st2 := schedule (u_trainer du.2) in
  st3 ← regularizer_epoch_end cfg st2;
  Some (st3, switch_due cfg st2).

(** [for epoch in range(epochs)], with [todo] epochs left and [n] done.
    [advances] counts the epochs that ended in a task switch. *)
Fixpoint training_loop (cfg : Config) (todo n : nat) (st : Trainer)
    (advances : nat) : option (Trainer * nat) :=
  match todo with
  | O => Some (st, advances)
  | S todo' =>
      '(st', switched) ← epoch cfg n st;
      training_loop cfg todo' (S n) st'
                    (if switched : bool then S advances else advances)
  end.
End Main.

End Ppo.

(** ** A small instance to run the model on *)

(** One environment slot whose first step is a truncation without a final
    observation, a one-parameter actor whose log-probability gradient is
    the observation, and an optimizer that adds one to every parameter
    entry.  Nothing below is derived from the sources: the instance only
    serves to evaluate the definitions above on concrete inputs. *)
Module Toy.

#[export] Instance physics : Cheetah.Physics := {|
  Cheetah.Sim := Q;
  Cheetah.Action := Q;
  Cheetah.Observation := Q;
  Cheetah.do_simulation := fun _ x a => (x + a)%Q;
  Cheetah.qpos0 := fun x => x;
  Cheetah.dt := 1%Q;
  Cheetah.control_cost := fun _ => 0%Q;
  Cheetah.forward_reward_weight := 1%Q;
  Cheetah.get_obs := fun x => x;
  Cheetah.reset := fun _ _ => 0%Q
|}.


#[export] Instance vec_env : Collector.VecEnv := {|
  Collector.EnvState := nat;
  Collector.env_step := fun k _ =>
    (S k,
     Collector.mkEnvStep [[inject_Z (Z.of_nat (S k))]] [1%Q] [0%Q] [false]
       [bool_decide (k = O)]
       (if bool_decide (k = O) then Some [None] else None))
|}.

#[export] Instance torch : Ppo.Torch := {|
  Ppo.exp := fun x => (1 + x)%Q;
  Ppo.actor_log_prob := fun _ _ _ => 0%Q;
  Ppo.grad_log_prob := fun _ obs _ _ => obs;
  Ppo.kl_divergence := fun old new _ =>
    tsum (tpow2 (tsub (concat (map snd new)) (concat (map snd old))));
  Ppo.Critics := unit;
  Ppo.scheduler_step := fun c => c;
  Ppo.critic_r := fun _ o => (tsum o + 1)%Q;
  Ppo.critic_c := fun _ _ => 2%Q;
  Ppo.critic_losses := fun _ _ => (0%Q, 0%Q);
  Ppo.policy_sample := fun _ _ _ obs => (obs, [0%Q]);
  Ppo.dataloader := fun _ data _ =>
    [Ppo.mkMinibatch (b_obs data) (b_act data) (b_log_prob data)
                     (b_target_value_r data) (b_target_value_c data)
                     (b_adv_r data)];
  Ppo.optimizer_step := fun params c _ _ _ _ =>
    (map (fun nv => map (Qplus 1) nv.2) params, c)
|}.

(** Advantage arithmetic reduced to the stored values themselves. *)
Definition gae (b : DrainBuffer.Storage) : tensor * tensor * tensor * tensor :=
  (concat (map t_value_r (DrainBuffer.stored b)),
   concat (map t_value_c (DrainBuffer.stored b)),
   concat (map t_reward (DrainBuffer.stored b)),
   concat (map t_cost (DrainBuffer.stored b))).

(** A buffer that forgets its rows as soon as they are drained. *)
Definition drain_buffer : Buffer := {|
  Buf := DrainBuffer.Storage;
  store := fun b t =>
    DrainBuffer.mkStorage (DrainBuffer.stored b ++ [t]) (DrainBuffer.closed b);
  finish_path := fun b vr vc idx =>
    DrainBuffer.mkStorage (DrainBuffer.stored b)
                          (DrainBuffer.closed b ++ [(vr, vc, idx)]);
  get := fun b => (DrainBuffer.drain gae b, DrainBuffer.cleared)
|}.

(** A buffer that rewinds instead of clearing: a drain leaves the rows
    where they are, and the first [store] after a drain starts over. *)
Record Rewind := mkRewind {
  rw_rows : DrainBuffer.Storage;
  rw_drained : bool
}.

Definition rewind_buffer : Buffer := {|
  Buf := Rewind;
  store := fun b t =>
    if rw_drained b then mkRewind (DrainBuffer.mkStorage [t] []) false
    else mkRewind (DrainBuffer.mkStorage (DrainBuffer.stored (rw_rows b) ++ [t])
                                         (DrainBuffer.closed (rw_rows b))) false;
  finish_path := fun b vr vc idx =>
    mkRewind (DrainBuffer.mkStorage (DrainBuffer.stored (rw_rows b))
                                    (DrainBuffer.closed (rw_rows b) ++ [(vr, vc, idx)]))
             (rw_drained b);
  get := fun b => (DrainBuffer.drain gae (rw_rows b), mkRewind (rw_rows b) true)
|}.

Definition config (steps_per_epoch steps_per_task : Z) : Ppo.Config :=
  Ppo.mkConfig [0] 1%Q 1 steps_per_epoch steps_per_task 5 2%Q false.

(** One parameter tensor ["w"], stored at position 0. *)
Definition trainer (B : Buffer) (cfg : Ppo.Config) (b : Buf) : Ppo.Trainer :=
  Ppo.init cfg [[0%Q]] [("w"%string, O)] tt b O [[5%Q]].

End Toy.

(** * The rest of the two files *)

(** ** Consecutive steps of one environment *)

Module CheetahRun.
Section Run.
Context {Ph : Cheetah.Physics}.
Import Cheetah.

(** [env.step(action)] once per action, as the sampling loop calls it;
    the returned transitions are dropped. *)
Fixpoint steps (e : Env) (acts : list Action) : option Env :=
  match acts with
  | [] => Some e
  | a :: acts' => r ← step e a; steps r.1 acts'
  end.

(** [current_task_name] is the cycle's entry at [current_task]. *)
Definition named (e : Env) : Prop :=
  0 <= current_task e < 5 /\
  py_getitem TASK_CYCLE (current_task e) = Some (current_task_name e).

(** The model's masses are the nominal masses times the multiplier of
    the variant the environment is in. *)
Definition scaled (e : Env) : Prop :=
  exists m, MULTIPLIERS !! current_task_name e = Some m /\
            body_mass e = tscale m NOMINAL_MASSES.

(** What [m + 1] steps from a fresh environment, loaded with the masses
    [mass0], have established. *)
Definition after_steps (mass0 : tensor) (m : Z) (e : Env) : Prop :=
  steps_since_change e = m `mod` (TASK_LENGTH + 1) + 1 /\
  current_task e = (m / (TASK_LENGTH + 1)) `mod` 5 /\
  named e /\
  velocity_threshold e = (32096 # 10000)%Q /\
  (m < TASK_LENGTH + 1 -> body_mass e = mass0) /\
  (TASK_LENGTH + 1 <= m -> scaled e).
End Run.
End CheetahRun.

(** ** Failures and call counts of the sampling loop *)

Module Sampling.


Definition is_store (c : CallLog.Call) : bool :=
  match c with CallLog.Store _ => true | _ => false end.

Definition is_get (c : CallLog.Call) : bool :=
  match c with CallLog.Get => true | _ => false end.

(** How many times [store] and [get] were called. *)
Definition store_count (log : list CallLog.Call) : nat :=
  length (filter (fun c => is_store c = true) log).

Definition get_count (log : list CallLog.Call) : nat :=
  length (filter (fun c => is_get c = true) log).

End Sampling.

(** ** The running episode statistics of the sampling loop *)

Module Episodes.

(** [d.append(x)] on a [collections.deque(maxlen=maxlen)]: a full
    window drops its oldest entry. *)
Definition deque_append (maxlen : nat) (d : list Q) (x : Q) : list Q :=
  let d' := d ++ [x] in drop (length d' - maxlen) d'.

(** The last [n] entries of a list. *)
Definition last_n (n : nat) (l : list Q) : list Q := drop (length l - n) l.

(** [a += b] on one-dimensional arrays: [b] has the shape of [a] or is
    broadcast from a single entry; any other shape is a [ValueError]. *)
Definition np_iadd (a b : tensor) : option tensor :=
  if decide (length b = length a) then Some (tadd a b)
  else match b with
       | [x] => Some (map (fun y => (y + x)%Q) a)
       | _ => None
       end.

Record Stats := mkStats {
  ep_ret : tensor;
  ep_cost : tensor;
  ep_len : tensor;
  rew_deque : list Q;
  cost_deque : list Q;
  len_deque : list Q;
  (** the [Metrics/EpRet], [Metrics/EpCost] and [Metrics/EpLen] of
      every call of [logger.store] made by the loop *)
  stored : list (Q * Q * Q);
  (** [logger.logged] *)
  logged : bool
}.

(** The block under [if done or time_out] for slot [idx]. *)
Definition close_episode (s : Stats) (idx : nat) : option Stats :=
  r ← ep_ret s !! idx;
  c ← ep_cost s !! idx;
  l ← ep_len s !! idx;
  let rd := deque_append 20 (rew_deque s) r in
  let cd := deque_append 20 (cost_deque s) c in
  let ld := deque_append 20 (len_deque s) l in
  Some (mkStats (<[idx := 0%Q]> (ep_ret s)) (<[idx := 0%Q]> (ep_cost s))
                (<[idx := 0%Q]> (ep_len s)) rd cd ld
                (stored s ++ [(tmean rd, tmean cd, tmean ld)]) false).

(** What the body of the loop over the slots does to the statistics;
    the bootstrap lookups of the same body, which may raise, are in
    [Collector.slot]. *)
Definition slot (epoch_end : bool) (s : Stats) (idx : nat)
    (done time_out : bool) : option Stats :=
  if epoch_end || done || time_out then
    if done || time_out then close_episode s idx else Some s
  else Some s.

Fixpoint slots (epoch_end : bool) (s : Stats) (idx : nat)
    (flags : list (bool * bool)) : option Stats :=
  match flags with
  | [] => Some s
  | (done, time_out) :: flags' =>
      s' ← slot epoch_end s idx done time_out;
      slots epoch_end s' (S idx) flags'
  end.

(** What one iteration of the sampling loop does to the statistics,
    given what [env.step] returned and whether the iteration is the
    epoch's last. *)
Definition step (epoch_end : bool) (out : Collector.EnvStep) (s : Stats)
    : option Stats :=
  ret ← np_iadd (ep_ret s) (Collector.reward out);
  cst ← np_iadd (ep_cost s) (Collector.cost out);
  let len := map (fun y => (y + 1)%Q) (ep_len s) in
  slots epoch_end
        (mkStats ret cst len (rew_deque s) (cost_deque s) (len_deque s)
                 (stored s) (logged s))
        0 (zip (Collector.terminated out) (Collector.truncated out)).

(** Consecutive iterations, each with its [epoch_end]. *)
Fixpoint run (outs : list (bool * Collector.EnvStep)) (s : Stats) : option Stats :=
  match outs with
  | [] => Some s
  | (epoch_end, out) :: outs' => s' ← step epoch_end out s; run outs' s'
  end.

(** The slots, from [idx] on, whose episode ends at the step. *)
Fixpoint ended (idx : nat) (flags : list (bool * bool)) : list nat :=
  match flags with
  | [] => []
  | (done, time_out) :: flags' =>
      if done || time_out then idx :: ended (S idx) flags'
      else ended (S idx) flags'
  end.

(** The entries of [a] at the positions [js]. *)
Fixpoint entries (a : tensor) (js : list nat) : list Q :=
  match js with
  | [] => []
  | j :: js' =>
      match a !! j with
      | Some x => x :: entries a js'
      | None => entries a js'
      end
  end.

(** Entry [j] of the array that [f] selects from each answer. *)
Fixpoint slot_values (f : Collector.EnvStep -> tensor) (j : nat)
    (outs : list (bool * Collector.EnvStep)) : list Q :=
  match outs with
  | [] => []
  | (_, out) :: outs' =>
      match f out !! j with
      | Some x => x :: slot_values f j outs'
      | None => slot_values f j outs'
      end
  end.

(** The state in which the loop over the slots leaves the statistics. *)
Record slots_result (idx : nat) (flags : list (bool * bool)) (s s' : Stats) : Prop := {
  sr_ret : forall j, ep_ret s' !! j =
             if decide (j ∈ ended idx flags) then Some 0%Q else ep_ret s !! j;
  sr_cost : forall j, ep_cost s' !! j =
              if decide (j ∈ ended idx flags) then Some 0%Q else ep_cost s !! j;
  sr_len : forall j, ep_len s' !! j =
             if decide (j ∈ ended idx flags) then Some 0%Q else ep_len s !! j;
  sr_rew_deque : rew_deque s' =
    foldl (deque_append 20) (rew_deque s) (entries (ep_ret s) (ended idx flags));
  sr_cost_deque : cost_deque s' =
    foldl (deque_append 20) (cost_deque s) (entries (ep_cost s) (ended idx flags));
  sr_len_deque : len_deque s' =
    foldl (deque_append 20) (len_deque s) (entries (ep_len s) (ended idx flags));
  sr_stored : length (stored s') = (length (stored s) + length (ended idx flags))%nat;
  sr_entries : length (entries (ep_ret s) (ended idx flags)) = length (ended idx flags)
}.

End Episodes.

(** ** What holds of the stored records *)

Module Records.
Section Records.
Context {T : Ppo.Torch} {V : Collector.VecEnv} {B : Buffer}.
Import Ppo.

(** Every tensor of every stored Fisher record is elementwise
    non-negative. *)
Definition records_nonneg (st : Trainer) : Prop :=
  forall k F name f,
    fisher_matrices st !! k = Some (Some F) -> F !! name = Some f -> nonneg f.

(** The loop body of the penalty raises for the parameter [np] in the
    pair [rec] of [zip(fisher_matrices, old_params_list)]: there is a
    record, and the parameter's name is missing from it ([KeyError]), or
    the anchor is [None] ([TypeError]) or lacks the name ([KeyError]). *)
Definition lookup_raises (rec : option Fisher * option Anchor)
    (np : string * loc) : Prop :=
  exists F, rec.1 = Some F /\
    (F !! np.1 = None \/
     match rec.2 with
     | None => True
     | Some A => A !! np.1 = None
     end).

(** No lookup of the penalty raises. *)
Definition records_complete (st : Trainer) : Prop :=
  forall rec np,
    rec ∈ zip (fisher_matrices st) (old_params_list st) -> np ∈ actor st ->
    ~ lookup_raises rec np.

(** The two lists have one slot per entry of [tasks], and the task index
    points into [tasks] (or is the initial 0). *)
Definition sized (cfg : Config) (st : Trainer) : Prop :=
  length (fisher_matrices st) = num_tasks cfg /\
  length (old_params_list st) = num_tasks cfg /\
  (current_task_index st = 0 \/
   0 <= current_task_index st < Z.of_nat (num_tasks cfg)).

(** Records and anchors are stored together: a slot is empty in one
    list exactly when it is empty in the other. *)
Definition paired (st : Trainer) : Prop :=
  forall k, fisher_matrices st !! k = Some None <-> old_params_list st !! k = Some None.

(** The penalty reported by every logged gradient step is
    non-negative. *)
Definition penalty_logged_nonneg (e : Event) : Prop :=
  match e with
  | GradientStep _ _ loss_ewc => (0 <= loss_ewc)%Q
  | KLCheck _ => True
  end.
End Records.
End Records.

(** ** The evaluation episodes of [main] *)

Module Eval.

(** A Python float or a one-dimensional array: the totals start as the
    float [0.0] and become arrays with the first [+=]. *)
Inductive Num :=
| Float (x : Q)
| Array (a : tensor).

(** [x += b] for an array [b]. *)
Definition num_iadd (x : Num) (b : tensor) : option Num :=
  match x with
  | Float q => Some (Array (map (Qplus q) b))
  | Array a => Array <$> Episodes.np_iadd a b
  end.

(** How a [while] loop stands after a bounded number of iterations:
    left with a result, left by an exception, or still running. *)
Inductive Outcome (A : Type) :=
| Done (a : A)
| Raised
| Running.
Arguments Done {A} a.
Arguments Raised {A}.
Arguments Running {A}.

Record Totals := mkTotals {
  eval_rew : Num;
  eval_cost : Num;
  eval_len : Q
}.

(** [terminated[0] or truncated[0]] *)
Definition eval_done (out : Collector.EnvStep) : option bool :=
  t ← Collector.terminated out !! 0%nat;
  if t : bool then Some true else Collector.truncated out !! 0%nat.

Section Loop.
Context {V : Collector.VecEnv}.
(** [policy.step(eval_obs, deterministic=...)], its action *)
Variable act : bool -> list tensor -> list tensor.
(** [nominal_env.reset()] or [leg_env.reset()] *)
Variable reset : Collector.EnvState -> Collector.EnvState * list tensor.

Definition State : Type := Collector.EnvState * list tensor * Totals.

(** The body of [while not eval_done], and the new [eval_done]. *)
Definition body (deterministic : bool) (s : State) : option (State * bool) :=
  let '(env, eval_obs, tot) := s in
  let '(env', out) := Collector.env_step env (act deterministic eval_obs) in
  rew ← num_iadd (eval_rew tot) (Collector.reward out);
  cst ← num_iadd (eval_cost tot) (Collector.cost out);
  let len := (eval_len tot + 1)%Q in
  d ← eval_done out;
  Some ((env', Collector.next_obs out, mkTotals rew cst len), d).

(** At most [fuel] iterations of the loop. *)
Fixpoint loop (deterministic : bool) (fuel : nat) (s : State) : Outcome State :=
  match fuel with
  | O => Running
  | S fuel' =>
      match body deterministic s with
      | None => Raised
      | Some (s', d) => if d : bool then Done s' else loop deterministic fuel' s'
      end
  end.

(** One evaluation episode, from the reset to the end of the loop.  The
    nominal evaluation runs it with [deterministic = true] on
    [nominal_env], the other one with [deterministic = false] on
    [leg_env]. *)
Definition episode (deterministic : bool) (fuel : nat) (env : Collector.EnvState)
    : Outcome State :=
  let '(env0, eval_obs) := reset env in
  loop deterministic fuel (env0, eval_obs, mkTotals (Float 0) (Float 0) 0%Q).

(** What the environment answers to the first [k] actions of the policy
    from the state and observation [eo], and where that leaves it. *)
Fixpoint trace (deterministic : bool) (k : nat)
    (eo : Collector.EnvState * list tensor)
    : Collector.EnvState * list tensor * list Collector.EnvStep :=
  match k with
  | O => (eo, [])
  | S k' =>
      let '(env', out) := Collector.env_step eo.1 (act deterministic eo.2) in
      let '(eo', outs) := trace deterministic k' (env', Collector.next_obs out) in
      (eo', out :: outs)
  end.
End Loop.

End Eval.

(** ** Equality of tensors up to the value of their entries *)

(** Two tensors of the same shape whose entries are equal as rationals
    (the fractions themselves may differ). *)
Definition teq (a b : tensor) : Prop := Forall2 Qeq a b.

Definition oteq (a b : option tensor) : Prop :=
  match a, b with
  | Some x, Some y => teq x y
  | None, None => True
  | _, _ => False
  end.

(** One step of the accumulation of [compute_fisher_info] for one
    parameter: the first gradient initialises the entry, the others are
    added to it. *)
Definition add_square (acc : option tensor) (g : tensor) : option tensor :=
  Some match acc with
       | None => tpow2 g
       | Some f => tadd f (tpow2 g)
       end.

(** ** Counting gradient steps *)

(** The number of minibatches of the passes [pass, ..., pass + k - 1]. *)
Fixpoint minibatch_total (loader : nat -> list Ppo.Minibatch) (k pass : nat) : nat :=
  match k with
  | O => O
  | S k' => (length (loader pass) + minibatch_total loader k' (S pass))%nat
  end.

Definition gradient_steps (log : list Ppo.Event) : nat :=
  length (filter (fun e => Ppo.is_kl e = false) log).

(** ** When the penalty is positive *)

Module Moved.
Section Moved.
Context {T : Ppo.Torch} {V : Collector.VecEnv} {B : Buffer}.
Import Ppo.

(** Some entry of [a] differs from the entry of [b] at the same
    position, where the weight [ft] is not zero. *)
Definition entry_moved (ft a b : tensor) : Prop :=
  exists (i : nat) (f x y : Q),
    ft !! i = Some f /\ a !! i = Some x /\ b !! i = Some y /\
    ~ (f == 0)%Q /\ ~ (x == y)%Q.

(** The parameter [np] has such an entry with respect to the record
    [F] and the anchor [o]. *)
Definition param_moved (h : Heap) (F : Fisher) (o : option Anchor)
    (np : string * loc) : Prop :=
  exists (ft : tensor) (A : Anchor) (l' : loc),
    F !! np.1 = Some ft /\ o = Some A /\ A !! np.1 = Some l' /\
    entry_moved ft (h !!! np.2) (h !!! l').

(** Some actor parameter has moved away from the anchor of some slot in
    an entry that the slot's Fisher record weighs. *)
Definition weighted_move (st : Trainer) : Prop :=
  exists (k : nat) (F : Fisher) (o : option Anchor) (np : string * loc),
    fisher_matrices st !! k = Some (Some F) /\
    old_params_list st !! k = Some o /\
    np ∈ actor st /\
    param_moved (heap st) F o np.
End Moved.
End Moved.

(** ** The sampling loop as a whole *)

(** One iteration of [for steps in range(local_steps_per_epoch)] with
    everything it does: the running totals, the buffer, the bootstrap
    values and the episode statistics, in the order of the source. *)
Module SamplingLoop.
Section Loop.
Context {P : Collector.Policy} {V : Collector.VecEnv} {B : Buffer}.
Import Collector.

(** The body of the loop over [enumerate(zip(terminated, truncated))]. *)
Definition slot (epoch_end : bool) (obs : list tensor)
    (final : option (list tensor)) (bs : Buf * Episodes.Stats) (idx : nat)
    (done time_out : bool) : option (Buf * Episodes.Stats) :=
  if epoch_end || done || time_out then
    lv ← last_values epoch_end done time_out obs final idx;
    s' ← (if done || time_out then Episodes.close_episode bs.2 idx else Some bs.2);
    Some (finish_path bs.1 lv.1 lv.2 idx, s')
  else Some bs.

Fixpoint slots (epoch_end : bool) (obs : list tensor)
    (final : option (list tensor)) (bs : Buf * Episodes.Stats) (idx : nat)
    (flags : list (bool * bool)) : option (Buf * Episodes.Stats) :=
  match flags with
  | [] => Some bs
  | (done, time_out) :: flags' =>
      bs' ← slot epoch_end obs final bs idx done time_out;
      slots epoch_end obs final bs' (S idx) flags'
  end.

End Loop.



End SamplingLoop.

(** ** Counting the calls made on a buffer *)

(** Any buffer, with a counter for the calls of [store] and one for the
    calls of [get].  Every call goes on to the buffer inside. *)
Module Counted.
Section Counted.
Variable B0 : Buffer.

Record Calls := mkCalls {
  inner : Buf (Buffer := B0);
  stores : nat;
  gets : nat
}.

Definition buffer : Buffer := {|
  Buf := Calls;
  store := fun b t => mkCalls (store (inner b) t) (S (stores b)) (gets b);
  finish_path := fun b vr vc idx =>
    mkCalls (finish_path (inner b) vr vc idx) (stores b) (gets b);
  get := fun b => ((get (inner b)).1, mkCalls (get (inner b)).2 (stores b) (S (gets b)))
|}.
End Counted.

(** The trainer on a counted buffer, and the trainer it stands for. *)
Section Trainer.
Context {T : Ppo.Torch} {V : Collector.VecEnv}.
Variable B0 : Buffer.

Definition count (st : Ppo.Trainer (B := B0)) (stores gets : nat)
    : Ppo.Trainer (B := buffer B0) :=
  Ppo.mkTrainer (B := buffer B0)
    (Ppo.heap st) (Ppo.actor st) (Ppo.critics st) (Ppo.fisher_matrices st)
    (Ppo.old_params_list st) (Ppo.current_task_index st)
    (Ppo.steps_since_change st)
    (mkCalls B0 (Ppo.buffer st) stores gets) (Ppo.env st) (Ppo.obs st).

Definition forget (st : Ppo.Trainer (B := buffer B0))
    : Ppo.Trainer (B := B0) :=
  Ppo.mkTrainer (B := B0)
    (Ppo.heap st) (Ppo.actor st) (Ppo.critics st) (Ppo.fisher_matrices st)
    (Ppo.old_params_list st) (Ppo.current_task_index st)
    (Ppo.steps_since_change st)
    (inner B0 (Ppo.buffer st)) (Ppo.env st) (Ppo.obs st).

Definition forget_update (u : Ppo.Update (B := buffer B0))
    : Ppo.Update (B := B0) :=
  Ppo.mkUpdate (forget (Ppo.u_trainer u)) (Ppo.update_counts u) (Ppo.final_kl u)
               (Ppo.u_log u).

Definition inner_rollout {P : Collector.Policy}
    (r : Collector.Rollout (B := buffer B0)) : Collector.Rollout (B := B0) :=
  Collector.mkRollout (B := B0) (Collector.r_env r) (Collector.r_obs r)
                      (inner B0 (Collector.r_buf r)).
End Trainer.
End Counted.

(** * Properties *)

(** ** The environment's task cycle *)

Section CheetahFacts.
Context {Ph : Cheetah.Physics}.
Import Cheetah.

Lemma cycle_length : Z.of_nat (length TASK_CYCLE) = 5.
Proof. reflexivity. Qed.

(** Every index of the cycle names a variant that has a multiplier. *)
Lemma cycle_lookup (i : Z) :
  0 <= i < 5 ->
  exists name m, py_getitem TASK_CYCLE i = Some name /\ MULTIPLIERS !! name = Some m.
Proof.
  intros Hi.
  assert (i = 0 \/ i = 1 \/ i = 2 \/ i = 3 \/ i = 4) as Hc by lia.
  destruct Hc as [-> | [-> | [-> | [-> | ->]]]];
    eexists; eexists; split; vm_compute; reflexivity.
Qed.

Lemma change_task_total (e : Env) :
  0 <= current_task e < 5 ->
  exists name m,
    py_getitem TASK_CYCLE (current_task e) = Some name /\
    MULTIPLIERS !! name = Some m /\
    change_task e =
      Some (mkEnv (current_task e) (steps_since_change e) name
                  (velocity_threshold e) (tscale m NOMINAL_MASSES)
                  (reset (tscale m NOMINAL_MASSES) (data e))).
Proof.
  intros Hi. destruct (cycle_lookup _ Hi) as (name & m & Hn & Hm).
  exists name, m. split; [exact Hn|]. split; [exact Hm|].
  unfold change_task. rewrite Hn. simpl. rewrite Hm. reflexivity.
Qed.

(** [check_task] never fails, whatever the state: the index it looks up
    has just been reduced modulo the length of the cycle. *)
Lemma check_task_spec (e : Env) :
  exists e1, check_task e = Some e1 /\
    if decide (TASK_LENGTH < steps_since_change e) then
      exists name m,
        let i := (current_task e + 1) `mod` 5 in
        py_getitem TASK_CYCLE i = Some name /\
        MULTIPLIERS !! name = Some m /\
        e1 = mkEnv i 0 name (velocity_threshold e) (tscale m NOMINAL_MASSES)
                   (reset (tscale m NOMINAL_MASSES) (data e))
    else e1 = e.
Proof.
  unfold check_task. destruct (decide (TASK_LENGTH < steps_since_change e)).
  - rewrite cycle_length.
    assert (0 <= (current_task e + 1) `mod` 5 < 5) as Hi
      by (apply Z.mod_pos_bound; lia).
    edestruct (change_task_total
                 (mkEnv ((current_task e + 1) `mod` 5) 0 (current_task_name e)
                        (velocity_threshold e) (body_mass e) (data e)))
      as (name & m & Hn & Hm & Hc); [exact Hi|].
    eexists. split; [exact Hc|]. exists name, m. simpl. auto.
  - exists e. auto.
Qed.

Lemma step_spec (e : Env) (a : Action) :
  let d := do_simulation (body_mass e) (data e) a in
  exists e1,
    check_task (mkEnv (current_task e) (steps_since_change e)
                      (current_task_name e) (velocity_threshold e)
                      (body_mass e) d) = Some e1 /\
    step e a =
      Some (mkEnv (current_task e1) (steps_since_change e1 + 1)
                  (current_task_name e1) (velocity_threshold e1)
                  (body_mass e1) (data e1),
            mkStepResult (get_obs d)
              (forward_reward_weight * x_velocity e a - control_cost a)%Q
              (if Qlt_le_dec (velocity_threshold e) (x_velocity e a) then 1%Q else 0%Q)
              false false
              (mkInfo (qpos0 d) (x_velocity e a)
                      (forward_reward_weight * x_velocity e a)%Q
                      (- control_cost a)%Q)).
Proof.
  intros d.
  destruct (check_task_spec
              (mkEnv (current_task e) (steps_since_change e)
                     (current_task_name e) (velocity_threshold e)
                     (body_mass e) d)) as (e1 & He1 & _).
  exists e1. split; [exact He1|].
  unfold step. fold d. rewrite He1. reflexivity.
Qed.
End CheetahFacts.

(** ** The collector's boundary handling *)

Section CollectorFacts.
Context {P : Collector.Policy} {V : Collector.VecEnv} {B : Buffer}.
Import Collector.



End CollectorFacts.

Section CallCount.
Context {P : Collector.Policy} {V : Collector.VecEnv}.
Import Collector CallLog.
#[local] Existing Instance CallLog.buffer.









End CallCount.




(** C10.  Whatever the state and the action, [step] succeeds and returns
    [terminated = False] and [truncated = False]; the cost is 1 when the
    measured velocity is strictly above the threshold and 0 otherwise; so
    the collector never meets its natural-termination case on a flag that
    comes from this method. *)
Theorem step_never_terminates (Ph : Cheetah.Physics)
    (e : Cheetah.Env) (a : Cheetah.Action) :
  exists e' r,
    Cheetah.step e a = Some (e', r) /\
    Cheetah.terminated r = false /\
    Cheetah.truncated r = false /\
    (Cheetah.cost r = 1%Q \/ Cheetah.cost r = 0%Q) /\
    (Cheetah.cost r = 1%Q <->
     (Cheetah.velocity_threshold e < Cheetah.x_velocity e a)%Q) /\
    forall epoch_end time_out : bool,
      Collector.boundary epoch_end (Cheetah.terminated r) time_out
        <> Some Collector.NaturalTermination.
Proof.
  destruct (step_spec e a) as (e1 & _ & Hstep).
  eexists. eexists. split; [exact Hstep|]. simpl.
  split; [reflexivity|]. split; [reflexivity|].
  destruct (Qlt_le_dec (Cheetah.velocity_threshold e) (Cheetah.x_velocity e a))
    as [Hlt|Hle].
  - split; [left; reflexivity|]. split; [tauto|].
    intros [] []; discriminate.
  - split; [right; reflexivity|]. split.
    + split; [discriminate|]. intros Hlt.
      exfalso. exact (Qlt_not_le _ _ Hlt Hle).
    + intros [] []; discriminate.
Qed.

(** ** The clipped surrogate *)

Section SurrogateFacts.
Context {T : Ppo.Torch}.
Import Ppo.

Lemma Qlt_le_absurd (x y : Q) : (x < y)%Q -> (y <= x)%Q -> False.
Proof. intros H1 H2. exact (Qlt_not_le _ _ H1 H2). Qed.

(** [torch.clamp] with the bounds 0.8 and 1.2 is the clipping of the
    spec. *)
Lemma clamp_clip (r : Q) : clamp (8 # 10) (12 # 10) r = clip (8 # 10) (12 # 10) r.
Proof.
  unfold clamp, clip, Qmax, Qmin, GenericMinMax.gmax, GenericMinMax.gmin.
  destruct (Qcompare_spec r (8 # 10)) as [Hlo|Hlo|Hlo];
    destruct (Qlt_le_dec r (8 # 10)) as [Hlo'|Hlo'].
  all: try reflexivity.
  all: try (exfalso; rewrite Hlo in Hlo'; revert Hlo'; compute; congruence).
  all: try (exfalso; eapply Qlt_le_absurd; eassumption).
  all: try (exfalso; apply (Qlt_irrefl r); eapply Qlt_trans; eassumption).
  all: destruct (Qcompare_spec r (12 # 10)) as [Hhi|Hhi|Hhi];
    destruct (Qlt_le_dec (12 # 10) r) as [Hhi'|Hhi']; try reflexivity.
  all: try (exfalso; eapply Qlt_le_absurd; eassumption).
  all: try (exfalso; apply (Qlt_irrefl r); eapply Qlt_trans; eassumption).
  all: exfalso; rewrite Hhi in Hhi'; revert Hhi'; compute; congruence.
Qed.

(** The tensor operations of the source compute the surrogate of every
    pair. *)
Lemma surrogates_fused (log_prob log_prob_b adv_b : tensor) :
  let ratio := map exp (tsub log_prob log_prob_b) in
  tmin (tmul ratio adv_b) (tmul (tclamp (8 # 10) (12 # 10) ratio) adv_b)
  = surrogates log_prob log_prob_b adv_b.
Proof.
  simpl. revert log_prob_b adv_b.
  induction log_prob as [|n ns IH]; intros [|o os] [|a advs]; try reflexivity.
  simpl. unfold surrogate. rewrite clamp_clip. f_equal. apply IH.
Qed.
End SurrogateFacts.

(** C6.  The actor loss of a minibatch, as the source computes it with
    tensor operations, is the negated mean over the minibatch of
    [min(ratio * adv, clip(ratio, 0.8, 1.2) * adv)] taken pair by pair, with
    [ratio = exp(new_log_prob - old_log_prob)]; and this is the actor loss
    that a gradient step uses and logs. *)
Theorem loss_pi_is_clipped_surrogate
    (T : Ppo.Torch) (V : Collector.VecEnv) (B : Buffer)
    (cfg : Ppo.Config) (st st' : Ppo.Trainer) (mb : Ppo.Minibatch)
    (total loss_actor loss_ewc : Q) :
  Ppo.gradient_step cfg st mb = Some (st', Ppo.GradientStep total loss_actor loss_ewc) ->
  let new_log_prob :=
    zip_with (Ppo.actor_log_prob (Ppo.named_values (Ppo.heap st) (Ppo.actor st)))
             (Ppo.obs_b mb) (Ppo.act_b mb) in
  loss_actor = Ppo.loss_pi new_log_prob (Ppo.log_prob_b mb) (Ppo.adv_b mb) /\
  forall log_prob log_prob_b adv_b : tensor,
    Ppo.loss_pi log_prob log_prob_b adv_b = Ppo.loss_pi_spec log_prob log_prob_b adv_b.
Proof.
  intros Hstep new_log_prob. split.
  - unfold Ppo.gradient_step in Hstep.
    destruct (Ppo.critic_losses (Ppo.critics st) mb) as [loss_r loss_c].
    destruct (Ppo.ewc_loss st) as [ewc|]; simpl in Hstep; [|discriminate].
    destruct (Ppo.optimizer_step _ _ _ _ _ _) as [vals critics'].
    injection Hstep as _ _ Hl _. symmetry. exact Hl.
  - intros log_prob log_prob_b adv_b.
    unfold Ppo.loss_pi, Ppo.loss_pi_spec, tmean.
    rewrite surrogates_fused. reflexivity.
Qed.

Lemma loss_pi_is_clipped_surrogate_witness :
  let cfg := Toy.config 2 3 in
  let st := Toy.trainer Toy.rewind_buffer cfg (Toy.mkRewind DrainBuffer.cleared false) in
  let mb := Ppo.mkMinibatch [[1%Q]; [2%Q]] [[1%Q]; [2%Q]] [(1 # 2)%Q; 0%Q]
                            [0%Q; 0%Q] [0%Q; 0%Q] [1%Q; (-1)%Q] in
  exists st' total loss_actor loss_ewc,
    Ppo.gradient_step cfg st mb
      = Some (st', Ppo.GradientStep total loss_actor loss_ewc) /\
    loss_actor = Ppo.loss_pi (T := Toy.torch) [0%Q; 0%Q] [(1 # 2)%Q; 0%Q] [1%Q; (-1)%Q] /\
    (loss_actor == 1 # 4)%Q.
Proof.
  eexists. eexists. eexists. eexists. split; [vm_compute; reflexivity|].
  split; [|reflexivity].
  exact (proj1 (loss_pi_is_clipped_surrogate Toy.torch Toy.vec_env Toy.rewind_buffer
                  (Toy.config 2 3)
                  (Toy.trainer Toy.rewind_buffer (Toy.config 2 3)
                     (Toy.mkRewind DrainBuffer.cleared false))
                  _ (Ppo.mkMinibatch [[1%Q]; [2%Q]] [[1%Q]; [2%Q]] [(1 # 2)%Q; 0%Q]
                            [0%Q; 0%Q] [0%Q; 0%Q] [1%Q; (-1)%Q])
                  _ _ _ eq_refl)).
Defined.

(** ** The pass loop and its KL check *)

Section UpdateFacts.
Context {T : Ppo.Torch} {V : Collector.VecEnv} {B : Buffer}.
Import Ppo.

Lemma gradient_step_event (cfg : Config) (st st' : Trainer) (mb : Minibatch) (e : Event) :
  gradient_step cfg st mb = Some (st', e) -> is_kl e = false.
Proof.
  unfold gradient_step.
  destruct (critic_losses (critics st) mb) as [loss_r loss_c].
  destruct (ewc_loss st) as [ewc|]; simpl; [|discriminate].
  destruct (optimizer_step _ _ _ _ _ _) as [vals critics'].
  intros [= _ <-]. reflexivity.
Qed.

(** The trainer a pass ends in does not depend on what was logged before. *)
Lemma minibatches_log (cfg : Config) (mbs : list Minibatch) :
  forall (st : Trainer) (log : list Event),
    minibatches cfg st log mbs =
      (fun r => (r.1, log ++ r.2)) <$> minibatches cfg st [] mbs.
Proof.
  induction mbs as [|mb mbs IH]; intros st log; simpl.
  - rewrite app_nil_r. reflexivity.
  - destruct (gradient_step cfg st mb) as [[st1 e]|]; simpl; [|reflexivity].
    rewrite (IH st1 (log ++ [e])), (IH st1 [e]).
    destruct (minibatches cfg st1 [] mbs) as [[st2 log2]|]; simpl; [|reflexivity].
    rewrite <- app_assoc. reflexivity.
Qed.

Lemma kl_checks_app (l1 l2 : list Event) :
  kl_checks (l1 ++ l2) = (kl_checks l1 + kl_checks l2)%nat.
Proof. unfold kl_checks. rewrite filter_app, length_app. reflexivity. Qed.

(** Gradient steps log no KL check. *)
Lemma minibatches_kl_checks (cfg : Config) (mbs : list Minibatch) :
  forall (st st' : Trainer) (log : list Event),
    minibatches cfg st [] mbs = Some (st', log) -> kl_checks log = O.
Proof.
  induction mbs as [|mb mbs IH]; intros st st' log; simpl.
  - intros [= _ <-]. reflexivity.
  - destruct (gradient_step cfg st mb) as [[st1 e]|] eqn:Hg; simpl; [|discriminate].
    rewrite minibatches_log.
    destruct (minibatches cfg st1 [] mbs) as [[st2 log2]|] eqn:Hm; simpl; [|discriminate].
    intros [= _ <-]. specialize (IH _ _ _ Hm).
    unfold kl_checks in *. simpl. rewrite filter_cons.
    rewrite (gradient_step_event _ _ _ _ _ Hg). simpl. exact IH.
Qed.

Lemma kl_after_step (cfg : Config) (old : Params) (data : Batch)
    (loader : nat -> list Minibatch) (j pass : nat) (st st1 : Trainer) log :
  minibatches cfg st [] (loader pass) = Some (st1, log) ->
  kl_after cfg old data loader (S j) pass st = kl_after cfg old data loader j (S pass) st1.
Proof. intros Hm. unfold kl_after. simpl. rewrite Hm. reflexivity. Qed.

Lemma full_passes_step (cfg : Config) (loader : nat -> list Minibatch)
    (j pass : nat) (st st1 : Trainer) log :
  minibatches cfg st [] (loader pass) = Some (st1, log) ->
  full_passes cfg loader (S j) pass st = full_passes cfg loader j (S pass) st1.
Proof. intros Hm. simpl. rewrite Hm. reflexivity. Qed.

(** If the measured KL stays within [target_kl] after each of the next
    [m - 1] passes and exceeds it after the [m]-th, the loop stops there. *)
Lemma passes_stop (cfg : Config) (old : Params) (data : Batch)
    (loader : nat -> list Minibatch) (m : nat) :
  forall (todo pass : nat) (u : Update) (q : Q),
    (1 <= m <= todo)%nat ->
    (forall j, (1 <= j < m)%nat ->
       exists qj, kl_after cfg old data loader j pass (u_trainer u) = Some qj /\
                  (qj <= target_kl cfg)%Q) ->
    kl_after cfg old data loader m pass (u_trainer u) = Some q ->
    (target_kl cfg < q)%Q ->
    exists u',
      passes cfg old data loader todo pass u = Some u' /\
      update_counts u' = (update_counts u + m)%nat /\
      final_kl u' = q /\
      full_passes cfg loader m pass (u_trainer u) = Some (u_trainer u') /\
      kl_checks (u_log u') = (kl_checks (u_log u) + m)%nat.
Proof.
  induction m as [|m IH]; intros todo pass u q Hm Hbelow Hat Habove; [lia|].
  destruct todo as [|todo]; [lia|].
  remember (full_passes cfg loader (S m) pass (u_trainer u)) as fp eqn:Hfp.
  simpl.
  destruct (minibatches cfg (u_trainer u) [] (loader pass)) as [[st1 log1]|] eqn:Hmb.
  2: { unfold kl_after in Hat. simpl in Hat. rewrite Hmb in Hat. discriminate. }
  rewrite minibatches_log, Hmb. simpl.
  rewrite (full_passes_step _ _ _ _ _ _ _ Hmb) in Hfp. subst fp.
  set (kl := kl_divergence old (named_values (heap st1) (actor st1)) (b_obs data)).
  assert (kl_after cfg old data loader 1 pass (u_trainer u) = Some kl) as Hkl1
    by (unfold kl_after; simpl; rewrite Hmb; reflexivity).
  assert (kl_checks ((u_log u ++ log1) ++ [KLCheck kl]) = S (kl_checks (u_log u)))
    as Hcount.
  { rewrite !kl_checks_app, (minibatches_kl_checks _ _ _ _ _ Hmb).
    unfold kl_checks at 2. simpl. lia. }
  destruct m as [|m].
  - rewrite Hkl1 in Hat. injection Hat as Hq.
    destruct (Qlt_le_dec (target_kl cfg) kl) as [Hgt|Hle].
    + eexists. split; [reflexivity|].
      cbn [update_counts final_kl u_trainer u_log].
      split; [lia|]. split; [exact Hq|].
      split; [reflexivity|]. rewrite Hcount. lia.
    + exfalso. rewrite Hq in Hle. exact (Qlt_le_absurd _ _ Habove Hle).
  - destruct (Hbelow 1%nat ltac:(lia)) as (q1 & Hq1 & Hle1).
    rewrite Hkl1 in Hq1. injection Hq1 as Hq1.
    destruct (Qlt_le_dec (target_kl cfg) kl) as [Hgt|Hle].
    + exfalso. rewrite <- Hq1 in Hle1. exact (Qlt_le_absurd _ _ Hgt Hle1).
    + destruct (IH todo (S pass)
                  (mkUpdate st1 (S (update_counts u)) kl
                            ((u_log u ++ log1) ++ [KLCheck kl])) q)
        as (u' & Hp & Hc & Hf & Hfull & Hk).
      * lia.
      * intros j Hj. destruct (Hbelow (S j) ltac:(lia)) as (qj & Hqj & Hlej).
        exists qj. split; [|exact Hlej]. cbn [u_trainer].
        rewrite <- (kl_after_step _ _ _ _ _ _ _ _ _ Hmb). exact Hqj.
      * cbn [u_trainer]. rewrite <- (kl_after_step _ _ _ _ _ _ _ _ _ Hmb). exact Hat.
      * exact Habove.
      * exists u'. split; [exact Hp|].
        cbn [update_counts final_kl u_trainer u_log] in *.
        split; [lia|]. split; [exact Hf|].
        split; [exact Hfull|]. rewrite Hk, Hcount. lia.
Qed.
End UpdateFacts.

(** C5.  In an epoch's update the KL divergence between the distribution
    before the update and the current one, over the whole drained batch, is
    measured once after each full pass over the minibatches.  If it
    exceeds [target_kl] after pass [k] (and did not after an earlier pass),
    the update ends with exactly [k] passes made, [update_counts = k],
    and [k] KL measurements. *)
Theorem kl_early_stop
    (T : Ppo.Torch) (V : Collector.VecEnv) (B : Buffer)
    (cfg : Ppo.Config) (epoch : nat) (st : Ppo.Trainer) (k : nat) (q : Q) :
  let data := (get (Ppo.buffer st)).1 in
  let st1 := Ppo.mkTrainer (Ppo.heap st) (Ppo.actor st) (Ppo.critics st)
               (Ppo.fisher_matrices st) (Ppo.old_params_list st)
               (Ppo.current_task_index st) (Ppo.steps_since_change st)
               (get (Ppo.buffer st)).2 (Ppo.env st) (Ppo.obs st) in
  let old_distribution := Ppo.named_values (Ppo.heap st) (Ppo.actor st) in
  let loader := Ppo.dataloader epoch data in
  (1 <= k <= Ppo.learning_iters cfg)%nat ->
  (forall j, (1 <= j < k)%nat ->
     exists qj, Ppo.kl_after cfg old_distribution data loader j 0 st1 = Some qj /\
                (qj <= Ppo.target_kl cfg)%Q) ->
  Ppo.kl_after cfg old_distribution data loader k 0 st1 = Some q ->
  (Ppo.target_kl cfg < q)%Q ->
  exists u,
    Ppo.update cfg epoch st = Some (data, u) /\
    Ppo.update_counts u = k /\
    Ppo.final_kl u = q /\
    Ppo.full_passes cfg loader k 0 st1 = Some (Ppo.u_trainer u) /\
    Ppo.kl_checks (Ppo.u_log u) = k.
Proof.
  intros data st1 old_distribution loader Hk Hbelow Hat Habove.
  destruct (passes_stop cfg old_distribution data loader k
              (Ppo.learning_iters cfg) 0 (Ppo.mkUpdate st1 0 1%Q []) q
              Hk Hbelow Hat Habove) as (u & Hp & Hc & Hf & Hfull & Hkl).
  exists u. subst data st1 loader old_distribution. unfold Ppo.update.
  destruct (get (Ppo.buffer st)) as [data' buf]. simpl in *. rewrite Hp. simpl.
  repeat split; assumption.
Qed.

Lemma kl_early_stop_witness :
  let cfg := Toy.config 2 3 in
  let st := Toy.trainer Toy.rewind_buffer cfg (Toy.mkRewind DrainBuffer.cleared false) in
  exists u,
    Ppo.update cfg 0 st = Some ((get (Ppo.buffer st)).1, u) /\
    Ppo.update_counts u = 2%nat /\
    Ppo.final_kl u = 4%Q /\
    Ppo.kl_checks (Ppo.u_log u) = 2%nat.
Proof.
  destruct (kl_early_stop Toy.torch Toy.vec_env Toy.rewind_buffer (Toy.config 2 3) 0
              (Toy.trainer Toy.rewind_buffer (Toy.config 2 3)
                 (Toy.mkRewind DrainBuffer.cleared false)) 2 4%Q)
    as (u & Hu & Hc & Hf & _ & Hk).
  - simpl. lia.
  - intros j Hj. assert (j = 1%nat) as -> by lia.
    exists 1%Q. split; [vm_compute; reflexivity|]. discriminate.
  - vm_compute. reflexivity.
  - reflexivity.
  - exists u. repeat split; assumption.
Defined.

(** ** Python indexing *)

Lemma py_index_lt (n : nat) (i : Z) (k : nat) : py_index n i = Some k -> (k < n)%nat.
Proof.
  unfold py_index. repeat case_decide; intros [= <-]; lia.
Qed.

Lemma py_setitem_spec {A} (l : list A) (i : Z) (x : A) (l' : list A) :
  py_setitem l i x = Some l' ->
  exists k, py_index (length l) i = Some k /\ (k < length l)%nat /\ l' = <[k := x]> l.
Proof.
  unfold py_setitem. destruct (py_index (length l) i) as [k|] eqn:Hk; simpl; [|discriminate].
  intros [= <-]. exists k. split; [reflexivity|]. split; [|reflexivity].
  exact (py_index_lt _ _ _ Hk).
Qed.

(** ** Which fields each phase of an epoch touches *)

Section PhaseFacts.
Context {T : Ppo.Torch} {V : Collector.VecEnv} {B : Buffer}.
Import Ppo.

Lemma collect_fields (cfg : Config) (n : nat) (st st' : Trainer) :
  collect cfg n st = Some st' ->
  heap st' = heap st /\ actor st' = actor st /\ critics st' = critics st /\
  fisher_matrices st' = fisher_matrices st /\
  old_params_list st' = old_params_list st /\
  current_task_index st' = current_task_index st /\
  steps_since_change st' = steps_since_change st.
Proof.
  unfold collect.
  destruct (Collector.rollout _ _) as [r|]; simpl; [|discriminate].
  intros [= <-]. simpl. repeat split; reflexivity.
Qed.

(** A gradient step writes the heap and the critics, nothing else. *)
Lemma gradient_step_fields (cfg : Config) (st st' : Trainer) (mb : Minibatch) (e : Event) :
  gradient_step cfg st mb = Some (st', e) ->
  (exists vals, heap st' = write_params (heap st) (actor st) vals) /\
  actor st' = actor st /\
  fisher_matrices st' = fisher_matrices st /\
  old_params_list st' = old_params_list st /\
  current_task_index st' = current_task_index st /\
  steps_since_change st' = steps_since_change st /\
  buffer st' = buffer st /\ env st' = env st /\ obs st' = obs st.
Proof.
  unfold gradient_step.
  destruct (critic_losses (critics st) mb) as [loss_r loss_c].
  destruct (ewc_loss st) as [ewc|]; simpl; [|discriminate].
  destruct (optimizer_step _ _ _ _ _ _) as [vals critics'].
  intros [= <- _]. simpl. split; [exists vals; reflexivity|].
  repeat split; reflexivity.
Qed.

Lemma same_regularizer_refl (st : Trainer) : same_regularizer st st.
Proof. unfold same_regularizer. repeat split; reflexivity. Qed.

Lemma same_regularizer_trans (st1 st2 st3 : Trainer) :
  same_regularizer st1 st2 -> same_regularizer st2 st3 -> same_regularizer st1 st3.
Proof.
  unfold same_regularizer. intros (?&?&?&?&?&?&?&?) (?&?&?&?&?&?&?&?).
  repeat split; congruence.
Qed.

Lemma gradient_step_same (cfg : Config) (st st' : Trainer) (mb : Minibatch) (e : Event) :
  gradient_step cfg st mb = Some (st', e) -> same_regularizer st st'.
Proof.
  intros Hg. destruct (gradient_step_fields _ _ _ _ _ Hg) as (_&?&?&?&?&?&?&?&?).
  unfold same_regularizer. repeat split; assumption.
Qed.

Lemma minibatches_same (cfg : Config) (mbs : list Minibatch) :
  forall (st st' : Trainer) (log log' : list Event),
    minibatches cfg st log mbs = Some (st', log') -> same_regularizer st st'.
Proof.
  induction mbs as [|mb mbs IH]; intros st st' log log'; simpl.
  - intros [= <- _]. apply same_regularizer_refl.
  - destruct (gradient_step cfg st mb) as [[st1 e]|] eqn:Hg; simpl; [|discriminate].
    intros Hm. eapply same_regularizer_trans.
    + exact (gradient_step_same _ _ _ _ _ Hg).
    + exact (IH _ _ _ _ Hm).
Qed.

Lemma passes_same (cfg : Config) (old : Params) (data : Batch)
    (loader : nat -> list Minibatch) (todo : nat) :
  forall (pass : nat) (u u' : Update),
    passes cfg old data loader todo pass u = Some u' ->
    same_regularizer (u_trainer u) (u_trainer u').
Proof.
  induction todo as [|todo IH]; intros pass u u'; simpl.
  - intros [= <-]. apply same_regularizer_refl.
  - destruct (minibatches cfg (u_trainer u) (u_log u) (loader pass))
      as [[st1 log1]|] eqn:Hm; simpl; [|discriminate].
    pose proof (minibatches_same _ _ _ _ _ _ Hm) as Hs.
    destruct (Qlt_le_dec _ _).
    + intros [= <-]. exact Hs.
    + intros Hp. eapply same_regularizer_trans; [exact Hs|].
      exact (IH _ _ _ Hp).
Qed.

(** The update drains the buffer once, at its start, and otherwise
    leaves the regularizer's state, the environment and the buffer as
    they are. *)
Lemma update_fields (cfg : Config) (n : nat) (st : Trainer) (data : Batch) (u : Update) :
  update cfg n st = Some (data, u) ->
  data = (get (buffer st)).1 /\
  buffer (u_trainer u) = (get (buffer st)).2 /\
  actor (u_trainer u) = actor st /\
  fisher_matrices (u_trainer u) = fisher_matrices st /\
  old_params_list (u_trainer u) = old_params_list st /\
  current_task_index (u_trainer u) = current_task_index st /\
  steps_since_change (u_trainer u) = steps_since_change st /\
  env (u_trainer u) = env st.
Proof.
  unfold update. destruct (get (buffer st)) as [data' buf]. simpl.
  destruct (passes _ _ _ _ _ _ _) as [u'|] eqn:Hp; simpl; [|discriminate].
  intros [= <- <-].
  destruct (passes_same _ _ _ _ _ _ _ _ Hp) as (?&?&?&?&?&?&?&?).
  simpl in *. repeat split; assumption.
Qed.
End PhaseFacts.

(** ** The end of an epoch *)

Section SwitchFacts.
Context {T : Ppo.Torch} {V : Collector.VecEnv} {B : Buffer}.
Import Ppo.

Lemma no_switch_spec (cfg : Config) (st st' : Trainer) :
  switch_due cfg st = false ->
  regularizer_epoch_end cfg st = Some st' ->
  st' = mkTrainer (heap st) (actor st) (critics st) (fisher_matrices st)
                  (old_params_list st) (current_task_index st)
                  (steps_since_change st + steps_per_epoch cfg)
                  (buffer st) (env st) (obs st).
Proof.
  unfold regularizer_epoch_end. intros ->. intros [= <-]. reflexivity.
Qed.

(** What a task switch does, field by field. *)
Lemma switch_spec (cfg : Config) (st st' : Trainer) :
  switch_due cfg st = true ->
  regularizer_epoch_end cfg st = Some st' ->
  exists (current_task_num : Z) (k k' : nat),
    py_getitem (tasks cfg) (current_task_index st) = Some current_task_num /\
    py_index (length (fisher_matrices st)) current_task_num = Some k /\
    py_index (length (old_params_list st)) current_task_num = Some k' /\
    st' = mkTrainer
            (save_old_params (heap st) (actor st)).1 (actor st) (critics st)
            (<[k := Some (compute_fisher_info (get (buffer st)).1
                            (named_values (heap st) (actor st)))]>
               (fisher_matrices st))
            (<[k' := Some (save_old_params (heap st) (actor st)).2]>
               (old_params_list st))
            ((current_task_index st + 1) `mod` Z.of_nat (num_tasks cfg)) 0
            (get (buffer st)).2 (env st) (obs st).
Proof.
  unfold regularizer_epoch_end. intros ->.
  destruct (py_getitem (tasks cfg) (current_task_index st)) as [num|];
    simpl; [|discriminate].
  destruct (get (buffer st)) as [data buf]. simpl.
  destruct (save_old_params (heap st) (actor st)) as [h anchor]. simpl.
  destruct (py_setitem (fisher_matrices st) num _) as [fm|] eqn:Hfm;
    simpl; [|discriminate].
  destruct (py_setitem (old_params_list st) num _) as [op|] eqn:Hop;
    simpl; [|discriminate].
  intros [= <-].
  destruct (py_setitem_spec _ _ _ _ Hfm) as (k & Hk & _ & ->).
  destruct (py_setitem_spec _ _ _ _ Hop) as (k' & Hk' & _ & ->).
  exists num, k, k'. repeat split; assumption.
Qed.

(** *** Cloning *)

Lemma save_fold_heap (model : list (string * loc)) :
  forall (hd : Heap * Anchor),
    (forall np, np ∈ model -> (np.2 < length hd.1)%nat) ->
    (foldl (fun hd np =>
              let '(h', l') := clone hd.1 np.2 in (h', <[np.1 := l']> hd.2))
           hd model).1
    = hd.1 ++ map (fun np => hd.1 !!! np.2) model.
Proof.
  induction model as [|np model IH]; intros hd Hlive; simpl.
  - rewrite app_nil_r. reflexivity.
  - rewrite IH; simpl.
    + rewrite <- app_assoc. simpl. f_equal. f_equal.
      apply map_ext_in. intros np' Hin.
      apply lookup_total_app_l. apply Hlive. right.
      apply list_elem_of_In. exact Hin.
    + intros np' Hin. rewrite length_app. simpl.
      assert (np'.2 < length hd.1)%nat by (apply Hlive; right; exact Hin). lia.
Qed.

Lemma save_fold_anchor (model : list (string * loc)) :
  forall (hd : Heap * Anchor),
    NoDup model.*1 ->
    let r := foldl (fun hd np =>
                      let '(h', l') := clone hd.1 np.2 in (h', <[np.1 := l']> hd.2))
                   hd model in
    (forall i np, model !! i = Some np -> r.2 !! np.1 = Some (length hd.1 + i)%nat) /\
    (forall name, name ∉ model.*1 -> r.2 !! name = hd.2 !! name).
Proof.
  induction model as [|np model IH]; intros hd Hnd; simpl.
  - split; [intros i np' Hi; discriminate|reflexivity].
  - apply NoDup_cons in Hnd as [Hnotin Hnd].
    destruct (IH (hd.1 ++ [hd.1 !!! np.2], <[np.1 := length hd.1]> hd.2) Hnd)
      as [Hin Hout]. simpl in *. split.
    + intros [|i] np' Hi; simpl in Hi.
      * injection Hi as <-. rewrite (Hout _ Hnotin), lookup_insert_eq.
        f_equal. lia.
      * rewrite (Hin _ _ Hi), length_app. simpl. f_equal. lia.
    + intros name Hname. apply not_elem_of_cons in Hname as [Hne Hname].
      rewrite (Hout _ Hname). apply lookup_insert_ne. congruence.
Qed.

Lemma save_old_params_heap (h : Heap) (model : list (string * loc)) :
  (forall np, np ∈ model -> (np.2 < length h)%nat) ->
  (save_old_params h model).1 = h ++ map (fun np => h !!! np.2) model.
Proof. intros Hlive. exact (save_fold_heap model (h, ∅) Hlive). Qed.

Lemma save_old_params_lookup (h : Heap) (model : list (string * loc)) (i : nat)
    (np : string * loc) :
  NoDup model.*1 -> model !! i = Some np ->
  (save_old_params h model).2 !! np.1 = Some (length h + i)%nat.
Proof.
  intros Hnd Hi. exact (proj1 (save_fold_anchor model (h, ∅) Hnd) i np Hi).
Qed.

(** A snapshot holds, under every parameter's name, a location whose
    content is the parameter's, and the parameter keeps its content. *)
Lemma snapshot_values (h : Heap) (model : list (string * loc)) (name : string) (l : loc) :
  NoDup model.*1 ->
  (forall np, np ∈ model -> (np.2 < length h)%nat) ->
  (name, l) ∈ model ->
  exists l', (save_old_params h model).2 !! name = Some l' /\
             (save_old_params h model).1 !! l' = h !! l /\
             (save_old_params h model).1 !! l = h !! l.
Proof.
  intros Hnd Hlive Hin.
  apply list_elem_of_lookup in Hin as (i & Hi).
  pose proof (Hlive _ (list_elem_of_lookup_2 _ _ _ Hi)) as Hl. simpl in Hl.
  exists (length h + i)%nat.
  split; [exact (save_old_params_lookup _ _ _ _ Hnd Hi)|].
  rewrite (save_old_params_heap _ _ Hlive). split.
  - rewrite lookup_app_r by lia.
    replace (length h + i - length h)%nat with i by lia.
    rewrite list_lookup_fmap, Hi. simpl. symmetry.
    apply list_lookup_lookup_total_lt. exact Hl.
  - apply lookup_app_l. exact Hl.
Qed.

(** Every location of a snapshot is a fresh one. *)
Lemma save_old_params_fresh (h : Heap) (model : list (string * loc)) (name : string)
    (l' : loc) :
  NoDup model.*1 ->
  (save_old_params h model).2 !! name = Some l' ->
  exists i np, model !! i = Some np /\ np.1 = name /\ l' = (length h + i)%nat.
Proof.
  intros Hnd Hl.
  destruct (decide (name ∈ model.*1)) as [Hin|Hout].
  - apply list_elem_of_fmap in Hin as (np & -> & Hnp).
    apply list_elem_of_lookup in Hnp as (i & Hi).
    rewrite (save_old_params_lookup _ _ _ _ Hnd Hi) in Hl.
    injection Hl as <-. exists i, np. auto.
  - unfold save_old_params in Hl.
    rewrite (proj2 (save_fold_anchor model (h, ∅) Hnd) name Hout) in Hl.
    simpl in Hl. rewrite lookup_empty in Hl. discriminate.
Qed.
End SwitchFacts.

(** ** Only live parameters are written *)

Section FrameFacts.
Context {T : Ppo.Torch} {V : Collector.VecEnv} {B : Buffer}.
Import Ppo.

Lemma write_params_length (a : list (string * loc)) :
  forall (h : Heap) (vals : list tensor),
    length (write_params h a vals) = length h.
Proof.
  unfold write_params.
  induction a as [|np a IH]; intros h [|v vals]; simpl; try reflexivity.
  rewrite IH. apply length_insert.
Qed.

Lemma write_params_other (a : list (string * loc)) (l : loc) :
  l ∉ a.*2 ->
  forall (h : Heap) (vals : list tensor), write_params h a vals !! l = h !! l.
Proof.
  unfold write_params.
  induction a as [|np a IH]; intros Hl h [|v vals]; simpl; try reflexivity.
  simpl in Hl. apply not_elem_of_cons in Hl as [Hne Hl].
  rewrite (IH Hl). apply list_lookup_insert_ne. congruence.
Qed.

Lemma frame_refl (st : Trainer) : frame st st.
Proof. unfold frame. auto. Qed.

Lemma frame_trans (st1 st2 st3 : Trainer) :
  frame st1 st2 -> frame st2 st3 -> frame st1 st3.
Proof.
  unfold frame. intros (Ha & Hl & Hf) (Ha' & Hl' & Hf').
  split; [congruence|]. split; [lia|].
  intros l Hlt Hnot. rewrite Hf'; [apply Hf; assumption|lia|].
  rewrite Ha. exact Hnot.
Qed.

(** A state that differs from a well-formed one by in-place writes to
    the heap is well-formed. *)
Lemma wf_inplace (st st' : Trainer) :
  wf st ->
  actor st' = actor st ->
  fisher_matrices st' = fisher_matrices st ->
  old_params_list st' = old_params_list st ->
  length (heap st') = length (heap st) ->
  wf st'.
Proof.
  intros [Hn Hl Hls Ha] Hact Hfm Hop Hlen.
  split; rewrite ?Hact, ?Hfm, ?Hop, ?Hlen; assumption.
Qed.

Lemma gradient_step_frame (cfg : Config) (st st' : Trainer) (mb : Minibatch) (e : Event) :
  gradient_step cfg st mb = Some (st', e) ->
  frame st st' /\ length (heap st') = length (heap st).
Proof.
  intros Hg.
  destruct (gradient_step_fields _ _ _ _ _ Hg) as ([vals Hh] & Ha & _).
  unfold frame. rewrite Hh, write_params_length.
  split; [|reflexivity]. split; [exact Ha|]. split; [lia|].
  intros l _ Hnot. apply write_params_other. exact Hnot.
Qed.

Lemma minibatches_frame (cfg : Config) (mbs : list Minibatch) :
  forall (st st' : Trainer) (log log' : list Event),
    minibatches cfg st log mbs = Some (st', log') ->
    frame st st' /\ length (heap st') = length (heap st).
Proof.
  induction mbs as [|mb mbs IH]; intros st st' log log'; simpl.
  - intros [= <- _]. split; [apply frame_refl|reflexivity].
  - destruct (gradient_step cfg st mb) as [[st1 e]|] eqn:Hg; simpl; [|discriminate].
    intros Hm. destruct (gradient_step_frame _ _ _ _ _ Hg) as [Hf1 Hl1].
    destruct (IH _ _ _ _ Hm) as [Hf2 Hl2].
    split; [exact (frame_trans _ _ _ Hf1 Hf2)|congruence].
Qed.

Lemma passes_frame (cfg : Config) (old : Params) (data : Batch)
    (loader : nat -> list Minibatch) (todo : nat) :
  forall (pass : nat) (u u' : Update),
    passes cfg old data loader todo pass u = Some u' ->
    frame (u_trainer u) (u_trainer u') /\
    length (heap (u_trainer u')) = length (heap (u_trainer u)).
Proof.
  induction todo as [|todo IH]; intros pass u u'; simpl.
  - intros [= <-]. split; [apply frame_refl|reflexivity].
  - destruct (minibatches cfg (u_trainer u) (u_log u) (loader pass))
      as [[st1 log1]|] eqn:Hm; simpl; [|discriminate].
    destruct (minibatches_frame _ _ _ _ _ _ Hm) as [Hf1 Hl1].
    destruct (Qlt_le_dec _ _).
    + intros [= <-]. simpl. split; assumption.
    + intros Hp. destruct (IH _ _ _ Hp) as [Hf2 Hl2]. simpl in *.
      split; [exact (frame_trans _ _ _ Hf1 Hf2)|congruence].
Qed.

Lemma update_frame (cfg : Config) (n : nat) (st : Trainer) (data : Batch) (u : Update) :
  update cfg n st = Some (data, u) ->
  frame st (u_trainer u) /\ length (heap (u_trainer u)) = length (heap st).
Proof.
  unfold update. destruct (get (buffer st)) as [data' buf].
  destruct (passes _ _ _ _ _ _ _) as [u'|] eqn:Hp; simpl; [|discriminate].
  intros [= _ <-]. exact (passes_frame _ _ _ _ _ _ _ _ Hp).
Qed.

Lemma update_wf (cfg : Config) (n : nat) (st : Trainer) (data : Batch) (u : Update) :
  wf st -> update cfg n st = Some (data, u) -> wf (u_trainer u).
Proof.
  intros Hwf Hu.
  destruct (update_fields _ _ _ _ _ Hu) as (_ & _ & Ha & Hfm & Hop & _).
  destruct (update_frame _ _ _ _ _ Hu) as [_ Hlen].
  exact (wf_inplace _ _ Hwf Ha Hfm Hop Hlen).
Qed.

Lemma collect_frame (cfg : Config) (n : nat) (st st' : Trainer) :
  collect cfg n st = Some st' -> frame st st'.
Proof.
  intros Hc. destruct (collect_fields _ _ _ _ Hc) as (Hh & Ha & _).
  unfold frame. rewrite Hh, Ha. auto.
Qed.

Lemma collect_wf (cfg : Config) (n : nat) (st st' : Trainer) :
  wf st -> collect cfg n st = Some st' -> wf st'.
Proof.
  intros Hwf Hc. destruct (collect_fields _ _ _ _ Hc) as (Hh & Ha & _ & Hfm & Hop & _).
  apply (wf_inplace _ _ Hwf Ha Hfm Hop). rewrite Hh. reflexivity.
Qed.

(** The end of an epoch writes no existing location: a switch appends
    its clones. *)
Lemma regularizer_frame (cfg : Config) (st st' : Trainer) :
  wf st -> regularizer_epoch_end cfg st = Some st' -> frame st st'.
Proof.
  intros Hwf He. destruct (switch_due cfg st) eqn:Hd.
  - destruct (switch_spec _ _ _ Hd He) as (num & k & k' & _ & _ & _ & ->).
    unfold frame. simpl.
    rewrite (save_old_params_heap _ _ (wf_live _ Hwf)).
    split; [reflexivity|]. split; [rewrite length_app; lia|].
    intros l Hl _. apply lookup_app_l. exact Hl.
  - rewrite (no_switch_spec _ _ _ Hd He). unfold frame. simpl. auto.
Qed.

Lemma regularizer_wf (cfg : Config) (st st' : Trainer) :
  wf st -> regularizer_epoch_end cfg st = Some st' -> wf st'.
Proof.
  intros Hwf He. destruct (switch_due cfg st) eqn:Hd.
  - destruct (switch_spec _ _ _ Hd He) as (num & k & k' & _ & _ & _ & ->).
    pose proof (save_old_params_heap _ _ (wf_live _ Hwf)) as Hheap.
    destruct Hwf as [Hn Hl Hls Ha]. split; simpl.
    + exact Hn.
    + intros np Hnp. rewrite Hheap, length_app. specialize (Hl np Hnp). lia.
    + rewrite !length_insert. exact Hls.
    + intros j a name l' Hj Hname. rewrite Hheap, length_app.
      destruct (decide (j = k')) as [->|Hne].
      * assert (k' < length (old_params_list st))%nat as Hlt
          by (apply lookup_lt_Some in Hj; rewrite length_insert in Hj; exact Hj).
        rewrite list_lookup_insert_eq in Hj by exact Hlt.
        injection Hj as <-.
        destruct (save_old_params_fresh _ _ _ _ Hn Hname) as (i & np & Hi & _ & ->).
        apply lookup_lt_Some in Hi as Hilt. rewrite length_map. split; [lia|].
        intros Hin. apply list_elem_of_fmap in Hin as (np' & Heq & Hnp').
        specialize (Hl np' Hnp'). lia.
      * rewrite list_lookup_insert_ne in Hj by congruence.
        destruct (Ha _ _ _ _ Hj Hname) as [Hlt Hnot]. split; [lia|exact Hnot].
  - rewrite (no_switch_spec _ _ _ Hd He).
    destruct Hwf as [Hn Hl Hls Ha]. split; simpl; assumption.
Qed.

Lemma epoch_frame (cfg : Config) (n : nat) (st st' : Trainer) (b : bool) :
  wf st -> epoch cfg n st = Some (st', b) -> wf st' /\ frame st st'.
Proof.
  intros Hwf. unfold epoch.
  destruct (collect cfg n st) as [st1|] eqn:Hc; simpl; [|discriminate].
  destruct (update cfg n st1) as [[data u]|] eqn:Hu; simpl; [|discriminate].
  destruct (regularizer_epoch_end cfg (schedule (u_trainer u))) as [st3|] eqn:He;
    simpl; [|discriminate].
  intros [= <- _].
  pose proof (collect_wf _ _ _ _ Hwf Hc) as Hwf1.
  pose proof (update_wf _ _ _ _ _ Hwf1 Hu) as Hwf2.
  assert (wf (schedule (u_trainer u))) as Hwf3
    by (apply (wf_inplace _ _ Hwf2); reflexivity).
  split; [exact (regularizer_wf _ _ _ Hwf3 He)|].
  eapply frame_trans; [exact (collect_frame _ _ _ _ Hc)|].
  eapply frame_trans; [exact (proj1 (update_frame _ _ _ _ _ Hu))|].
  exact (frame_trans _ (schedule (u_trainer u)) _
           (conj eq_refl (conj (le_n _) (fun _ _ _ => eq_refl)))
           (regularizer_frame _ _ _ Hwf3 He)).
Qed.

Lemma training_loop_frame (cfg : Config) (todo : nat) :
  forall (n : nat) (st st' : Trainer) (adv adv' : nat),
    wf st -> training_loop cfg todo n st adv = Some (st', adv') ->
    wf st' /\ frame st st'.
Proof.
  induction todo as [|todo IH]; intros n st st' adv adv' Hwf; simpl.
  - intros [= <- _]. split; [exact Hwf|apply frame_refl].
  - destruct (epoch cfg n st) as [[st1 b]|] eqn:He; simpl; [|discriminate].
    intros Hl. destruct (epoch_frame _ _ _ _ _ Hwf He) as [Hwf1 Hf1].
    destruct (IH _ _ _ _ _ Hwf1 Hl) as [Hwf' Hf'].
    split; [exact Hwf'|exact (frame_trans _ _ _ Hf1 Hf')].
Qed.

Lemma init_wf (cfg : Config) (h : Heap) (a : list (string * loc)) (c : Critics)
    (b : Buf) (e : Collector.EnvState) (o : list tensor) :
  NoDup a.*1 -> (forall np, np ∈ a -> (np.2 < length h)%nat) ->
  wf (init cfg h a c b e o).
Proof.
  intros Hn Hl. split; simpl; try assumption.
  - rewrite !length_replicate. reflexivity.
  - intros k anchor name l' Hk. apply lookup_replicate in Hk as [Hk _]. discriminate.
Qed.
End FrameFacts.

(** C8.  The anchor stored at a task switch holds, for every actor
    parameter, a tensor equal to the live one at that instant, in storage
    of its own: whatever is later written into the live parameters, by any
    optimizer step or by the rest of the training loop, every stored
    anchor keeps its value. *)
Theorem anchor_snapshot_independent
    (T : Ppo.Torch) (V : Collector.VecEnv) (B : Buffer)
    (cfg : Ppo.Config) (st st' : Ppo.Trainer) :
  Ppo.wf st ->
  Ppo.switch_due cfg st = true ->
  Ppo.regularizer_epoch_end cfg st = Some st' ->
  (exists k anchor,
     Ppo.old_params_list st' !! k = Some (Some anchor) /\
     forall name l, (name, l) ∈ Ppo.actor st ->
       exists l', anchor !! name = Some l' /\
                  Ppo.heap st' !! l' = Ppo.heap st !! l /\
                  Ppo.heap st' !! l = Ppo.heap st !! l) /\
  forall j a name l',
    Ppo.old_params_list st' !! j = Some (Some a) -> a !! name = Some l' ->
    (forall vals,
       Ppo.write_params (Ppo.heap st') (Ppo.actor st') vals !! l' = Ppo.heap st' !! l') /\
    (forall todo n adv st'' adv',
       Ppo.training_loop cfg todo n st' adv = Some (st'', adv') ->
       Ppo.heap st'' !! l' = Ppo.heap st' !! l').
Proof.
  intros Hwf Hd He. pose proof (regularizer_wf _ _ _ Hwf He) as Hwf'. split.
  - destruct (switch_spec _ _ _ Hd He) as (num & k & k' & _ & _ & Hk' & ->).
    exists k', (Ppo.save_old_params (Ppo.heap st) (Ppo.actor st)).2. simpl. split.
    + apply list_lookup_insert_eq. exact (py_index_lt _ _ _ Hk').
    + intros name l Hin.
      exact (snapshot_values _ _ _ _ (Ppo.wf_names _ Hwf) (Ppo.wf_live _ Hwf) Hin).
  - intros j a name l' Hj Hname.
    destruct (Ppo.wf_anchor _ Hwf' _ _ _ _ Hj Hname) as [Hlt Hnot]. split.
    + intros vals. apply write_params_other. exact Hnot.
    + intros todo n adv st'' adv' Hloop.
      destruct (training_loop_frame _ _ _ _ _ _ _ Hwf' Hloop) as [_ (_ & _ & Hf)].
      apply Hf; assumption.
Qed.

Lemma toy_trainer_wf (B : Buffer) (cfg : Ppo.Config) (b : Buf) :
  Ppo.wf (Toy.trainer B cfg b).
Proof.
  apply init_wf.
  - simpl. apply NoDup_singleton.
  - intros np Hnp. apply list_elem_of_singleton in Hnp as ->. simpl. lia.
Qed.

Lemma anchor_snapshot_independent_witness :
  let cfg := Toy.config 2 2 in
  let st := Toy.trainer Toy.rewind_buffer cfg (Toy.mkRewind DrainBuffer.cleared false) in
  exists st',
    Ppo.switch_due cfg st = true /\
    Ppo.regularizer_epoch_end cfg st = Some st' /\
    exists anchor l',
      Ppo.old_params_list st' !! 0%nat = Some (Some anchor) /\
      anchor !! "w"%string = Some l' /\
      Ppo.heap st' !! l' = Some [0%Q] /\
      forall vals,
        Ppo.write_params (Ppo.heap st') (Ppo.actor st') vals !! l' = Ppo.heap st' !! l'.
Proof.
  eexists. split; [reflexivity|]. split; [reflexivity|].
  destruct (anchor_snapshot_independent Toy.torch Toy.vec_env Toy.rewind_buffer
              (Toy.config 2 2)
              (Toy.trainer Toy.rewind_buffer (Toy.config 2 2)
                 (Toy.mkRewind DrainBuffer.cleared false))
              _ (toy_trainer_wf _ _ _) eq_refl eq_refl)
    as [(k & anchor & Hk & Hv) Hind].
  destruct (Hv "w"%string 0%nat ltac:(apply list_elem_of_singleton; reflexivity))
    as (l' & Hl' & Hval & _).
  exists anchor, l'.
  destruct k as [|k]; [|discriminate Hk].
  split; [exact Hk|]. split; [exact Hl'|]. split; [exact Hval|].
  exact (proj1 (Hind 0%nat anchor "w"%string l' Hk Hl')).
Defined.

(** ** The Fisher estimate *)

Lemma Qsquare_nonneg (x : Q) : (0 <= x * x)%Q.
Proof. unfold Qle, Qmult. simpl. nia. Qed.

Lemma tpow2_nonneg (g : tensor) : nonneg (tpow2 g).
Proof.
  unfold nonneg, tpow2. apply Forall_forall. intros x Hx.
  apply list_elem_of_In, in_map_iff in Hx as (y & <- & _). apply Qsquare_nonneg.
Qed.

Lemma tadd_nonneg (a b : tensor) : nonneg a -> nonneg b -> nonneg (tadd a b).
Proof.
  unfold nonneg, tadd. intros Ha. revert b.
  induction Ha as [|x a Hx Ha IH]; intros b Hb; simpl; [constructor|].
  destruct Hb as [|y b Hy Hb]; [constructor|].
  constructor; [|apply IH; exact Hb].
  rewrite <- (Qplus_0_l 0). apply Qplus_le_compat; assumption.
Qed.

Lemma tdiv_nonneg (a : tensor) (n : nat) :
  nonneg a -> nonneg (tdiv a (inject_Z (Z.of_nat n))).
Proof.
  unfold nonneg, tdiv. intros Ha. apply Forall_forall. intros x Hx.
  apply list_elem_of_In, in_map_iff in Hx as (y & <- & Hy).
  apply list_elem_of_In in Hy. rewrite Forall_forall in Ha.
  apply Qmult_le_0_compat; [apply Ha; exact Hy|].
  apply Qinv_le_0_compat. unfold Qle. simpl. lia.
Qed.

Section FisherFacts.
Context {T : Ppo.Torch} {V : Collector.VecEnv} {B : Buffer}.
Import Ppo.

Lemma accumulate_nonneg (grad : string -> tensor) (fi : Fisher) (np : string * tensor) :
  map_Forall (fun _ f => nonneg f) fi ->
  map_Forall (fun _ f => nonneg f) (accumulate grad fi np).
Proof.
  intros Hfi. unfold accumulate.
  destruct (fi !! np.1) as [f|] eqn:Hf.
  - apply map_Forall_insert_2; [|exact Hfi].
    apply tadd_nonneg; [exact (Hfi _ _ Hf)|apply tpow2_nonneg].
  - apply map_Forall_insert_2; [apply tpow2_nonneg|exact Hfi].
Qed.

Lemma accumulate_all_nonneg (grad : string -> tensor) (params : Params) :
  forall fi : Fisher,
    map_Forall (fun _ f => nonneg f) fi ->
    map_Forall (fun _ f => nonneg f) (foldl (accumulate grad) fi params).
Proof.
  induction params as [|np params IH]; intros fi Hfi; simpl; [exact Hfi|].
  apply IH, accumulate_nonneg, Hfi.
Qed.

Lemma compute_fisher_info_nonneg (data : Batch) (params : Params)
    (name : string) (f : tensor) :
  compute_fisher_info data params !! name = Some f -> nonneg f.
Proof.
  unfold compute_fisher_info. rewrite lookup_fmap.
  set (pairs := zip (b_obs data) (b_act data)).
  assert (forall fi : Fisher,
            map_Forall (fun _ f => nonneg f) fi ->
            map_Forall (fun _ f => nonneg f)
              (foldl (fun fi oa =>
                        foldl (accumulate (grad_log_prob params oa.1 oa.2)) fi params)
                     fi pairs)) as Hall.
  { induction pairs as [|oa pairs IH]; intros fi Hfi; simpl; [exact Hfi|].
    apply IH, accumulate_all_nonneg, Hfi. }
  specialize (Hall ∅ (map_Forall_empty _)).
  destruct (_ !! name) as [g|] eqn:Hg; simpl; [|discriminate].
  intros [= <-]. apply tdiv_nonneg. exact (Hall _ _ Hg).
Qed.

(** One pass over the parameters, for one stored pair. *)
Lemma accumulate_all_lookup (grad : string -> tensor) (params : Params) (name : string) :
  NoDup params.*1 ->
  forall fi : Fisher,
    foldl (accumulate grad) fi params !! name =
      if decide (name ∈ params.*1)
      then Some match fi !! name with
                | None => tpow2 (grad name)
                | Some f => tadd f (tpow2 (grad name))
                end
      else fi !! name.
Proof.
  induction params as [|np params IH]; intros Hnd fi.
  - destruct (decide (name ∈ ([] : Params).*1)) as [Hin|_]; [|reflexivity].
    apply elem_of_nil in Hin. contradiction.
  - rewrite fmap_cons in *. apply NoDup_cons in Hnd as [Hnotin Hnd].
    cbn [foldl]. rewrite (IH Hnd).
    destruct (decide (name = np.1)) as [->|Hne].
    + destruct (decide (np.1 ∈ params.*1)) as [?|_]; [contradiction|].
      destruct (decide (np.1 ∈ np.1 :: params.*1)) as [_|Hno].
      * unfold accumulate. destruct (fi !! np.1); apply lookup_insert_eq.
      * exfalso. apply Hno. left.
    + assert (accumulate grad fi np !! name = fi !! name) as Hacc.
      { unfold accumulate. destruct (fi !! np.1); apply lookup_insert_ne; congruence. }
      rewrite Hacc.
      destruct (decide (name ∈ params.*1)) as [Hin|Hout];
        destruct (decide (name ∈ np.1 :: params.*1)) as [Hin'|Hout'];
        try reflexivity.
      * exfalso. apply Hout'. right. exact Hin.
      * exfalso. apply elem_of_cons in Hin' as [Heq|Hin']; contradiction.
Qed.

(** All stored pairs. *)
Lemma accumulate_pairs_lookup (params : Params) (name : string)
    (pairs : list (tensor * tensor)) :
  NoDup params.*1 -> name ∈ params.*1 ->
  forall fi : Fisher,
    foldl (fun fi oa => foldl (accumulate (grad_log_prob params oa.1 oa.2)) fi params)
          fi pairs !! name
    = foldl (fun acc g => Some match acc with
                               | None => tpow2 g
                               | Some f => tadd f (tpow2 g)
                               end)
            (fi !! name)
            (map (fun oa => grad_log_prob params oa.1 oa.2 name) pairs).
Proof.
  intros Hnd Hin. induction pairs as [|oa pairs IH]; intros fi; simpl; [reflexivity|].
  rewrite IH, (accumulate_all_lookup _ _ _ Hnd), decide_True by exact Hin.
  reflexivity.
Qed.

(** The entry of a parameter is the sum of its squared gradients over
    the pairs, divided by the number of observations. *)
Lemma compute_fisher_info_lookup (data : Batch) (params : Params) (name : string) :
  NoDup params.*1 -> name ∈ params.*1 ->
  compute_fisher_info data params !! name =
    (fun f => tdiv f (inject_Z (Z.of_nat (length (b_obs data))))) <$>
      sum_squares (map (fun oa => grad_log_prob params oa.1 oa.2 name)
                       (zip (b_obs data) (b_act data))).
Proof.
  intros Hnd Hin. unfold compute_fisher_info, sum_squares.
  rewrite lookup_fmap, (accumulate_pairs_lookup _ _ _ Hnd Hin), lookup_empty.
  reflexivity.
Qed.

(** Observations and actions come in equal numbers, and the divisor is
    then the pair count. *)
Lemma compute_fisher_info_entry (data : Batch) (params : Params) (name : string) :
  NoDup params.*1 -> name ∈ params.*1 ->
  length (b_obs data) = length (b_act data) ->
  compute_fisher_info data params !! name = fisher_entry data params name.
Proof.
  intros Hnd Hin Hlen. rewrite (compute_fisher_info_lookup _ _ _ Hnd Hin).
  unfold fisher_entry. cbn zeta. rewrite length_zip_with_l_eq by exact Hlen.
  reflexivity.
Qed.

Lemma sum_squares_some (grads : list tensor) :
  grads <> [] -> is_Some (sum_squares grads).
Proof.
  unfold sum_squares. destruct grads as [|g grads]; [congruence|]. intros _. simpl.
  generalize (tpow2 g). induction grads as [|g' grads IH]; intros f; simpl.
  - eexists. reflexivity.
  - apply IH.
Qed.

(** A batch with no rows gives an empty record. *)
Lemma compute_fisher_info_empty (data : Batch) (params : Params) :
  b_obs data = [] -> compute_fisher_info data params = ∅.
Proof.
  intros Hobs. unfold compute_fisher_info. rewrite Hobs. simpl.
  apply fmap_empty.
Qed.
End FisherFacts.

(** C9.  Every tensor of a record returned by [compute_fisher_info] is
    elementwise non-negative: the entry of a parameter is the sum over the
    processed pairs of the elementwise squares of its gradient, divided by
    the pair count (the batch holding as many actions as observations).
    Storing the record of a task switch overwrites the
    slot of the task id, whatever it held, and touches no other slot, so a
    task id holds at most one record. *)
Theorem fisher_record_nonneg_and_replaced
    (T : Ppo.Torch) (V : Collector.VecEnv) (B : Buffer) :
  (forall (data : Batch) (params : Ppo.Params) (name : string) (f : tensor),
     Ppo.compute_fisher_info data params !! name = Some f -> nonneg f) /\
  (forall (data : Batch) (params : Ppo.Params) (name : string),
     NoDup params.*1 -> name ∈ params.*1 ->
     length (b_obs data) = length (b_act data) ->
     Ppo.compute_fisher_info data params !! name = Ppo.fisher_entry data params name) /\
  (forall (cfg : Ppo.Config) (st st' : Ppo.Trainer),
     Ppo.switch_due cfg st = true ->
     Ppo.regularizer_epoch_end cfg st = Some st' ->
     let record := Ppo.compute_fisher_info (get (Ppo.buffer st)).1
                     (Ppo.named_values (Ppo.heap st) (Ppo.actor st)) in
     exists k,
       Ppo.fisher_matrices st' !! k = Some (Some record) /\
       length (Ppo.fisher_matrices st') = length (Ppo.fisher_matrices st) /\
       forall j, j <> k ->
         Ppo.fisher_matrices st' !! j = Ppo.fisher_matrices st !! j).
Proof.
  split; [exact compute_fisher_info_nonneg|].
  split; [exact compute_fisher_info_entry|].
  intros cfg st st' Hd He record.
  destruct (switch_spec _ _ _ Hd He) as (num & k & k' & _ & Hk & _ & ->).
  exists k. simpl. split.
  - apply list_lookup_insert_eq. exact (py_index_lt _ _ _ Hk).
  - split; [apply length_insert|].
    intros j Hj. apply list_lookup_insert_ne. congruence.
Qed.

Lemma fisher_record_nonneg_and_replaced_witness :
  let cfg := Toy.config 2 2 in
  let data := mkBatch [[3%Q]; [1%Q]] [[0%Q]; [0%Q]] [] [] [] [] [] in
  let params : Ppo.Params := [("w"%string, [0%Q])] in
  let row := mkTransition [[3%Q]] [[0%Q]] [1%Q] [0%Q] [0%Q] [0%Q] [0%Q] in
  let st := Ppo.mkTrainer (T := Toy.torch) (V := Toy.vec_env) (B := Toy.rewind_buffer)
              [[2%Q]; [7%Q]] [("w"%string, O)] tt
              [Some {[ "w"%string := [100%Q] ]}] [Some {[ "w"%string := 1%nat ]}] 0 0
              (Toy.mkRewind (DrainBuffer.mkStorage [row] []) false) O [[5%Q]] in
  (exists f, Ppo.compute_fisher_info (T := Toy.torch) data params !! "w"%string = Some f /\
             nonneg f /\ Ppo.fisher_entry (T := Toy.torch) data params "w"%string = Some f) /\
  exists st' record,
    Ppo.regularizer_epoch_end cfg st = Some st' /\
    Ppo.fisher_matrices st' !! 0%nat = Some (Some record) /\
    record !! "w"%string = Some [(9 # 1) / 1]%Q.
Proof.
  intros cfg data params row st.
  destruct (fisher_record_nonneg_and_replaced Toy.torch Toy.vec_env Toy.rewind_buffer)
    as (Hnonneg & Hentry & Hreplaced).
  split.
  - eexists. split; [vm_compute; reflexivity|]. split.
    + eapply (Hnonneg data params "w"%string). vm_compute. reflexivity.
    + rewrite <- (Hentry data params "w"%string).
      * vm_compute. reflexivity.
      * apply NoDup_singleton.
      * apply list_elem_of_singleton. reflexivity.
      * reflexivity.
  - destruct (Ppo.regularizer_epoch_end cfg st) as [st'|] eqn:He;
      [|vm_compute in He; discriminate He].
    destruct (Hreplaced cfg st st' eq_refl He) as (k & Hk & Hlen & _).
    exists st'. eexists. split; [reflexivity|].
    destruct k as [|k].
    + split; [exact Hk|]. vm_compute. reflexivity.
    + exfalso. apply lookup_lt_Some in Hk. rewrite Hlen in Hk. simpl in Hk. lia.
Defined.

(** ** The penalty *)

Lemma penalty_term_zero (f v : tensor) :
  (tsum (tmul f (tpow2 (tsub v v))) == 0)%Q.
Proof.
  unfold tmul, tpow2, tsub. revert v.
  induction f as [|x f IH]; intros [|y v]; simpl; try reflexivity.
  rewrite IH. ring.
Qed.

Section PenaltyFacts.
Context {T : Ppo.Torch} {V : Collector.VecEnv} {B : Buffer}.
Import Ppo.

(** Slots without a record add nothing. *)
Lemma task_penalty_none (h : Heap) (a : list (string * loc))
    (fm : list (option Fisher)) :
  Forall (fun f => f = None) fm ->
  forall (op : list (option Anchor)) (acc : Q),
    fold_opt (task_penalty h a) acc (zip fm op) = Some acc.
Proof.
  induction 1 as [|f fm -> _ IH]; intros [|o op] acc; simpl; try reflexivity.
  apply IH.
Qed.

Lemma ewc_loss_no_record (st : Trainer) :
  Forall (fun f => f = None) (fisher_matrices st) -> ewc_loss st = Some 0%Q.
Proof. intros Hnone. apply task_penalty_none. exact Hnone. Qed.

(** With one record, the penalty is the sum over the parameters. *)
Lemma task_penalty_single (h : Heap) (a : list (string * loc)) (F : Fisher)
    (A : Anchor) (fm : list (option Fisher)) :
  Forall (fun f => f = None) fm ->
  forall (k : nat) (op : list (option Anchor)) (acc : Q),
    (k < length fm)%nat -> (k < length op)%nat ->
    fold_opt (task_penalty h a) acc (zip (<[k := Some F]> fm) (<[k := Some A]> op))
    = fold_opt (param_penalty h F (Some A)) acc a.
Proof.
  induction 1 as [|f fm -> Hnone IH]; intros k [|o op] acc Hk Hk';
    simpl in *; try lia.
  destruct k as [|k]; simpl.
  - change (task_penalty h a acc (Some F, Some A))
      with (fold_opt (param_penalty h F (Some A)) acc a).
    destruct (fold_opt (param_penalty h F (Some A)) acc a) as [q|]; simpl;
      [|reflexivity].
    exact (task_penalty_none h a fm Hnone op q).
  - exact (IH k op acc ltac:(lia) ltac:(lia)).
Qed.

(** Where every parameter equals its anchor the sum stays what it was. *)
Lemma param_penalty_at_anchor (h : Heap) (F : Fisher) (A : Anchor)
    (a : list (string * loc)) :
  (forall np, np ∈ a ->
     is_Some (F !! np.1) /\
     exists l', A !! np.1 = Some l' /\ h !!! l' = h !!! np.2) ->
  forall acc : Q,
    exists q, fold_opt (param_penalty h F (Some A)) acc a = Some q /\ (q == acc)%Q.
Proof.
  induction a as [|np a IH]; intros Hall acc.
  - exists acc. split; reflexivity.
  - destruct (Hall np ltac:(left)) as [[f Hf] (l' & Hl' & Hv)].
    assert (param_penalty h F (Some A) acc np
            = Some (acc + tsum (tmul f (tpow2 (tsub (h !!! np.2) (h !!! np.2)))))%Q)
      as Hstep.
    { unfold param_penalty. rewrite Hf. simpl. rewrite Hl'. simpl. rewrite Hv.
      reflexivity. }
    cbn [fold_opt]. rewrite Hstep. cbn [mbind option_bind].
    destruct (IH (fun np' Hin => Hall np' ltac:(right; exact Hin))
                 (acc + tsum (tmul f (tpow2 (tsub (h !!! np.2) (h !!! np.2)))))%Q)
      as (q & Hq & Heq).
    exists q. split; [exact Hq|].
    rewrite Heq, penalty_term_zero. ring.
Qed.

(** The penalty reads the heap, the parameters and the two lists only. *)
Lemma ewc_loss_ext (st st' : Trainer) :
  heap st' = heap st -> actor st' = actor st ->
  fisher_matrices st' = fisher_matrices st ->
  old_params_list st' = old_params_list st ->
  ewc_loss st' = ewc_loss st.
Proof. unfold ewc_loss. intros -> -> -> ->. reflexivity. Qed.

Lemma gradient_step_penalty (cfg : Config) (st st' : Trainer) (mb : Minibatch)
    (total la le : Q) :
  gradient_step cfg st mb = Some (st', GradientStep total la le) ->
  exists ewc, ewc_loss st = Some ewc /\ le = (ewc * lambda_ewc cfg)%Q /\
    total = total_loss cfg la (critic_losses (critics st) mb).1
                       (critic_losses (critics st) mb).2 ewc.
Proof.
  unfold gradient_step.
  destruct (critic_losses (critics st) mb) as [loss_r loss_c].
  destruct (ewc_loss st) as [ewc|]; simpl; [|discriminate].
  destruct (optimizer_step _ _ _ _ _ _) as [vals critics'].
  intros [= _ <- <- <-]. exists ewc. auto.
Qed.

Lemma named_values_names (h : Heap) (a : list (string * loc)) :
  (named_values h a).*1 = a.*1.
Proof.
  unfold named_values. induction a as [|np a IH]; simpl; [reflexivity|].
  f_equal. exact IH.
Qed.

(** The penalty right after the first snapshot. *)
Lemma first_snapshot_penalty (cfg : Config) (st st' : Trainer) :
  wf st ->
  Forall (fun f => f = None) (fisher_matrices st) ->
  switch_due cfg st = true ->
  regularizer_epoch_end cfg st = Some st' ->
  zip (b_obs (get (buffer st)).1) (b_act (get (buffer st)).1) <> [] ->
  exists q, ewc_loss st' = Some q /\ (q == 0)%Q.
Proof.
  intros Hwf Hnone Hd He Hrows.
  destruct (switch_spec _ _ _ Hd He) as (num & k & k' & _ & Hk & Hk' & ->).
  assert (k' = k) as -> by (rewrite <- (wf_lists _ Hwf), Hk in Hk'; congruence).
  pose proof (py_index_lt _ _ _ Hk) as Hlt.
  unfold ewc_loss. simpl.
  rewrite (task_penalty_single _ _ _ _ _ Hnone k _ 0%Q Hlt)
    by (rewrite <- (wf_lists _ Hwf); exact Hlt).
  apply param_penalty_at_anchor. intros [name l] Hin. simpl. split.
  - rewrite compute_fisher_info_lookup.
    + apply fmap_is_Some, sum_squares_some.
      intros Hnil. apply map_eq_nil in Hnil. exact (Hrows Hnil).
    + rewrite named_values_names. exact (wf_names _ Hwf).
    + rewrite named_values_names. apply list_elem_of_fmap.
      exists (name, l). split; [reflexivity|exact Hin].
  - destruct (snapshot_values _ _ _ _ (wf_names _ Hwf) (wf_live _ Hwf) Hin)
      as (l' & Hl' & Hv & Hv').
    exists l'. split; [exact Hl'|].
    rewrite !list_lookup_total_alt, Hv, Hv'. reflexivity.
Qed.
End PenaltyFacts.

(** C3 (amended).  The EWC penalty is exactly 0 at every gradient step
    taken while no Fisher record is stored; and at the first gradient step
    after the first snapshot it is 0 as well, whatever the recorded
    gradients were, because the live parameters still equal the anchor:
    it can be positive only once an optimizer step has moved them. *)
Theorem ewc_penalty_zero_at_anchor
    (T : Ppo.Torch) (V : Collector.VecEnv) (B : Buffer)
    (cfg : Ppo.Config) (st : Ppo.Trainer) :
  Ppo.wf st ->
  Forall (fun f => f = None) (Ppo.fisher_matrices st) ->
  Ppo.ewc_loss st = Some 0%Q /\
  (forall mb st1 total loss_actor loss_ewc,
     Ppo.gradient_step cfg st mb
       = Some (st1, Ppo.GradientStep total loss_actor loss_ewc) ->
     (loss_ewc == 0)%Q /\
     Forall (fun f => f = None) (Ppo.fisher_matrices st1) /\ Ppo.wf st1) /\
  (forall st',
     Ppo.switch_due cfg st = true ->
     Ppo.regularizer_epoch_end cfg st = Some st' ->
     zip (b_obs (get (Ppo.buffer st)).1) (b_act (get (Ppo.buffer st)).1) <> [] ->
     exists q,
       Ppo.ewc_loss st' = Some q /\ (q == 0)%Q /\
       forall st2 mb st3 total loss_actor loss_ewc,
         Ppo.heap st2 = Ppo.heap st' -> Ppo.actor st2 = Ppo.actor st' ->
         Ppo.fisher_matrices st2 = Ppo.fisher_matrices st' ->
         Ppo.old_params_list st2 = Ppo.old_params_list st' ->
         Ppo.gradient_step cfg st2 mb
           = Some (st3, Ppo.GradientStep total loss_actor loss_ewc) ->
         (loss_ewc == 0)%Q).
Proof.
  intros Hwf Hnone.
  pose proof (ewc_loss_no_record st Hnone) as Hzero.
  split; [exact Hzero|]. split.
  - intros mb st1 total la le Hg.
    destruct (gradient_step_penalty _ _ _ _ _ _ _ Hg) as (ewc & Hewc & -> & _).
    rewrite Hzero in Hewc. injection Hewc as <-.
    destruct (gradient_step_fields _ _ _ _ _ Hg) as (_ & Ha & Hfm & Hop & _).
    split; [ring|]. split; [rewrite Hfm; exact Hnone|].
    apply (wf_inplace _ _ Hwf Ha Hfm Hop).
    exact (proj2 (gradient_step_frame _ _ _ _ _ Hg)).
  - intros st' Hd He Hrows.
    destruct (first_snapshot_penalty cfg st st' Hwf Hnone Hd He Hrows) as (q & Hq & Hq0).
    exists q. split; [exact Hq|]. split; [exact Hq0|].
    intros st2 mb st3 total la le Hh Ha Hfm Hop Hg.
    destruct (gradient_step_penalty _ _ _ _ _ _ _ Hg) as (ewc & Hewc & -> & _).
    rewrite (ewc_loss_ext _ _ Hh Ha Hfm Hop), Hq in Hewc. injection Hewc as <-.
    rewrite Hq0. ring.
Qed.

Lemma ewc_penalty_zero_at_anchor_witness :
  let cfg := Toy.config 2 2 in
  let row := mkTransition [[3%Q]] [[0%Q]] [1%Q] [0%Q] [0%Q] [0%Q] [0%Q] in
  let st := Toy.trainer Toy.rewind_buffer cfg
              (Toy.mkRewind (DrainBuffer.mkStorage [row] []) false) in
  Ppo.ewc_loss st = Some 0%Q /\
  exists st' q,
    Ppo.regularizer_epoch_end cfg st = Some st' /\
    Ppo.ewc_loss st' = Some q /\ (q == 0)%Q.
Proof.
  intros cfg row st.
  destruct (ewc_penalty_zero_at_anchor Toy.torch Toy.vec_env Toy.rewind_buffer cfg st
              (toy_trainer_wf _ _ _)
              ltac:(repeat constructor)) as (Hzero & _ & Hfirst).
  split; [exact Hzero|].
  destruct (Ppo.regularizer_epoch_end cfg st) as [st'|] eqn:He;
    [|vm_compute in He; discriminate He].
  destruct (Hfirst st' eq_refl eq_refl ltac:(discriminate)) as (q & Hq & Hq0 & _).
  exists st', q. split; [reflexivity|]. split; assumption.
Defined.

(** C3, as stated, fails.  The first epoch ends in the first snapshot,
    whose record comes from nonzero gradients; the first gradient step of
    the next epoch logs a penalty that is not positive. *)
Lemma ewc_penalty_not_positive_after_snapshot :
  let cfg := Toy.config 2 2 in
  let st := Toy.trainer Toy.rewind_buffer cfg (Toy.mkRewind DrainBuffer.cleared false) in
  exists st' (record : Ppo.Fisher) st1 data u total loss_actor loss_ewc rest,
    Forall (fun f => f = None) (Ppo.fisher_matrices st) /\
    Ppo.epoch cfg 0 st = Some (st', true) /\
    Ppo.fisher_matrices st' !! 0%nat = Some (Some record) /\
    record !! "w"%string = Some [26 # 2]%Q /\
    Ppo.collect cfg 1 st' = Some st1 /\
    Ppo.update cfg 1 st1 = Some (data, u) /\
    Ppo.u_log u = Ppo.GradientStep total loss_actor loss_ewc :: rest /\
    ~ (0 < loss_ewc)%Q.
Proof.
  do 9 eexists. split; [repeat constructor|].
  split; [vm_compute; reflexivity|]. split; [reflexivity|].
  split; [vm_compute; reflexivity|]. split; [vm_compute; reflexivity|].
  split; [vm_compute; reflexivity|]. split; [reflexivity|].
  vm_compute. discriminate.
Qed.

(** In the same run the penalty is positive one gradient step later, when
    the optimizer has moved the parameter off its anchor. *)
Example ewc_penalty_positive_once_moved :
  let cfg := Toy.config 2 2 in
  let st := Toy.trainer Toy.rewind_buffer cfg (Toy.mkRewind DrainBuffer.cleared false) in
  exists st' st1 data u e1 kl1 total loss_actor loss_ewc rest,
    Ppo.epoch cfg 0 st = Some (st', true) /\
    Ppo.collect cfg 1 st' = Some st1 /\
    Ppo.update cfg 1 st1 = Some (data, u) /\
    Ppo.u_log u
      = e1 :: Ppo.KLCheck kl1 :: Ppo.GradientStep total loss_actor loss_ewc :: rest /\
    (0 < loss_ewc)%Q.
Proof.
  do 10 eexists. split; [vm_compute; reflexivity|].
  split; [vm_compute; reflexivity|]. split; [vm_compute; reflexivity|].
  split; reflexivity.
Qed.

(** ** The regularizer's clock *)

Lemma ceil_div_bounds (S T : Z) :
  0 < S -> 0 < T ->
  let c := (T + S - 1) / S in
  1 <= c /\ (c - 1) * S < T <= c * S.
Proof.
  intros HS HT c.
  pose proof (Z.div_mod (T + S - 1) S ltac:(lia)) as Hdm.
  pose proof (Z.mod_pos_bound (T + S - 1) S HS) as Hb.
  fold c in Hdm. nia.
Qed.

(** The counter reaches the threshold exactly in the last of every
    [c] epochs. *)
Lemma switch_every_c (S T r : Z) :
  0 < S -> 0 < T ->
  let c := (T + S - 1) / S in
  0 <= r < c ->
  (r * S + S >= T <-> r + 1 = c).
Proof.
  intros HS HT c Hr. destruct (ceil_div_bounds S T HS HT) as [Hc Hb].
  fold c in Hc, Hb. split; intros Hge; nia.
Qed.

Lemma next_epoch_div_mod (m c : Z) :
  0 <= m -> 1 <= c ->
  (m `mod` c + 1 = c ->
     (m + 1) `mod` c = 0 /\ (m + 1) / c = m / c + 1) /\
  (m `mod` c + 1 <> c ->
     (m + 1) `mod` c = m `mod` c + 1 /\ (m + 1) / c = m / c).
Proof.
  intros Hm Hc.
  pose proof (Z.div_mod m c ltac:(lia)) as Hdm.
  pose proof (Z.mod_pos_bound m c ltac:(lia)) as Hb.
  split; intros Hr.
  - assert (m + 1 = c * (m / c + 1) + 0) as Heq by nia.
    split; [symmetry; eapply Z.mod_unique; [|exact Heq]; lia|].
    symmetry. eapply Z.div_unique; [|exact Heq]. lia.
  - assert (m + 1 = c * (m / c) + (m `mod` c + 1)) as Heq by nia.
    split; [symmetry; eapply Z.mod_unique; [|exact Heq]; lia|].
    symmetry. eapply Z.div_unique; [|exact Heq]. lia.
Qed.

Section ClockFacts.
Context {T : Ppo.Torch} {V : Collector.VecEnv} {B : Buffer}.
Import Ppo.

(** One epoch moves the clock by the rule of the source, whatever else
    it does. *)
Lemma epoch_clock (cfg : Config) (n : nat) (st st' : Trainer) (b : bool) :
  epoch cfg n st = Some (st', b) ->
  b = bool_decide (steps_since_change st + steps_per_epoch cfg >= steps_per_task cfg) /\
  steps_since_change st' =
    (if b then 0 else steps_since_change st + steps_per_epoch cfg) /\
  current_task_index st' =
    (if b then (current_task_index st + 1) `mod` Z.of_nat (num_tasks cfg)
     else current_task_index st).
Proof.
  unfold epoch.
  destruct (collect cfg n st) as [st1|] eqn:Hc; simpl; [|discriminate].
  destruct (update cfg n st1) as [[data u]|] eqn:Hu; simpl; [|discriminate].
  destruct (regularizer_epoch_end cfg (schedule (u_trainer u))) as [st3|] eqn:He;
    simpl; [|discriminate].
  intros [= <- <-].
  destruct (collect_fields _ _ _ _ Hc) as (_ & _ & _ & _ & _ & Hi1 & Hs1).
  destruct (update_fields _ _ _ _ _ Hu) as (_ & _ & _ & _ & _ & Hi2 & Hs2 & _).
  unfold switch_due in *. cbn [schedule steps_since_change]. rewrite Hs2, Hs1.
  split; [reflexivity|].
  destruct (bool_decide _) eqn:Hd.
  - assert (switch_due cfg (schedule (u_trainer u)) = true) as Hd'
      by (unfold switch_due; cbn [schedule steps_since_change];
          rewrite Hs2, Hs1; exact Hd).
    destruct (switch_spec _ _ _ Hd' He) as (num & k & k' & _ & _ & _ & ->).
    simpl. rewrite Hi2, Hi1. split; reflexivity.
  - assert (switch_due cfg (schedule (u_trainer u)) = false) as Hd'
      by (unfold switch_due; cbn [schedule steps_since_change];
          rewrite Hs2, Hs1; exact Hd).
    rewrite (no_switch_spec _ _ _ Hd' He). simpl.
    rewrite Hi2, Hi1, Hs2, Hs1. split; reflexivity.
Qed.

Lemma training_loop_clock (cfg : Config) (todo : nat) :
  0 < steps_per_epoch cfg -> 0 < steps_per_task cfg ->
  let c := epochs_per_switch cfg in
  forall (n : nat) (st st' : Trainer) (adv adv' : nat) (m : Z),
    0 <= m ->
    steps_since_change st = m `mod` c * steps_per_epoch cfg ->
    Z.of_nat adv = m / c ->
    current_task_index st = (m / c) `mod` Z.of_nat (num_tasks cfg) ->
    training_loop cfg todo n st adv = Some (st', adv') ->
    steps_since_change st' = (m + Z.of_nat todo) `mod` c * steps_per_epoch cfg /\
    Z.of_nat adv' = (m + Z.of_nat todo) / c /\
    current_task_index st' =
      ((m + Z.of_nat todo) / c) `mod` Z.of_nat (num_tasks cfg).
Proof.
  intros HS HT c.
  destruct (ceil_div_bounds _ _ HS HT) as [Hc _]. fold (epochs_per_switch cfg) in Hc.
  fold c in Hc.
  induction todo as [|todo IH]; intros n st st' adv adv' m Hm Hs Ha Hi; simpl.
  - intros [= <- <-]. rewrite Z.add_0_r. auto.
  - destruct (epoch cfg n st) as [[st1 b]|] eqn:He; simpl; [|discriminate].
    intros Hloop.
    destruct (epoch_clock _ _ _ _ _ He) as (Hb & Hs1 & Hi1).
    pose proof (Z.mod_pos_bound m c ltac:(lia)) as Hr.
    pose proof (switch_every_c _ _ (m `mod` c) HS HT Hr) as Hsw.
    fold (epochs_per_switch cfg) in Hsw. fold c in Hsw.
    destruct (next_epoch_div_mod m c Hm Hc) as [Hlast Hnot].
    replace (m + Z.of_nat (S todo)) with ((m + 1) + Z.of_nat todo) by lia.
    rewrite Hs in Hb.
    destruct b.
    + symmetry in Hb. apply bool_decide_eq_true in Hb.
      destruct (Hlast (proj1 Hsw Hb)) as [Hmod Hdiv].
      apply (IH (S n) st1 st' (S adv) adv' (m + 1)).
      * lia.
      * rewrite Hs1, Hmod. lia.
      * rewrite Hdiv. lia.
      * rewrite Hi1, Hi, Hdiv. apply Zplus_mod_idemp_l.
      * exact Hloop.
    + symmetry in Hb. apply bool_decide_eq_false in Hb.
      assert (m `mod` c + 1 <> c) as Hne by (intros Heq; apply Hb, Hsw, Heq).
      destruct (Hnot Hne) as [Hmod Hdiv].
      apply (IH (S n) st1 st' adv adv' (m + 1)).
      * lia.
      * rewrite Hs1, Hs, Hmod. lia.
      * rewrite Hdiv. lia.
      * rewrite Hi1, Hi, Hdiv. reflexivity.
      * exact Hloop.
Qed.
End ClockFacts.

(** C2 (amended).  With positive [steps_per_epoch = S] and
    [steps_per_task = T], after [N] completed epochs the task index has
    advanced exactly [floor(N / ceil(T / S))] times: the counter is reset
    to 0 at a switch, so what it held beyond [T] is dropped.  This
    is [floor(N * S / T)] when [S] divides [T]. *)
Theorem task_index_advances
    (T : Ppo.Torch) (V : Collector.VecEnv) (B : Buffer)
    (cfg : Ppo.Config) (N : nat) (st st' : Ppo.Trainer) (advances : nat) :
  0 < Ppo.steps_per_epoch cfg ->
  0 < Ppo.steps_per_task cfg ->
  Ppo.current_task_index st = 0 ->
  Ppo.steps_since_change st = 0 ->
  Ppo.training_loop cfg N 0 st 0 = Some (st', advances) ->
  let c := (Ppo.steps_per_task cfg + Ppo.steps_per_epoch cfg - 1)
           / Ppo.steps_per_epoch cfg in
  Z.of_nat advances = Z.of_nat N / c /\
  Ppo.current_task_index st' = (Z.of_nat N / c) `mod` Z.of_nat (Ppo.num_tasks cfg) /\
  Ppo.steps_since_change st' = Z.of_nat N `mod` c * Ppo.steps_per_epoch cfg /\
  ((Ppo.steps_per_epoch cfg | Ppo.steps_per_task cfg) ->
   Z.of_nat advances = Z.of_nat N * Ppo.steps_per_epoch cfg / Ppo.steps_per_task cfg).
Proof.
  intros HS HT Hi Hs Hloop c.
  pose proof (ceil_div_bounds _ _ HS HT) as [Hc _]. fold c in Hc.
  assert (Ppo.steps_since_change st
          = 0 `mod` Ppo.epochs_per_switch cfg * Ppo.steps_per_epoch cfg) as Hs0
    by (rewrite Hs, Z.mod_0_l; [reflexivity|unfold Ppo.epochs_per_switch; lia]).
  assert (Z.of_nat 0 = 0 / Ppo.epochs_per_switch cfg) as Ha0
    by (rewrite Z.div_0_l; [reflexivity|unfold Ppo.epochs_per_switch; lia]).
  assert (Ppo.current_task_index st
          = (0 / Ppo.epochs_per_switch cfg) `mod` Z.of_nat (Ppo.num_tasks cfg)) as Hi0.
  { rewrite Hi, Z.div_0_l by (unfold Ppo.epochs_per_switch; lia).
    symmetry. apply Zmod_0_l. }
  destruct (training_loop_clock cfg N HS HT 0 st st' 0 advances 0
              ltac:(lia) Hs0 Ha0 Hi0 Hloop) as (Hs' & Ha' & Hi').
  rewrite Z.add_0_l in *. unfold Ppo.epochs_per_switch in *. fold c in Hs', Ha', Hi'.
  split; [exact Ha'|]. split; [exact Hi'|]. split; [exact Hs'|].
  intros [d Hd]. rewrite Ha'.
  assert (c = d) as ->.
  { unfold c. rewrite Hd.
    replace (d * Ppo.steps_per_epoch cfg + Ppo.steps_per_epoch cfg - 1)
      with (Ppo.steps_per_epoch cfg - 1 + d * Ppo.steps_per_epoch cfg) by lia.
    rewrite Z.div_add by lia. rewrite Z.div_small by lia. lia. }
  rewrite Hd. symmetry. apply Z.div_mul_cancel_r; nia.
Qed.

Lemma task_index_advances_witness :
  let cfg := Toy.config 2 3 in
  let st := Toy.trainer Toy.rewind_buffer cfg (Toy.mkRewind DrainBuffer.cleared false) in
  exists st' advances,
    Ppo.training_loop cfg 3 0 st 0 = Some (st', advances) /\
    Z.of_nat advances = 3 / 2 /\
    Ppo.steps_since_change st' = 2.
Proof.
  intros cfg st.
  destruct (Ppo.training_loop cfg 3 0 st 0) as [[st' advances]|] eqn:Hloop;
    [|vm_compute in Hloop; discriminate Hloop].
  destruct (task_index_advances Toy.torch Toy.vec_env Toy.rewind_buffer cfg 3 st st'
              advances ltac:(simpl; lia) ltac:(simpl; lia) eq_refl eq_refl Hloop)
    as (Ha & _ & Hs & _).
  exists st', advances. split; [reflexivity|]. split; [exact Ha|exact Hs].
Defined.

(** C2, as stated, fails: with [S = 2] and [T = 3] the index has advanced
    once after three epochs, and [floor(3 * 2 / 3) = 2]. *)
Lemma task_index_advances_less :
  let cfg := Toy.config 2 3 in
  let st := Toy.trainer Toy.rewind_buffer cfg (Toy.mkRewind DrainBuffer.cleared false) in
  exists st',
    Ppo.training_loop cfg 3 0 st 0 = Some (st', 1%nat) /\
    Z.of_nat 1 <> 3 * Ppo.steps_per_epoch cfg / Ppo.steps_per_task cfg.
Proof. eexists. split; [vm_compute; reflexivity|]. vm_compute. discriminate. Qed.

(** ** Which batch the Fisher estimate is computed from *)

(** The estimate reads the observations and the actions of a batch only. *)
Lemma compute_fisher_info_rows (T : Ppo.Torch) (data data' : Batch) (params : Ppo.Params) :
  b_obs data' = b_obs data -> b_act data' = b_act data ->
  Ppo.compute_fisher_info data' params = Ppo.compute_fisher_info data params.
Proof. unfold Ppo.compute_fisher_info. intros -> ->. reflexivity. Qed.

(** Whatever the buffer: the update works on the batch of the first drain
    of the epoch, and the record stored at a switch is computed, at the
    parameters the update has left, from the batch of a second drain,
    made on the buffer as the first drain has left it. *)
Lemma fisher_record_second_drain (T : Ppo.Torch) (V : Collector.VecEnv) (B : Buffer)
    (cfg : Ppo.Config) (n : nat) (st : Ppo.Trainer)
    (data : Batch) (u : Ppo.Update) (st' : Ppo.Trainer) :
  Ppo.update cfg n st = Some (data, u) ->
  Ppo.switch_due cfg (Ppo.schedule (Ppo.u_trainer u)) = true ->
  Ppo.regularizer_epoch_end cfg (Ppo.schedule (Ppo.u_trainer u)) = Some st' ->
  data = (get (Ppo.buffer st)).1 /\
  Ppo.buffer st' = (get (get (Ppo.buffer st)).2).2 /\
  exists current_task_num k,
    py_getitem (Ppo.tasks cfg) (Ppo.current_task_index st) = Some current_task_num /\
    py_index (length (Ppo.fisher_matrices st)) current_task_num = Some k /\
    Ppo.fisher_matrices st' !! k =
      Some (Some (Ppo.compute_fisher_info (get (get (Ppo.buffer st)).2).1
                    (Ppo.named_values (Ppo.heap (Ppo.u_trainer u))
                                      (Ppo.actor (Ppo.u_trainer u))))).
Proof.
  intros Hu Hd He.
  destruct (update_fields _ _ _ _ _ Hu) as (Hdata & Hbuf & _ & Hfm & _ & Hi & _).
  split; [exact Hdata|].
  destruct (switch_spec _ _ _ Hd He) as (num & k & k' & Hnum & Hk & _ & ->).
  cbn [Ppo.schedule Ppo.current_task_index Ppo.fisher_matrices Ppo.buffer
       Ppo.heap Ppo.actor] in *.
  split; [rewrite Hbuf; reflexivity|].
  exists num, k. rewrite Hi in Hnum. rewrite Hfm in Hk.
  split; [exact Hnum|]. split; [exact Hk|].
  rewrite Hbuf, Hfm. apply list_lookup_insert_eq. exact (py_index_lt _ _ _ Hk).
Qed.

(** C1.  When an epoch ends in a task switch (the switch counter has
    reached [steps_per_task]), the Fisher record stored for the current
    task id is the estimate computed from the batch that the PPO update of
    this epoch has drained from the buffer: the rows collected in this
    epoch.  The drain has reset the buffer for the next epoch all the
    same: the rows are marked as drained, and the first [store] that
    follows starts from empty storage. *)
Theorem fisher_from_update_batch (T : Ppo.Torch) (V : Collector.VecEnv)
    (gae : DrainBuffer.Storage -> tensor * tensor * tensor * tensor)
    (cfg : Ppo.Config) (n : nat)
    (st st' : Ppo.Trainer (B := DrainBuffer.buffer gae)) :
  Ppo.epoch cfg n st = Some (st', true) ->
  exists (st1 : Ppo.Trainer (B := DrainBuffer.buffer gae))
         (data : Batch) (u : Ppo.Update) (current_task_num : Z) (k : nat),
    Ppo.collect cfg n st = Some st1 /\
    Ppo.update cfg n st1 = Some (data, u) /\
    data = DrainBuffer.drain gae (DrainBuffer.rows (Ppo.buffer st1)) /\
    py_getitem (Ppo.tasks cfg) (Ppo.current_task_index st) = Some current_task_num /\
    py_index (length (Ppo.fisher_matrices st)) current_task_num = Some k /\
    Ppo.fisher_matrices st' !! k =
      Some (Some (Ppo.compute_fisher_info data
                    (Ppo.named_values (Ppo.heap (Ppo.u_trainer u))
                                      (Ppo.actor (Ppo.u_trainer u))))) /\
    DrainBuffer.drained (Ppo.buffer st') = true /\
    forall t : Transition,
      store (Ppo.buffer st') t
        = DrainBuffer.mkState (DrainBuffer.mkStorage [t] []) false.
Proof.
  unfold Ppo.epoch. intros He.
  destruct (Ppo.collect cfg n st) as [st1|] eqn:Hc; simpl in He; [|discriminate].
  destruct (Ppo.update cfg n st1) as [[data u]|] eqn:Hu; simpl in He; [|discriminate].
  destruct (Ppo.regularizer_epoch_end cfg (Ppo.schedule (Ppo.u_trainer u)))
    as [st3|] eqn:Hr; simpl in He; [|discriminate].
  injection He as -> Hd.
  destruct (fisher_record_second_drain _ _ _ _ _ _ _ _ _ Hu Hd Hr)
    as (Hdata & Hbuf & num & k & Hnum & Hk & Hf).
  destruct (collect_fields _ _ _ _ Hc) as (_ & _ & _ & Hfm & _ & Hi & _).
  rewrite Hi in Hnum. rewrite Hfm in Hk.
  exists st1, data, u, num, k.
  split; [reflexivity|]. split; [exact Hu|].
  split; [exact Hdata|]. split; [exact Hnum|]. split; [exact Hk|].
  split; [rewrite Hf, Hdata; reflexivity|].
  rewrite Hbuf. split; [reflexivity|]. intros t. reflexivity.
Qed.

Lemma fisher_from_update_batch_witness :
  let cfg := Toy.config 2 2 in
  let B := DrainBuffer.buffer Toy.gae in
  let st := Toy.trainer B cfg (DrainBuffer.mkState DrainBuffer.cleared false) in
  exists (st' : Ppo.Trainer (T := Toy.torch) (V := Toy.vec_env) (B := B))
         (data : Batch)
         (u : Ppo.Update (T := Toy.torch) (V := Toy.vec_env) (B := B)),
    Ppo.epoch cfg 0 st = Some (st', true) /\
    length (b_obs data) = 2%nat /\
    Ppo.compute_fisher_info (T := Toy.torch) data
      (Ppo.named_values (Ppo.heap (Ppo.u_trainer u)) (Ppo.actor (Ppo.u_trainer u)))
      !! "w"%string = Some [(26 # 2)%Q] /\
    Ppo.fisher_matrices st' !! 0%nat =
      Some (Some (Ppo.compute_fisher_info (T := Toy.torch) data
                    (Ppo.named_values (Ppo.heap (Ppo.u_trainer u))
                                      (Ppo.actor (Ppo.u_trainer u))))).
Proof.
  intros cfg B st.
  destruct (Ppo.epoch cfg 0 st) as [[st' [|]]|] eqn:He;
    [|vm_compute in He; discriminate He|vm_compute in He; discriminate He].
  destruct (fisher_from_update_batch Toy.torch Toy.vec_env Toy.gae cfg 0%nat st st' He)
    as (st1 & data & u & num & k & Hc & Hu & Hdata & Hnum & Hk & Hf & _).
  exists st', data, u. split; [reflexivity|].
  assert (k = 0%nat) as -> by (vm_compute in Hnum; injection Hnum as <-;
                               vm_compute in Hk; congruence).
  pose proof Hc as Hc'. vm_compute in Hc'. injection Hc' as <-.
  pose proof Hu as Hu'. vm_compute in Hu'. injection Hu' as <- <-.
  split; [reflexivity|]. split; [vm_compute; reflexivity|]. exact Hf.
Defined.

(** ** The two clocks *)

(** C7.  Every call of [step] adds one to the environment's counter.  When
    the counter is strictly above the task length [L = TASK_LENGTH] at the
    call, the counter is first reset to 0, the variant index moves to the
    next position of the cycle (modulo its length 5), the body masses
    become the nominal masses times the multiplier of the new variant, and
    the environment is reset; otherwise index, masses and simulator go on
    unchanged.  The regularizer's counter plays no part: [step] is a
    function of the environment's own state and the action, collecting a
    rollout (the only phase in which environments are stepped) leaves the
    regularizer's counter and task index as they are, and the end of an
    epoch (the only place where those change) leaves the environments as
    they are. *)
Theorem task_cycle_step (Ph : Cheetah.Physics) (e : Cheetah.Env) (a : Cheetah.Action) :
  let d := Cheetah.do_simulation (Cheetah.body_mass e) (Cheetah.data e) a in
  (exists e' r,
     Cheetah.step e a = Some (e', r) /\
     if decide (Cheetah.TASK_LENGTH < Cheetah.steps_since_change e) then
       exists name m,
         Cheetah.current_task e' = (Cheetah.current_task e + 1) `mod` 5 /\
         py_getitem Cheetah.TASK_CYCLE (Cheetah.current_task e') = Some name /\
         Cheetah.MULTIPLIERS !! name = Some m /\
         Cheetah.current_task_name e' = name /\
         Cheetah.body_mass e' = tscale m Cheetah.NOMINAL_MASSES /\
         Cheetah.data e' = Cheetah.reset (Cheetah.body_mass e') d /\
         Cheetah.steps_since_change e' = 0 + 1
     else
       Cheetah.current_task e' = Cheetah.current_task e /\
       Cheetah.current_task_name e' = Cheetah.current_task_name e /\
       Cheetah.body_mass e' = Cheetah.body_mass e /\
       Cheetah.data e' = d /\
       Cheetah.steps_since_change e' = Cheetah.steps_since_change e + 1) /\
  (forall (T : Ppo.Torch) (V : Collector.VecEnv) (B : Buffer)
          (cfg : Ppo.Config) (n : nat) (st : Ppo.Trainer),
     match Ppo.collect cfg n st with
     | Some st' => Ppo.steps_since_change st' = Ppo.steps_since_change st /\
                   Ppo.current_task_index st' = Ppo.current_task_index st
     | None => True
     end /\
     match Ppo.regularizer_epoch_end cfg st with
     | Some st' => Ppo.env st' = Ppo.env st
     | None => True
     end).
Proof.
  intros d. split.
  - destruct (step_spec e a) as (e1 & Hcheck & Hstep). fold d in Hcheck, Hstep.
    eexists. eexists. split; [exact Hstep|]. simpl.
    destruct (check_task_spec
                (Cheetah.mkEnv (Cheetah.current_task e) (Cheetah.steps_since_change e)
                   (Cheetah.current_task_name e) (Cheetah.velocity_threshold e)
                   (Cheetah.body_mass e) d)) as (e1' & Hcheck' & Hcase).
    rewrite Hcheck in Hcheck'. injection Hcheck' as <-. simpl in Hcase.
    destruct (decide (Cheetah.TASK_LENGTH < Cheetah.steps_since_change e)).
    + destruct Hcase as (name & m & Hname & Hm & ->). simpl.
      exists name, m. repeat split; try assumption; reflexivity.
    + subst e1. simpl. repeat split; reflexivity.
  - intros T V B cfg n st. split.
    + destruct (Ppo.collect cfg n st) as [st'|] eqn:Hc; [|exact I].
      destruct (collect_fields _ _ _ _ Hc) as (_ & _ & _ & _ & _ & Hi & Hs).
      split; assumption.
    + destruct (Ppo.regularizer_epoch_end cfg st) as [st'|] eqn:He; [|exact I].
      destruct (Ppo.switch_due cfg st) eqn:Hd.
      * destruct (switch_spec _ _ _ Hd He) as (num & k & k' & _ & _ & _ & ->).
        reflexivity.
      * rewrite (no_switch_spec _ _ _ Hd He). reflexivity.
Qed.

(** The cycle in action: a step taken with the counter above the task
    length moves from the last variant to the first. *)
Example task_cycle_wraps :
  let e := Cheetah.mkEnv (Ph := Toy.physics) 4 100001 "twenty" (32096 # 10000)%Q
                         (tscale (20 / 14)%Q Cheetah.NOMINAL_MASSES) 7%Q in
  exists e' r,
    Cheetah.step e 1%Q = Some (e', r) /\
    Cheetah.current_task e' = 0 /\
    Cheetah.current_task_name e' = "nominal"%string /\
    Cheetah.steps_since_change e' = 1 /\
    Cheetah.body_mass e' = tscale 1%Q Cheetah.NOMINAL_MASSES /\
    Cheetah.cost r = 0%Q.
Proof. do 2 eexists. split; [vm_compute; reflexivity|]. repeat split. Qed.

(** At the task length itself nothing changes yet: the comparison is
    strict. *)
Example task_cycle_strict :
  let e := Cheetah.mkEnv (Ph := Toy.physics) 4 100000 "twenty" (32096 # 10000)%Q
                         (tscale (20 / 14)%Q Cheetah.NOMINAL_MASSES) 7%Q in
  exists e' r,
    Cheetah.step e 4%Q = Some (e', r) /\
    Cheetah.current_task e' = 4 /\
    Cheetah.steps_since_change e' = 100001 /\
    Cheetah.cost r = 1%Q.
Proof. do 2 eexists. split; [vm_compute; reflexivity|]. repeat split. Qed.

(** * Further properties *)

(** ** The environment over many steps *)

Section CheetahRunFacts.
Context {Ph : Cheetah.Physics}.
Import Cheetah CheetahRun.

Lemma TASK_LENGTH_value : TASK_LENGTH = 100000.
Proof. reflexivity. Qed.

(** One call of [step], with the state it leaves spelled out. *)
Lemma step_cases (e : Env) (a : Action) :
  let d := do_simulation (body_mass e) (data e) a in
  exists e' r,
    step e a = Some (e', r) /\
    observation r = get_obs d /\
    r = mkStepResult (get_obs d)
          (forward_reward_weight * x_velocity e a - control_cost a)%Q
          (if Qlt_le_dec (velocity_threshold e) (x_velocity e a) then 1%Q else 0%Q)
          false false
          (mkInfo (qpos0 d) (x_velocity e a)
                  (forward_reward_weight * x_velocity e a)%Q
                  (- control_cost a)%Q) /\
    if decide (TASK_LENGTH < steps_since_change e) then
      exists name m,
        py_getitem TASK_CYCLE ((current_task e + 1) `mod` 5) = Some name /\
        MULTIPLIERS !! name = Some m /\
        e' = mkEnv ((current_task e + 1) `mod` 5) 1 name (velocity_threshold e)
                   (tscale m NOMINAL_MASSES) (reset (tscale m NOMINAL_MASSES) d)
    else
      e' = mkEnv (current_task e) (steps_since_change e + 1) (current_task_name e)
                 (velocity_threshold e) (body_mass e) d.
Proof.
  intros d.
  destruct (step_spec e a) as (e1 & Hcheck & Hstep). fold d in Hcheck, Hstep.
  eexists. eexists. split; [exact Hstep|]. split; [reflexivity|].
  split; [reflexivity|].
  destruct (check_task_spec
              (mkEnv (current_task e) (steps_since_change e) (current_task_name e)
                     (velocity_threshold e) (body_mass e) d)) as (e1' & Hcheck' & Hcase).
  rewrite Hcheck in Hcheck'. injection Hcheck' as <-. simpl in Hcase.
  destruct (decide (TASK_LENGTH < steps_since_change e)).
  - destruct Hcase as (name & m & Hname & Hm & ->). simpl.
    exists name, m. auto.
  - subst e1. reflexivity.
Qed.

Lemma after_steps_step (mass0 : tensor) (m : Z) (e : Env) (a : Action) :
  0 <= m -> after_steps mass0 m e ->
  exists e' r, step e a = Some (e', r) /\ after_steps mass0 (m + 1) e'.
Proof.
  intros Hm (Hs & Ht & [Hrange Hname] & Hv & Hlow & Hhigh).
  destruct (step_cases e a) as (e' & r & Hstep & _ & _ & Hcase).
  exists e', r. split; [exact Hstep|].
  pose proof TASK_LENGTH_value as HL.
  pose proof (Z.mod_pos_bound m (TASK_LENGTH + 1) ltac:(lia)) as Hr.
  destruct (next_epoch_div_mod m (TASK_LENGTH + 1) Hm ltac:(lia)) as [Hlast Hnot].
  pose proof (Z.div_mod m (TASK_LENGTH + 1) ltac:(lia)) as Hdm.
  pose proof (Z.div_pos m (TASK_LENGTH + 1) Hm ltac:(lia)) as Hq.
  destruct (decide (TASK_LENGTH < steps_since_change e)) as [Hgt|Hle].
  - destruct Hcase as (name & mu & Hn & Hmu & ->).
    destruct (Hlast ltac:(lia)) as [Hmod Hdiv].
    unfold after_steps, named, scaled. simpl.
    rewrite Hmod, Hdiv, Ht.
    assert (((m / (TASK_LENGTH + 1)) `mod` 5 + 1) `mod` 5
            = (m / (TASK_LENGTH + 1) + 1) `mod` 5) as Hidem
      by apply Zplus_mod_idemp_l.
    rewrite Ht, Hidem in Hn. rewrite Hidem.
    pose proof (Z.mod_pos_bound (m / (TASK_LENGTH + 1) + 1) 5 ltac:(lia)) as Hb5.
    repeat split; try lia; try assumption.
    intros _. exists mu. split; [exact Hmu|reflexivity].
  - subst e'. destruct (Hnot ltac:(lia)) as [Hmod Hdiv].
    unfold after_steps, named, scaled. simpl.
    rewrite Hmod, Hdiv, Hs.
    repeat split; try lia; try assumption.
    + intros Hlt. apply Hlow. lia.
    + intros Hge. apply Hhigh.
      destruct (decide (m + 1 = TASK_LENGTH + 1)) as [Heq|Hne]; [|lia].
      exfalso. assert (m `mod` (TASK_LENGTH + 1) = m) as Hsmall
        by (apply Z.mod_small; lia).
      lia.
Qed.

Lemma after_steps_run (mass0 : tensor) (acts : list Action) :
  forall (m : Z) (e : Env),
    0 <= m -> after_steps mass0 m e ->
    exists e', steps e acts = Some e' /\
               after_steps mass0 (m + Z.of_nat (length acts)) e'.
Proof.
  induction acts as [|a acts IH]; intros m e Hm Hinv.
  - exists e. split; [reflexivity|]. simpl. rewrite Z.add_0_r. exact Hinv.
  - destruct (after_steps_step mass0 m e a Hm Hinv) as (e1 & r & Hstep & Hinv1).
    destruct (IH (m + 1) e1 ltac:(lia) Hinv1) as (e' & Hrun & Hinv').
    exists e'. split.
    + simpl. rewrite Hstep. simpl. exact Hrun.
    + replace (m + Z.of_nat (length (a :: acts)))
        with (m + 1 + Z.of_nat (length acts)) by (simpl length; lia).
      exact Hinv'.
Qed.

(** The first step of a fresh environment. *)
Lemma after_first_step (mass0 : tensor) (d0 : Sim) (e0 : Env) (a : Action) :
  init mass0 d0 = Some e0 ->
  exists e1 r, step e0 a = Some (e1, r) /\ after_steps mass0 0 e1.
Proof.
  intros Hinit. unfold init in Hinit. simpl in Hinit. injection Hinit as <-.
  destruct (step_cases (mkEnv 0 0 "nominal" (32096 # 10000)%Q mass0 d0) a)
    as (e1 & r & Hstep & _ & _ & Hcase).
  exists e1, r. split; [exact Hstep|].
  destruct (decide (TASK_LENGTH <
                      steps_since_change (mkEnv 0 0 "nominal" (32096 # 10000)%Q mass0 d0)))
    as [Hgt|_].
  { simpl in Hgt. rewrite TASK_LENGTH_value in Hgt. lia. }
  subst e1. unfold after_steps, named, scaled. simpl.
  rewrite TASK_LENGTH_value.
  repeat split; try reflexivity; try lia.
Qed.

Lemma steps_from_init (mass0 : tensor) (d0 : Sim) (e0 : Env) (acts : list Action) :
  init mass0 d0 = Some e0 -> acts <> [] ->
  exists e, steps e0 acts = Some e /\
            after_steps mass0 (Z.of_nat (length acts) - 1) e.
Proof.
  intros Hinit Hne. destruct acts as [|a acts]; [congruence|].
  destruct (after_first_step mass0 d0 e0 a Hinit) as (e1 & r & Hstep & Hinv).
  destruct (after_steps_run mass0 acts 0 e1 ltac:(lia) Hinv) as (e & Hrun & Hinv').
  exists e. split.
  - simpl. rewrite Hstep. simpl. exact Hrun.
  - replace (Z.of_nat (length (a :: acts)) - 1) with (0 + Z.of_nat (length acts))
      by (simpl length; lia).
    exact Hinv'.
Qed.
End CheetahRunFacts.

(** X1.  Counting the calls of [step] on a freshly constructed
    environment from 1, the counter after the [n]-th call is
    [(n - 1) mod (L + 1) + 1] and the variant index is
    [((n - 1) / (L + 1)) mod 5], with [L = TASK_LENGTH]: the first variant
    lasts [L + 1] calls, the switch happens in call [L + 2], and from then
    on every [L + 1] calls. *)
Theorem cheetah_clock_closed_form (Ph : Cheetah.Physics) (mass0 : tensor)
    (d0 : Cheetah.Sim) (e0 : Cheetah.Env) (acts : list Cheetah.Action) :
  Cheetah.init mass0 d0 = Some e0 -> acts <> [] ->
  let n := Z.of_nat (length acts) in
  exists e, CheetahRun.steps e0 acts = Some e /\
    Cheetah.steps_since_change e = (n - 1) `mod` (Cheetah.TASK_LENGTH + 1) + 1 /\
    Cheetah.current_task e = ((n - 1) / (Cheetah.TASK_LENGTH + 1)) `mod` 5.
Proof.
  intros Hinit Hne n.
  destruct (steps_from_init mass0 d0 e0 acts Hinit Hne) as (e & Hrun & Hs & Ht & _).
  exists e. auto.
Qed.

Lemma cheetah_clock_closed_form_witness :
  exists e, CheetahRun.steps (Ph := Toy.physics)
              (Cheetah.mkEnv (Ph := Toy.physics) 0 0 "nominal" (32096 # 10000)%Q [1%Q] 0%Q) [1%Q; 1%Q; 1%Q]
            = Some e /\
    Cheetah.steps_since_change e = (3 - 1) `mod` (Cheetah.TASK_LENGTH + 1) + 1 /\
    Cheetah.current_task e = ((3 - 1) / (Cheetah.TASK_LENGTH + 1)) `mod` 5.
Proof.
  apply (cheetah_clock_closed_form Toy.physics [1%Q] 0%Q
           (Cheetah.mkEnv (Ph := Toy.physics) 0 0 "nominal" (32096 # 10000)%Q [1%Q] 0%Q)
           [1%Q; 1%Q; 1%Q]).
  - reflexivity.
  - discriminate.
Defined.

(** X2.  After any positive number [n] of calls of [step] on a freshly
    constructed environment, the variant's name is the cycle's entry at
    the variant index, the velocity threshold is still 3.2096, and the
    body masses are those the model was loaded with as long as
    [n <= L + 1] and the nominal masses times the current variant's
    multiplier from call [L + 2] on. *)
Theorem cheetah_masses_follow_cycle (Ph : Cheetah.Physics) (mass0 : tensor)
    (d0 : Cheetah.Sim) (e0 : Cheetah.Env) (acts : list Cheetah.Action) :
  Cheetah.init mass0 d0 = Some e0 -> acts <> [] ->
  let n := Z.of_nat (length acts) in
  exists e, CheetahRun.steps e0 acts = Some e /\
    CheetahRun.named e /\
    Cheetah.velocity_threshold e = (32096 # 10000)%Q /\
    (n <= Cheetah.TASK_LENGTH + 1 -> Cheetah.body_mass e = mass0) /\
    (Cheetah.TASK_LENGTH + 1 < n -> CheetahRun.scaled e).
Proof.
  intros Hinit Hne n.
  destruct (steps_from_init mass0 d0 e0 acts Hinit Hne)
    as (e & Hrun & _ & _ & Hn & Hv & Hlow & Hhigh).
  exists e. repeat split; try apply Hn; try assumption.
  - intros Hle. apply Hlow. lia.
  - intros Hlt. apply Hhigh. lia.
Qed.

Lemma cheetah_masses_follow_cycle_witness :
  exists e, CheetahRun.steps (Ph := Toy.physics)
              (Cheetah.mkEnv (Ph := Toy.physics) 0 0 "nominal" (32096 # 10000)%Q [1%Q] 0%Q) [1%Q; 1%Q]
            = Some e /\
    CheetahRun.named e /\
    Cheetah.velocity_threshold e = (32096 # 10000)%Q /\
    (2 <= Cheetah.TASK_LENGTH + 1 -> Cheetah.body_mass e = [1%Q]) /\
    (Cheetah.TASK_LENGTH + 1 < 2 -> CheetahRun.scaled e).
Proof.
  apply (cheetah_masses_follow_cycle Toy.physics [1%Q] 0%Q
           (Cheetah.mkEnv (Ph := Toy.physics) 0 0 "nominal" (32096 # 10000)%Q [1%Q] 0%Q) [1%Q; 1%Q]).
  - reflexivity.
  - discriminate.
Defined.

(** X3.  What a call of [step] returns depends on the body masses, the
    simulator state, the velocity threshold and the action only, not on
    the counter, the variant index or the variant name; in particular the
    call that switches the variant still returns the observation, reward
    and cost of the simulation made with the old masses, and the state it
    leaves has been reset under the new ones. *)
Theorem step_result_ignores_cycle (Ph : Cheetah.Physics)
    (e1 e2 : Cheetah.Env) (a : Cheetah.Action) :
  Cheetah.body_mass e1 = Cheetah.body_mass e2 ->
  Cheetah.data e1 = Cheetah.data e2 ->
  Cheetah.velocity_threshold e1 = Cheetah.velocity_threshold e2 ->
  let d := Cheetah.do_simulation (Cheetah.body_mass e1) (Cheetah.data e1) a in
  exists e1' e2' r,
    Cheetah.step e1 a = Some (e1', r) /\
    Cheetah.step e2 a = Some (e2', r) /\
    Cheetah.observation r = Cheetah.get_obs d /\
    (Cheetah.TASK_LENGTH < Cheetah.steps_since_change e1 ->
     Cheetah.data e1' = Cheetah.reset (Cheetah.body_mass e1') d) /\
    (Cheetah.steps_since_change e1 <= Cheetah.TASK_LENGTH ->
     Cheetah.data e1' = d).
Proof.
  intros Hmass Hdata Hthr d.
  destruct (step_cases e1 a) as (e1' & r1 & Hs1 & Ho1 & Hr1 & Hc1).
  destruct (step_cases e2 a) as (e2' & r2 & Hs2 & _ & Hr2 & _).
  exists e1', e2', r1. split; [exact Hs1|]. split.
  - rewrite Hs2. f_equal. f_equal. rewrite Hr1, Hr2.
    unfold Cheetah.x_velocity. rewrite Hmass, Hdata, Hthr. reflexivity.
  - split; [exact Ho1|]. split; intros Hcmp.
    + rewrite decide_True in Hc1 by exact Hcmp.
      destruct Hc1 as (name & m & _ & _ & ->). reflexivity.
    + rewrite decide_False in Hc1 by lia. subst e1'. reflexivity.
Qed.

Lemma step_result_ignores_cycle_witness :
  let e1 := Cheetah.mkEnv (Ph := Toy.physics) 4 100001 "twenty" (32096 # 10000)%Q [1%Q] 7%Q in
  let e2 := Cheetah.mkEnv (Ph := Toy.physics) 0 0 "nominal" (32096 # 10000)%Q [1%Q] 7%Q in
  exists e1' e2' r,
    Cheetah.step e1 1%Q = Some (e1', r) /\
    Cheetah.step e2 1%Q = Some (e2', r) /\
    Cheetah.observation r = Cheetah.get_obs (Cheetah.do_simulation (Physics := Toy.physics) [1%Q] 7%Q 1%Q) /\
    (Cheetah.TASK_LENGTH < 100001 ->
     Cheetah.data e1' = Cheetah.reset (Cheetah.body_mass e1')
                          (Cheetah.do_simulation (Physics := Toy.physics) [1%Q] 7%Q 1%Q)) /\
    (100001 <= Cheetah.TASK_LENGTH ->
     Cheetah.data e1' = Cheetah.do_simulation (Physics := Toy.physics) [1%Q] 7%Q 1%Q).
Proof.
  intros e1 e2.
  apply (step_result_ignores_cycle Toy.physics e1 e2 1%Q); reflexivity.
Defined.

(** ** When the sampling loop raises *)

Section SamplingFacts.
Context {P : Collector.Policy} {V : Collector.VecEnv} {B : Buffer}.
Import Collector Sampling.



End SamplingFacts.


(** ** How much an epoch stores *)

Section StoreCount.
Context {P : Collector.Policy} {V : Collector.VecEnv}.
Import Collector CallLog Sampling.
#[local] Existing Instance CallLog.buffer.

Lemma store_count_app (l1 l2 : list Call) :
  store_count (l1 ++ l2) = (store_count l1 + store_count l2)%nat.
Proof. unfold store_count. rewrite filter_app, length_app. reflexivity. Qed.

Lemma get_count_app (l1 l2 : list Call) :
  get_count (l1 ++ l2) = (get_count l1 + get_count l2)%nat.
Proof. unfold get_count. rewrite filter_app, length_app. reflexivity. Qed.

Lemma slots_store_count (epoch_end : bool) (obs : list tensor)
    (final : option (list tensor)) (flags : list (bool * bool)) :
  forall (buf buf' : list Call) (idx : nat),
    slots epoch_end obs final buf idx flags = Some buf' ->
    store_count buf' = store_count buf /\ get_count buf' = get_count buf.
Proof.
  induction flags as [|[done time_out] flags IH]; intros buf buf' idx; simpl.
  - intros [= <-]. auto.
  - destruct (slot (B := CallLog.buffer) epoch_end obs final buf idx done time_out)
      as [buf1|] eqn:Hs; simpl; [|discriminate].
    intros Hrest. destruct (IH _ _ _ Hrest) as [-> ->].
    unfold slot in Hs. destruct (epoch_end || done || time_out).
    + destruct (last_values epoch_end done time_out obs final idx) as [lv|];
        simpl in Hs; [|discriminate].
      injection Hs as <-.
      rewrite store_count_app, get_count_app. unfold store_count, get_count. simpl.
      lia.
    + injection Hs as <-. auto.
Qed.

Lemma rollout_step_store_count (n steps : nat) (r r' : Rollout) :
  rollout_step n steps r = Some r' ->
  store_count (r_buf r') = S (store_count (r_buf r)) /\
  get_count (r_buf r') = get_count (r_buf r).
Proof.
  unfold rollout_step.
  destruct (sample steps (r_obs r)) as [act log_prob].
  destruct (env_step (r_env r) act) as [env' out].
  match goal with
  | |- context [slots ?e ?o ?f ?b 0%nat ?fl] =>
      destruct (slots (B := CallLog.buffer) e o f b 0%nat fl) as [buf2|] eqn:Hs
  end; simpl; [|discriminate].
  intros [= <-]. simpl.
  destruct (slots_store_count _ _ _ _ _ _ _ Hs) as [-> ->].
  change (store (r_buf r) ?t) with (r_buf r ++ [Store t]).
  rewrite store_count_app, get_count_app. unfold store_count, get_count. simpl.
  lia.
Qed.

Lemma rollout_from_store_count (n todo : nat) :
  forall (steps : nat) (r r' : Rollout),
    rollout_from n todo steps r = Some r' ->
    store_count (r_buf r') = (store_count (r_buf r) + todo)%nat /\
    get_count (r_buf r') = get_count (r_buf r).
Proof.
  induction todo as [|todo IH]; intros steps r r'; simpl.
  - intros [= <-]. split; lia.
  - destruct (rollout_step (B := CallLog.buffer) n steps r) as [r1|] eqn:Hs;
      simpl; [|discriminate].
    intros Hrest. destruct (IH _ _ _ Hrest) as [-> ->].
    destruct (rollout_step_store_count _ _ _ _ Hs) as [-> ->]. split; lia.
Qed.
End StoreCount.

(** X5.  Collecting one epoch calls [buffer.store] exactly
    [local_steps_per_epoch = steps_per_epoch // num_envs] times, once per
    iteration with one row per slot, and never calls [buffer.get]; the
    rows stored are therefore [steps_per_epoch] rounded down to a
    multiple of [num_envs], although the regularizer's clock and the
    logged step total move by the full [steps_per_epoch]. *)
Theorem collect_stores_local_steps (T : Ppo.Torch) (V : Collector.VecEnv)
    (cfg : Ppo.Config) (n : nat) (st st' : Ppo.Trainer (B := CallLog.buffer)) :
  0 < Ppo.num_envs cfg -> 0 <= Ppo.steps_per_epoch cfg ->
  Ppo.collect cfg n st = Some st' ->
  Sampling.store_count (Ppo.buffer st') =
    (Sampling.store_count (Ppo.buffer st) + Ppo.local_steps_per_epoch cfg)%nat /\
  Sampling.get_count (Ppo.buffer st') = Sampling.get_count (Ppo.buffer st) /\
  Z.of_nat (Ppo.local_steps_per_epoch cfg) * Ppo.num_envs cfg =
    Ppo.steps_per_epoch cfg - Ppo.steps_per_epoch cfg `mod` Ppo.num_envs cfg /\
  Ppo.steps_since_change st' = Ppo.steps_since_change st.
Proof.
  intros Hn HS Hc. unfold Ppo.collect in Hc.
  match type of Hc with
  | context [Collector.rollout ?k ?r] =>
      destruct (Collector.rollout (B := CallLog.buffer) k r) as [r'|] eqn:Hr
  end; simpl in Hc; [|discriminate].
  injection Hc as <-. simpl.
  destruct (rollout_from_store_count _ _ _ _ _ Hr) as [Hs Hg]. simpl in Hs, Hg.
  split; [exact Hs|]. split; [exact Hg|]. split; [|reflexivity].
  unfold Ppo.local_steps_per_epoch.
  pose proof (Z.div_mod (Ppo.steps_per_epoch cfg) (Ppo.num_envs cfg) ltac:(lia)) as Hdm.
  pose proof (Z.div_pos (Ppo.steps_per_epoch cfg) (Ppo.num_envs cfg) HS Hn) as Hq.
  rewrite Z2Nat.id by exact Hq. lia.
Qed.

Lemma collect_stores_local_steps_witness :
  let cfg := Ppo.mkConfig [0] 1%Q 2 5 3 5 2%Q false in
  let st := Ppo.init (T := Toy.torch) (V := Toy.vec_env) (B := CallLog.buffer)
              cfg [[0%Q]] [("w"%string, O)] tt [] O [[5%Q]] in
  exists st',
    Ppo.collect cfg 0 st = Some st' /\
    Sampling.store_count (Ppo.buffer st') = 2%nat /\
    Sampling.get_count (Ppo.buffer st') = 0%nat /\
    Z.of_nat (Ppo.local_steps_per_epoch cfg) * 2 = 5 - 5 `mod` 2 /\
    Ppo.steps_since_change st' = 0.
Proof.
  intros cfg st.
  destruct (Ppo.collect cfg 0 st) as [st'|] eqn:Hc;
    [|vm_compute in Hc; discriminate Hc].
  exists st'. split; [reflexivity|].
  apply (collect_stores_local_steps Toy.torch Toy.vec_env cfg 0 st st');
    [reflexivity | discriminate | exact Hc].
Defined.

(** ** The episode statistics *)

Section EpisodeFacts.
Import Episodes.

Lemma deque_append_last_n (m : nat) (l : list Q) (x : Q) :
  deque_append m (last_n m l) x = last_n m (l ++ [x]).
Proof.
  unfold deque_append, last_n.
  rewrite !length_app, length_drop. simpl.
  destruct (decide (length l <= m)%nat) as [Hle|Hgt].
  - replace (length l - m)%nat with 0%nat by lia. rewrite drop_0.
    replace (length l - 0 + 1 - m)%nat with (length l + 1 - m)%nat by lia.
    reflexivity.
  - replace (length l - (length l - m) + 1 - m)%nat with 1%nat by lia.
    rewrite <- drop_app_le by lia.
    rewrite drop_drop. f_equal. lia.
Qed.

Lemma last_n_small (m : nat) (l : list Q) :
  (length l <= m)%nat -> last_n m l = l.
Proof.
  intros Hle. unfold last_n. replace (length l - m)%nat with 0%nat by lia.
  apply drop_0.
Qed.

Lemma length_last_n (m : nat) (l : list Q) : (length (last_n m l) <= m)%nat.
Proof. unfold last_n. rewrite length_drop. lia. Qed.

(** Appending one by one keeps the last entries of everything that was
    appended. *)
Lemma deque_appends (m : nat) (xs : list Q) :
  forall l : list Q,
    foldl (deque_append m) (last_n m l) xs = last_n m (l ++ xs).
Proof.
  induction xs as [|x xs IH]; intros l; simpl.
  - rewrite app_nil_r. reflexivity.
  - rewrite deque_append_last_n, IH, <- app_assoc. reflexivity.
Qed.

Lemma ended_ge (flags : list (bool * bool)) :
  forall idx j, j ∈ ended idx flags -> (idx <= j)%nat.
Proof.
  induction flags as [|[d t] flags IH]; intros idx j; simpl.
  - intros H. apply elem_of_nil in H. contradiction.
  - destruct (d || t).
    + rewrite elem_of_cons. intros [->|H]; [lia|]. apply IH in H. lia.
    + intros H. apply IH in H. lia.
Qed.

Lemma entries_insert (a : tensor) (idx : nat) (x : Q) (js : list nat) :
  (forall j, j ∈ js -> (idx < j)%nat) ->
  entries (<[idx := x]> a) js = entries a js.
Proof.
  induction js as [|j js IH]; intros Hjs; simpl; [reflexivity|].
  rewrite list_lookup_insert_ne by (specialize (Hjs j ltac:(left)); lia).
  rewrite IH by (intros j' Hj'; apply Hjs; right; exact Hj').
  reflexivity.
Qed.

Lemma slots_spec (epoch_end : bool) (flags : list (bool * bool)) :
  forall (s s' : Stats) (idx : nat),
    slots epoch_end s idx flags = Some s' -> slots_result idx flags s s'.
Proof.
  induction flags as [|[d t] flags IH]; intros s s' idx; simpl.
  - intros [= <-].
    split; simpl; try reflexivity; try lia;
      intros j; rewrite decide_False by apply not_elem_of_nil; reflexivity.
  - unfold slot.
    assert ((if epoch_end || d || t
             then if d || t then close_episode s idx else Some s
             else Some s)
            = if d || t then close_episode s idx else Some s) as ->
      by (destruct epoch_end, d, t; reflexivity).
    destruct (d || t) eqn:Hdt; simpl.
    + unfold close_episode.
      destruct (ep_ret s !! idx) as [r|] eqn:Hr; simpl; [|discriminate].
      destruct (ep_cost s !! idx) as [c|] eqn:Hc; simpl; [|discriminate].
      destruct (ep_len s !! idx) as [l|] eqn:Hl; simpl; [|discriminate].
      intros Hrest. destruct (IH _ _ _ Hrest) as [H1 H2 H3 H4 H5 H6 H7 H8].
      simpl in *.
      assert (forall j, j ∈ ended (S idx) flags -> (idx < j)%nat) as Hlater
        by (intros j Hj; apply ended_ge in Hj; lia).
      rewrite entries_insert in H4, H5, H6, H8 by exact Hlater.
      assert (forall (a : tensor) j,
                 (idx < length a)%nat ->
                 (if decide (j ∈ ended (S idx) flags) then Some 0%Q
                  else <[idx := 0%Q]> a !! j)
                 = if decide (j ∈ idx :: ended (S idx) flags) then Some 0%Q
                   else a !! j) as Hins.
      { intros a j Hlen. destruct (decide (j = idx)) as [->|Hne].
        - rewrite list_lookup_insert_eq by exact Hlen.
          rewrite (decide_True (P := idx ∈ idx :: _)) by (left).
          destruct (decide (idx ∈ ended (S idx) flags)); reflexivity.
        - rewrite list_lookup_insert_ne by congruence.
          destruct (decide (j ∈ ended (S idx) flags)) as [Hin|Hnin].
          + rewrite decide_True by (right; exact Hin). reflexivity.
          + rewrite decide_False; [reflexivity|].
            rewrite elem_of_cons. intros [?|?]; [congruence|contradiction]. }
      apply lookup_lt_Some in Hr as Hr'. apply lookup_lt_Some in Hc as Hc'.
      apply lookup_lt_Some in Hl as Hl'.
      split; cbn [ended]; rewrite Hdt; cbn [entries length].
      * intros j. rewrite H1. apply Hins. exact Hr'.
      * intros j. rewrite H2. apply Hins. exact Hc'.
      * intros j. rewrite H3. apply Hins. exact Hl'.
      * rewrite Hr. simpl. exact H4.
      * rewrite Hc. simpl. exact H5.
      * rewrite Hl. simpl. exact H6.
      * rewrite H7, length_app. simpl. lia.
      * rewrite Hr. simpl. f_equal. exact H8.
    + intros Hrest. destruct (IH _ _ _ Hrest) as [H1 H2 H3 H4 H5 H6 H7 H8].
      split; cbn [ended]; rewrite Hdt; assumption.
Qed.

Lemma ended_lookup (flags : list (bool * bool)) :
  forall idx j,
    j ∈ ended idx flags <->
    exists flag, (idx <= j)%nat /\ flags !! (j - idx)%nat = Some flag /\
                 flag.1 || flag.2 = true.
Proof.
  induction flags as [|[d t] flags IH]; intros idx j; simpl.
  - split; [intros H; apply elem_of_nil in H; contradiction|].
    intros (flag & _ & H & _). discriminate.
  - assert (j ∈ ended (S idx) flags <->
            (idx < j)%nat /\ exists flag, flags !! (j - S idx)%nat = Some flag /\
                                          flag.1 || flag.2 = true) as Hrec.
    { rewrite IH. split.
      - intros (flag & Hle & Hf & Hb). split; [lia|]. exists flag. auto.
      - intros (Hlt & flag & Hf & Hb). exists flag. split; [lia|]. auto. }
    assert (forall flag, (idx < j)%nat ->
              (((d, t) :: flags) !! (j - idx)%nat = Some flag <->
               flags !! (j - S idx)%nat = Some flag)) as Hshift.
    { intros flag Hlt. replace (j - idx)%nat with (S (j - S idx)) by lia.
      reflexivity. }
    destruct (d || t) eqn:Hdt.
    + rewrite elem_of_cons, Hrec. split.
      * intros [->|(Hlt & flag & Hf & Hb)].
        -- exists (d, t). rewrite Nat.sub_diag. simpl. auto.
        -- exists flag. split; [lia|]. split; [apply Hshift; assumption|exact Hb].
      * intros (flag & Hle & Hf & Hb).
        destruct (decide (j = idx)) as [->|Hne]; [left; reflexivity|right].
        split; [lia|]. exists flag. split; [apply Hshift; [lia|exact Hf]|exact Hb].
    + rewrite Hrec. split.
      * intros (Hlt & flag & Hf & Hb). exists flag.
        split; [lia|]. split; [apply Hshift; assumption|exact Hb].
      * intros (flag & Hle & Hf & Hb).
        destruct (decide (j = idx)) as [->|Hne].
        -- rewrite Nat.sub_diag in Hf. simpl in Hf. injection Hf as <-.
           simpl in Hb. congruence.
        -- split; [lia|]. exists flag. split; [apply Hshift; [lia|exact Hf]|exact Hb].
Qed.

Lemma np_iadd_same (a b : tensor) :
  length b = length a -> np_iadd a b = Some (tadd a b).
Proof. intros H. unfold np_iadd. rewrite decide_True by exact H. reflexivity. Qed.

Lemma tadd_lookup (a b : tensor) (j : nat) :
  tadd a b !! j = x ← a !! j; y ← b !! j; Some (x + y)%Q.
Proof. unfold tadd. rewrite lookup_zip_with. reflexivity. Qed.
End EpisodeFacts.

Section EpisodeLog.
Import Episodes.

Lemma ended_sorted (flags : list (bool * bool)) :
  forall idx, StronglySorted lt (ended idx flags).
Proof.
  induction flags as [|[d t] flags IH]; intros idx; simpl; [constructor|].
  destruct (d || t); [|apply IH].
  constructor; [apply IH|].
  apply Forall_forall. intros j Hj. apply ended_ge in Hj. lia.
Qed.

(** The means that the slots log, one after the other: the [i]-th is
    taken over the windows as they are once [i + 1] episodes have been
    appended. *)
Lemma slots_stored (epoch_end : bool) (flags : list (bool * bool)) :
  forall (s s' : Stats) (idx : nat) (wr wc wl : list Q),
    rew_deque s = last_n 20 wr ->
    cost_deque s = last_n 20 wc ->
    len_deque s = last_n 20 wl ->
    slots epoch_end s idx flags = Some s' ->
    stored s' =
      stored s ++
      map (fun i =>
             (tmean (last_n 20 (wr ++ take (S i) (entries (ep_ret s) (ended idx flags)))),
              tmean (last_n 20 (wc ++ take (S i) (entries (ep_cost s) (ended idx flags)))),
              tmean (last_n 20 (wl ++ take (S i) (entries (ep_len s) (ended idx flags))))))
          (seq 0 (length (ended idx flags))) /\
    logged s' = match ended idx flags with [] => logged s | _ => false end.
Proof.
  induction flags as [|[d t] flags IH]; intros s s' idx wr wc wl Hr Hc Hl; simpl.
  - intros [= <-]. rewrite app_nil_r. auto.
  - unfold slot.
    assert ((if epoch_end || d || t
             then if d || t then close_episode s idx else Some s
             else Some s)
            = if d || t then close_episode s idx else Some s) as ->
      by (destruct epoch_end, d, t; reflexivity).
    destruct (d || t) eqn:Hdt; simpl; [|apply IH; assumption].
    unfold close_episode.
    destruct (ep_ret s !! idx) as [r|] eqn:Hr0; simpl; [|discriminate].
    destruct (ep_cost s !! idx) as [c|] eqn:Hc0; simpl; [|discriminate].
    destruct (ep_len s !! idx) as [l|] eqn:Hl0; simpl; [|discriminate].
    intros Hrest.
    assert (forall j, j ∈ ended (S idx) flags -> (idx < j)%nat) as Hlater
      by (intros j Hj; apply ended_ge in Hj; lia).
    match type of Hrest with
    | slots _ ?s1 _ _ = _ =>
        destruct (IH s1 s' (S idx) (wr ++ [r]) (wc ++ [c]) (wl ++ [l])) as [Hst Hlg];
        [cbn [rew_deque]; rewrite Hr; apply deque_append_last_n
        |cbn [cost_deque]; rewrite Hc; apply deque_append_last_n
        |cbn [len_deque]; rewrite Hl; apply deque_append_last_n
        |exact Hrest|]
    end.
    cbn [stored logged ep_ret ep_cost ep_len] in Hst, Hlg.
    rewrite !entries_insert in Hst by exact Hlater.
    split.
    + rewrite Hst, <- app_assoc. f_equal. cbn [app].
      rewrite Hr, Hc, Hl, !deque_append_last_n.
      cbn [seq map take]. rewrite !take_0. f_equal.
      rewrite <- seq_shift, map_map. apply map_ext. intros i.
      rewrite <- !app_assoc. reflexivity.
    + rewrite Hlg. destruct (ended (S idx) flags); reflexivity.
Qed.

(** The loop over the slots raises exactly when a slot whose episode
    ends has no entry in one of the three arrays of running totals. *)
Lemma slots_raises (epoch_end : bool) (flags : list (bool * bool)) :
  forall (s : Stats) (idx : nat),
    slots epoch_end s idx flags = None <->
    exists j, j ∈ ended idx flags /\
              ((length (ep_ret s) <= j)%nat \/ (length (ep_cost s) <= j)%nat \/
               (length (ep_len s) <= j)%nat).
Proof.
  induction flags as [|[d t] flags IH]; intros s idx; simpl.
  - split; [discriminate|]. intros (j & Hj & _). apply elem_of_nil in Hj. contradiction.
  - unfold slot.
    assert ((if epoch_end || d || t
             then if d || t then close_episode s idx else Some s
             else Some s)
            = if d || t then close_episode s idx else Some s) as ->
      by (destruct epoch_end, d, t; reflexivity).
    destruct (d || t) eqn:Hdt; simpl; [|apply IH].
    unfold close_episode.
    destruct (ep_ret s !! idx) as [r|] eqn:Hr; simpl.
    2:{ split; [|reflexivity]. intros _. exists idx. split; [left|].
        left. apply lookup_ge_None. exact Hr. }
    destruct (ep_cost s !! idx) as [c|] eqn:Hc; simpl.
    2:{ split; [|reflexivity]. intros _. exists idx. split; [left|].
        right. left. apply lookup_ge_None. exact Hc. }
    destruct (ep_len s !! idx) as [l|] eqn:Hl; simpl.
    2:{ split; [|reflexivity]. intros _. exists idx. split; [left|].
        right. right. apply lookup_ge_None. exact Hl. }
    rewrite IH. cbn [ep_ret ep_cost ep_len]. rewrite !length_insert.
    apply lookup_lt_Some in Hr, Hc, Hl.
    split.
    + intros (j & Hj & Hlen). exists j. split; [right; exact Hj|exact Hlen].
    + intros (j & Hj & Hlen). apply elem_of_cons in Hj as [->|Hj]; [lia|].
      exists j. split; [exact Hj|exact Hlen].
Qed.

Lemma entries_length (a : tensor) (js : list nat) :
  (forall j, j ∈ js -> (j < length a)%nat) -> length (entries a js) = length js.
Proof.
  induction js as [|j js IH]; intros Hjs; simpl; [reflexivity|].
  destruct (lookup_lt_is_Some_2 a j (Hjs j ltac:(left))) as [x ->]. simpl.
  rewrite IH; [reflexivity|]. intros j' Hj'. apply Hjs. right. exact Hj'.
Qed.
End EpisodeLog.

(** X6.  In one iteration of the sampling loop the slots whose episode
    ends (terminated or truncated, in slot order) append their running
    return, cost and length, this step's reward, cost and increment
    included, to the three windows; each window keeps the 20 most recent
    values; every such slot makes one [logger.store], of the means of the
    windows as they are after its own append, and clears
    [logger.logged]; the running totals of those slots are set back to 0,
    and the totals of all other slots keep this step's reward, cost and
    increment.  Whether the iteration ends the epoch makes no
    difference. *)
Theorem episode_windows (epoch_end : bool) (out : Collector.EnvStep)
    (s s' : Episodes.Stats) :
  length (Collector.reward out) = length (Episodes.ep_ret s) ->
  length (Collector.cost out) = length (Episodes.ep_cost s) ->
  (length (Episodes.rew_deque s) <= 20)%nat ->
  (length (Episodes.cost_deque s) <= 20)%nat ->
  (length (Episodes.len_deque s) <= 20)%nat ->
  Episodes.step epoch_end out s = Some s' ->
  let js := Episodes.ended 0 (zip (Collector.terminated out) (Collector.truncated out)) in
  let ret := tadd (Episodes.ep_ret s) (Collector.reward out) in
  let cst := tadd (Episodes.ep_cost s) (Collector.cost out) in
  let len := map (fun y => (y + 1)%Q) (Episodes.ep_len s) in
  (forall j, j ∈ js <->
     exists d t, Collector.terminated out !! j = Some d /\
                 Collector.truncated out !! j = Some t /\ d || t = true) /\
  StronglySorted lt js /\
  length (Episodes.entries ret js) = length js /\
  length (Episodes.entries cst js) = length js /\
  length (Episodes.entries len js) = length js /\
  Episodes.rew_deque s' = Episodes.last_n 20 (Episodes.rew_deque s ++ Episodes.entries ret js) /\
  Episodes.cost_deque s' = Episodes.last_n 20 (Episodes.cost_deque s ++ Episodes.entries cst js) /\
  Episodes.len_deque s' = Episodes.last_n 20 (Episodes.len_deque s ++ Episodes.entries len js) /\
  (length (Episodes.rew_deque s') <= 20)%nat /\
  (length (Episodes.cost_deque s') <= 20)%nat /\
  (length (Episodes.len_deque s') <= 20)%nat /\
  Episodes.stored s' =
    Episodes.stored s ++
    map (fun i =>
           (tmean (Episodes.last_n 20
                     (Episodes.rew_deque s ++ take (S i) (Episodes.entries ret js))),
            tmean (Episodes.last_n 20
                     (Episodes.cost_deque s ++ take (S i) (Episodes.entries cst js))),
            tmean (Episodes.last_n 20
                     (Episodes.len_deque s ++ take (S i) (Episodes.entries len js)))))
        (seq 0 (length js)) /\
  Episodes.logged s' = match js with [] => Episodes.logged s | _ => false end /\
  (forall j, Episodes.ep_ret s' !! j = if decide (j ∈ js) then Some 0%Q else ret !! j) /\
  (forall j, Episodes.ep_cost s' !! j = if decide (j ∈ js) then Some 0%Q else cst !! j) /\
  (forall j, Episodes.ep_len s' !! j = if decide (j ∈ js) then Some 0%Q else len !! j).
Proof.
  intros Hlr Hlc Hwr Hwc Hwl Hstep js ret cst len. unfold Episodes.step in Hstep.
  rewrite (np_iadd_same _ _ Hlr), (np_iadd_same _ _ Hlc) in Hstep. simpl in Hstep.
  fold ret cst len in Hstep.
  destruct (slots_spec _ _ _ _ _ Hstep) as [H1 H2 H3 H4 H5 H6 H7 H8].
  match type of Hstep with
  | Episodes.slots _ ?s1 _ _ = _ =>
      destruct (slots_stored epoch_end _ s1 s' 0%nat (Episodes.rew_deque s)
                  (Episodes.cost_deque s) (Episodes.len_deque s)
                  (eq_sym (last_n_small 20 _ Hwr)) (eq_sym (last_n_small 20 _ Hwc))
                  (eq_sym (last_n_small 20 _ Hwl)) Hstep) as [Hst Hlg]
  end.
  assert (forall j, j ∈ js ->
            (j < length ret)%nat /\ (j < length cst)%nat /\ (j < length len)%nat)
    as Hin.
  { intros j Hj.
    destruct (decide ((length ret <= j)%nat \/ (length cst <= j)%nat \/
                      (length len <= j)%nat)) as [Hbad|Hok]; [|lia].
    assert (Episodes.slots epoch_end
              (Episodes.mkStats ret cst len (Episodes.rew_deque s)
                 (Episodes.cost_deque s) (Episodes.len_deque s)
                 (Episodes.stored s) (Episodes.logged s)) 0
              (zip (Collector.terminated out) (Collector.truncated out)) = None)
      as Hnone by (apply slots_raises; exists j; split; [exact Hj|exact Hbad]).
    rewrite Hnone in Hstep. discriminate. }
  cbn [Episodes.ep_ret Episodes.ep_cost Episodes.ep_len Episodes.rew_deque
       Episodes.cost_deque Episodes.len_deque Episodes.stored Episodes.logged] in *.
  fold js in H1, H2, H3, H4, H5, H6, H7, H8, Hst, Hlg.
  rewrite <- (last_n_small 20 (Episodes.rew_deque s) Hwr) in H4 at 1.
  rewrite <- (last_n_small 20 (Episodes.cost_deque s) Hwc) in H5 at 1.
  rewrite <- (last_n_small 20 (Episodes.len_deque s) Hwl) in H6 at 1.
  rewrite deque_appends in H4, H5, H6.
  rewrite H4, H5, H6.
  split.
  { intros j. unfold js. rewrite ended_lookup. split.
    - intros ([d t] & _ & Hf & Hdt). rewrite Nat.sub_0_r in Hf.
      apply lookup_zip_with_Some in Hf as (d' & t' & [= <- <-] & Hd & Ht).
      exists d, t. auto.
    - intros (d & t & Hd & Ht & Hdt). exists (d, t). split; [lia|].
      rewrite Nat.sub_0_r. split; [|exact Hdt].
      apply lookup_zip_with_Some. exists d, t. auto. }
  split; [apply ended_sorted|].
  split; [apply entries_length; intros j Hj; apply (Hin j Hj)|].
  split; [apply entries_length; intros j Hj; apply (Hin j Hj)|].
  split; [apply entries_length; intros j Hj; apply (Hin j Hj)|].
  repeat split; try reflexivity; try apply length_last_n; assumption.
Qed.

Lemma episode_windows_witness :
  let out := Collector.mkEnvStep [[0%Q]; [0%Q]] [10%Q; 20%Q] [1%Q; 0%Q]
               [false; true] [false; false] None in
  let s := Episodes.mkStats [1%Q; 2%Q] [0%Q; 0%Q] [3%Q; 4%Q] [] [] [] [] true in
  exists s',
    Episodes.step true out s = Some s' /\
    Episodes.rew_deque s' = [(2 + 20)%Q] /\
    Episodes.len_deque s' = [(4 + 1)%Q] /\
    Episodes.stored s' = [(tmean [(2 + 20)%Q], tmean [(0 + 0)%Q], tmean [(4 + 1)%Q])] /\
    Episodes.logged s' = false /\
    Episodes.ep_ret s' !! 0%nat = Some (1 + 10)%Q /\
    Episodes.ep_ret s' !! 1%nat = Some 0%Q.
Proof.
  intros out s.
  destruct (Episodes.step true out s) as [s'|] eqn:Hs;
    [|vm_compute in Hs; discriminate Hs].
  exists s'. split; [reflexivity|].
  destruct (episode_windows true out s s')
    as (_ & _ & _ & _ & _ & Hr & _ & Hl & _ & _ & _ & Hst & Hlg & Hz & _);
    [reflexivity | reflexivity | simpl; lia | simpl; lia | simpl; lia | exact Hs |].
  split; [exact Hr|]. split; [exact Hl|]. split; [exact Hst|]. split; [exact Hlg|].
  split; [exact (Hz 0%nat)|exact (Hz 1%nat)].
Defined.

(** ** When an iteration of the sampling loop raises *)

Section LoopFacts.
Context {P : Collector.Policy} {V : Collector.VecEnv} {B : Buffer}.
Import Collector.


End LoopFacts.




Section EpisodeRun.
Import Episodes.

Lemma slots_length (epoch_end : bool) (flags : list (bool * bool)) :
  forall (s s' : Stats) (idx : nat),
    slots epoch_end s idx flags = Some s' ->
    length (ep_ret s') = length (ep_ret s) /\
    length (ep_cost s') = length (ep_cost s) /\
    length (ep_len s') = length (ep_len s).
Proof.
  induction flags as [|[d t] flags IH]; intros s s' idx; simpl.
  - intros [= <-]. auto.
  - unfold slot. destruct (epoch_end || d || t); [destruct (d || t)|].
    + unfold close_episode.
      destruct (ep_ret s !! idx); simpl; [|discriminate].
      destruct (ep_cost s !! idx); simpl; [|discriminate].
      destruct (ep_len s !! idx); simpl; [|discriminate].
      intros Hrest. destruct (IH _ _ _ Hrest) as (-> & -> & ->). simpl.
      rewrite !length_insert. auto.
    + simpl. apply IH.
    + simpl. apply IH.
Qed.

(** One iteration, for a slot whose episode goes on. *)
Lemma step_goes_on (epoch_end : bool) (out : Collector.EnvStep) (s s' : Stats)
    (j : nat) (r c l : Q) :
  length (Collector.reward out) = length (ep_ret s) ->
  length (Collector.cost out) = length (ep_cost s) ->
  zip (Collector.terminated out) (Collector.truncated out) !! j = Some (false, false) ->
  ep_ret s !! j = Some r -> ep_cost s !! j = Some c -> ep_len s !! j = Some l ->
  step epoch_end out s = Some s' ->
  exists x y,
    Collector.reward out !! j = Some x /\ Collector.cost out !! j = Some y /\
    ep_ret s' !! j = Some (r + x)%Q /\
    ep_cost s' !! j = Some (c + y)%Q /\
    ep_len s' !! j = Some (l + 1)%Q /\
    length (ep_ret s') = length (ep_ret s) /\
    length (ep_cost s') = length (ep_cost s).
Proof.
  intros Hlr Hlc Hflag Hr Hc Hl Hstep. unfold step in Hstep.
  rewrite (np_iadd_same _ _ Hlr), (np_iadd_same _ _ Hlc) in Hstep. simpl in Hstep.
  destruct (slots_spec _ _ _ _ _ Hstep) as [H1 H2 H3 _ _ _ _ _].
  destruct (slots_length _ _ _ _ _ Hstep) as (L1 & L2 & _).
  cbn [ep_ret ep_cost ep_len] in *.
  assert (j ∉ ended 0 (zip (Collector.terminated out) (Collector.truncated out)))
    as Hnot.
  { rewrite ended_lookup. intros (flag & _ & Hf & Hb).
    rewrite Nat.sub_0_r, Hflag in Hf. injection Hf as <-. discriminate. }
  destruct (Collector.reward out !! j) as [x|] eqn:Hx.
  2:{ apply lookup_ge_None in Hx. apply lookup_lt_Some in Hr. lia. }
  destruct (Collector.cost out !! j) as [y|] eqn:Hy.
  2:{ apply lookup_ge_None in Hy. apply lookup_lt_Some in Hc. lia. }
  exists x, y. split; [reflexivity|]. split; [reflexivity|].
  rewrite H1, H2, H3, !decide_False by exact Hnot.
  rewrite !tadd_lookup, Hr, Hc, Hx, Hy, list_lookup_fmap, Hl. simpl.
  assert (length (tadd (ep_ret s) (Collector.reward out)) = length (ep_ret s)) as La
    by (unfold tadd; apply length_zip_with_l_eq; symmetry; exact Hlr).
  assert (length (tadd (ep_cost s) (Collector.cost out)) = length (ep_cost s)) as Lb
    by (unfold tadd; apply length_zip_with_l_eq; symmetry; exact Hlc).
  rewrite L1, L2, La, Lb. auto.
Qed.

End EpisodeRun.

(** X7.  Over any run of consecutive iterations in which a slot neither
    terminates nor is truncated, its running return and cost grow by the
    slot's reward and cost of every iteration and its running length by
    one per iteration, whether or not iterations in between end an epoch:
    an episode's totals run on across epoch boundaries. *)
Theorem episode_totals_span_epochs (outs : list (bool * Collector.EnvStep))
    (j : nat) (s s' : Episodes.Stats) (r c l : Q) :
  (forall ee out, (ee, out) ∈ outs ->
     length (Collector.reward out) = length (Episodes.ep_ret s) /\
     length (Collector.cost out) = length (Episodes.ep_cost s) /\
     zip (Collector.terminated out) (Collector.truncated out) !! j
       = Some (false, false)) ->
  Episodes.ep_ret s !! j = Some r ->
  Episodes.ep_cost s !! j = Some c ->
  Episodes.ep_len s !! j = Some l ->
  Episodes.run outs s = Some s' ->
  Episodes.ep_ret s' !! j
    = Some (foldl Qplus r (Episodes.slot_values Collector.reward j outs)) /\
  Episodes.ep_cost s' !! j
    = Some (foldl Qplus c (Episodes.slot_values Collector.cost j outs)) /\
  Episodes.ep_len s' !! j = Some (foldl (fun a _ => (a + 1)%Q) l outs) /\
  length (Episodes.slot_values Collector.reward j outs) = length outs.
Proof.
  revert s s' r c l.
  induction outs as [|[ee out] outs IH]; intros s s' r c l Hall Hr Hc Hl; simpl.
  - intros [= <-]. auto.
  - destruct (Episodes.step ee out s) as [s1|] eqn:Hs; simpl; [|discriminate].
    intros Hrun.
    destruct (Hall ee out ltac:(apply list_elem_of_here)) as (Hlr & Hlc & Hflag).
    destruct (step_goes_on _ _ _ _ _ _ _ _ Hlr Hlc Hflag Hr Hc Hl Hs)
      as (x & y & Hx & Hy & Hr1 & Hc1 & Hl1 & L1 & L2).
    rewrite Hx, Hy. simpl.
    assert (forall ee' out', (ee', out') ∈ outs ->
              length (Collector.reward out') = length (Episodes.ep_ret s1) /\
              length (Collector.cost out') = length (Episodes.ep_cost s1) /\
              zip (Collector.terminated out') (Collector.truncated out') !! j
                = Some (false, false)) as Hall1.
    { intros ee' out' Hin. rewrite L1, L2. apply (Hall ee' out').
      apply list_elem_of_further. exact Hin. }
    destruct (IH s1 s' _ _ _ Hall1 Hr1 Hc1 Hl1 Hrun) as (E1 & E2 & E3 & E4).
    rewrite E4. auto.
Qed.

Lemma episode_totals_span_epochs_witness :
  let out1 := Collector.mkEnvStep [[0%Q]; [0%Q]] [10%Q; 20%Q] [1%Q; 0%Q]
                [false; true] [false; false] None in
  let out2 := Collector.mkEnvStep [[0%Q]; [0%Q]] [5%Q; 7%Q] [0%Q; 1%Q]
                [false; false] [false; false] None in
  let s := Episodes.mkStats [1%Q; 2%Q] [0%Q; 0%Q] [3%Q; 4%Q] [] [] [] [] true in
  exists s',
    Episodes.run [(true, out1); (false, out2)] s = Some s' /\
    Episodes.ep_ret s' !! 0%nat = Some (1 + 10 + 5)%Q /\
    Episodes.ep_len s' !! 0%nat = Some (3 + 1 + 1)%Q.
Proof.
  intros out1 out2 s.
  destruct (Episodes.run [(true, out1); (false, out2)] s) as [s'|] eqn:Hs;
    [|vm_compute in Hs; discriminate Hs].
  exists s'. split; [reflexivity|].
  destruct (episode_totals_span_epochs [(true, out1); (false, out2)] 0 s s' 1%Q 0%Q 3%Q)
    as (Hr & _ & Hl & _); try reflexivity; [|exact Hs|].
  - intros ee out Hin. apply elem_of_cons in Hin as [Heq|Hin].
    + injection Heq as -> ->. repeat split.
    + apply list_elem_of_singleton in Hin. injection Hin as -> ->. repeat split.
  - split; [exact Hr|exact Hl].
Defined.

(** ** The pass loop as a whole *)

Section PassFacts.
Context {T : Ppo.Torch} {V : Collector.VecEnv} {B : Buffer}.
Import Ppo.

(** Whatever the pass loop returns: it made [k] whole passes, [k] KL
    checks, and stopped short of [todo] only on a KL above the target. *)
Lemma passes_spec (cfg : Config) (old : Params) (data : Batch)
    (loader : nat -> list Minibatch) (todo : nat) :
  forall (pass : nat) (u u' : Update),
    passes cfg old data loader todo pass u = Some u' ->
    exists k : nat,
      (k <= todo)%nat /\
      (0 < todo -> 0 < k)%nat /\
      update_counts u' = (update_counts u + k)%nat /\
      kl_checks (u_log u') = (kl_checks (u_log u) + k)%nat /\
      full_passes cfg loader k pass (u_trainer u) = Some (u_trainer u') /\
      (k = 0%nat -> u' = u) /\
      ((0 < k)%nat ->
       final_kl u' = kl_divergence old
                       (named_values (heap (u_trainer u')) (actor (u_trainer u')))
                       (b_obs data)) /\
      ((k < todo)%nat -> (target_kl cfg < final_kl u')%Q).
Proof.
  induction todo as [|todo IH]; intros pass u u'; simpl.
  - intros [= <-]. exists 0%nat. repeat split; try lia; auto.
  - rewrite minibatches_log.
    destruct (minibatches cfg (u_trainer u) [] (loader pass)) as [[st1 log1]|] eqn:Hmb;
      simpl; [|discriminate].
    set (kl := kl_divergence old (named_values (heap st1) (actor st1)) (b_obs data)).
    assert (kl_checks ((u_log u ++ log1) ++ [KLCheck kl]) = S (kl_checks (u_log u)))
      as Hcount.
    { rewrite !kl_checks_app, (minibatches_kl_checks _ _ _ _ _ Hmb).
      unfold kl_checks at 2. simpl. lia. }
    destruct (Qlt_le_dec (target_kl cfg) kl) as [Hgt|Hle].
    + intros [= <-]. exists 1%nat.
      cbn [update_counts final_kl u_trainer u_log].
      split; [lia|]. split; [lia|]. split; [lia|]. split; [rewrite Hcount; lia|].
      split; [simpl; rewrite Hmb; reflexivity|].
      split; [lia|]. split; [reflexivity|]. intros _. exact Hgt.
    + intros Hp. destruct (IH _ _ _ Hp) as (k & Hk & Hpos & Hc & Hkl & Hfull & H0 & Hf & Hshort).
      cbn [update_counts final_kl u_trainer u_log] in *.
      exists (S k). split; [lia|]. split; [lia|]. split; [lia|].
      split; [rewrite Hkl, Hcount; lia|].
      split; [rewrite (full_passes_step _ _ _ _ _ _ _ Hmb); exact Hfull|].
      split; [lia|]. split.
      * intros _. destruct k as [|k].
        -- rewrite (H0 eq_refl). reflexivity.
        -- apply Hf. lia.
      * intros Hlt. apply Hshort. lia.
Qed.

(** If the KL stays within the target after every one of the [todo]
    passes, the loop makes them all. *)
Lemma passes_all (cfg : Config) (old : Params) (data : Batch)
    (loader : nat -> list Minibatch) (todo : nat) :
  forall (pass : nat) (u : Update),
    (forall j, (1 <= j <= todo)%nat ->
       exists qj, kl_after cfg old data loader j pass (u_trainer u) = Some qj /\
                  (qj <= target_kl cfg)%Q) ->
    exists u',
      passes cfg old data loader todo pass u = Some u' /\
      update_counts u' = (update_counts u + todo)%nat /\
      full_passes cfg loader todo pass (u_trainer u) = Some (u_trainer u') /\
      ((0 < todo)%nat -> (final_kl u' <= target_kl cfg)%Q).
Proof.
  induction todo as [|todo IH]; intros pass u Hbelow.
  - exists u. simpl. repeat split; try lia.
  - remember (full_passes cfg loader (S todo) pass (u_trainer u)) as fp eqn:Hfp.
    simpl.
    destruct (Hbelow 1%nat ltac:(lia)) as (q1 & Hq1 & Hle1).
    destruct (minibatches cfg (u_trainer u) [] (loader pass)) as [[st1 log1]|] eqn:Hmb.
    2: { unfold kl_after in Hq1. simpl in Hq1. rewrite Hmb in Hq1. discriminate. }
    rewrite minibatches_log, Hmb. simpl.
    rewrite (full_passes_step _ _ _ _ _ _ _ Hmb) in Hfp. subst fp.
    set (kl := kl_divergence old (named_values (heap st1) (actor st1)) (b_obs data)).
    assert (kl_after cfg old data loader 1 pass (u_trainer u) = Some kl) as Hkl1
      by (unfold kl_after; simpl; rewrite Hmb; reflexivity).
    rewrite Hkl1 in Hq1. injection Hq1 as Hq1.
    destruct (Qlt_le_dec (target_kl cfg) kl) as [Hgt|Hle].
    { exfalso. rewrite <- Hq1 in Hle1. exact (Qlt_le_absurd _ _ Hgt Hle1). }
    destruct (IH (S pass)
                (mkUpdate st1 (S (update_counts u)) kl
                          ((u_log u ++ log1) ++ [KLCheck kl])))
      as (u' & Hp & Hc & Hfull & Hfin).
    + intros j Hj. destruct (Hbelow (S j) ltac:(lia)) as (qj & Hqj & Hlej).
      exists qj. split; [|exact Hlej]. cbn [u_trainer].
      rewrite <- (kl_after_step _ _ _ _ _ _ _ _ _ Hmb). exact Hqj.
    + exists u'. split; [exact Hp|].
      cbn [update_counts final_kl u_trainer u_log] in *.
      split; [lia|]. split; [exact Hfull|].
      intros _. destruct todo as [|todo].
      * simpl in Hp. injection Hp as <-. exact Hle.
      * apply Hfin. lia.
Qed.
End PassFacts.

(** X8.  Whenever an update returns, the number of passes it made,
    [update_counts] (logged as [Train/StopIter]), is at most
    [learning_iters] and at least 1 unless [learning_iters] is 0; it
    equals the number of KL measurements; the parameters are those left by
    that many whole passes over the minibatches; [final_kl] is the KL
    measured after the last pass (and the initial 1 when no pass was
    made); and fewer passes than [learning_iters] were made only if that
    last KL exceeds [target_kl]. *)
Theorem update_counts_bounds (T : Ppo.Torch) (V : Collector.VecEnv) (B : Buffer)
    (cfg : Ppo.Config) (epoch : nat) (st : Ppo.Trainer) (data : Batch)
    (u : Ppo.Update) :
  Ppo.update cfg epoch st = Some (data, u) ->
  let st1 := Ppo.mkTrainer (Ppo.heap st) (Ppo.actor st) (Ppo.critics st)
               (Ppo.fisher_matrices st) (Ppo.old_params_list st)
               (Ppo.current_task_index st) (Ppo.steps_since_change st)
               (get (Ppo.buffer st)).2 (Ppo.env st) (Ppo.obs st) in
  let k := Ppo.update_counts u in
  (k <= Ppo.learning_iters cfg)%nat /\
  (0 < Ppo.learning_iters cfg -> 0 < k)%nat /\
  Ppo.kl_checks (Ppo.u_log u) = k /\
  Ppo.full_passes cfg (Ppo.dataloader epoch data) k 0 st1 = Some (Ppo.u_trainer u) /\
  (k = 0%nat -> Ppo.final_kl u = 1%Q /\ Ppo.u_trainer u = st1 /\ Ppo.u_log u = []) /\
  ((0 < k)%nat ->
   Ppo.final_kl u =
     Ppo.kl_divergence (Ppo.named_values (Ppo.heap st) (Ppo.actor st))
       (Ppo.named_values (Ppo.heap (Ppo.u_trainer u)) (Ppo.actor (Ppo.u_trainer u)))
       (b_obs data)) /\
  ((k < Ppo.learning_iters cfg)%nat -> (Ppo.target_kl cfg < Ppo.final_kl u)%Q).
Proof.
  unfold Ppo.update. destruct (get (Ppo.buffer st)) as [data' buf] eqn:Hget. simpl.
  destruct (Ppo.passes _ _ _ _ _ _ _) as [u'|] eqn:Hp; simpl; [|discriminate].
  intros [= <- <-].
  destruct (passes_spec _ _ _ _ _ _ _ _ Hp)
    as (k & Hk & Hpos & Hc & Hkl & Hfull & H0 & Hf & Hshort).
  cbn [Ppo.update_counts Ppo.final_kl Ppo.u_trainer Ppo.u_log] in *.
  unfold Ppo.kl_checks in Hkl at 2. simpl in Hkl.
  assert (Ppo.update_counts u' = k) as Hku by lia. rewrite Hku.
  split; [exact Hk|]. split; [exact Hpos|]. split; [exact Hkl|].
  split; [exact Hfull|]. split; [|split].
  - intros Hz. rewrite (H0 Hz). simpl. auto.
  - exact Hf.
  - exact Hshort.
Qed.

Lemma update_counts_bounds_witness :
  let cfg := Toy.config 2 3 in
  let st := Toy.trainer Toy.rewind_buffer cfg (Toy.mkRewind DrainBuffer.cleared false) in
  exists data u,
    Ppo.update (T := Toy.torch) (V := Toy.vec_env) cfg 0 st = Some (data, u) /\
    (Ppo.update_counts u <= Ppo.learning_iters cfg)%nat /\
    Ppo.kl_checks (Ppo.u_log u) = Ppo.update_counts u /\
    ((Ppo.update_counts u < Ppo.learning_iters cfg)%nat ->
     (Ppo.target_kl cfg < Ppo.final_kl u)%Q).
Proof.
  intros cfg st.
  destruct (Ppo.update (T := Toy.torch) (V := Toy.vec_env) cfg 0 st)
    as [[data u]|] eqn:Hu; [|vm_compute in Hu; discriminate Hu].
  exists data, u. split; [reflexivity|].
  destruct (update_counts_bounds Toy.torch Toy.vec_env Toy.rewind_buffer cfg 0 st data u Hu)
    as (H1 & _ & H3 & _ & _ & _ & H7).
  split; [exact H1|]. split; [exact H3|exact H7].
Defined.

(** X9.  If the KL measured after each of the [learning_iters] passes
    stays within [target_kl], the update makes all of them: no early
    stop, [update_counts = learning_iters], and the parameters are those
    left by [learning_iters] whole passes. *)
Theorem update_runs_all_passes (T : Ppo.Torch) (V : Collector.VecEnv) (B : Buffer)
    (cfg : Ppo.Config) (epoch : nat) (st : Ppo.Trainer) :
  let data := (get (Ppo.buffer st)).1 in
  let st1 := Ppo.mkTrainer (Ppo.heap st) (Ppo.actor st) (Ppo.critics st)
               (Ppo.fisher_matrices st) (Ppo.old_params_list st)
               (Ppo.current_task_index st) (Ppo.steps_since_change st)
               (get (Ppo.buffer st)).2 (Ppo.env st) (Ppo.obs st) in
  let old_distribution := Ppo.named_values (Ppo.heap st) (Ppo.actor st) in
  let loader := Ppo.dataloader epoch data in
  (forall j, (1 <= j <= Ppo.learning_iters cfg)%nat ->
     exists qj, Ppo.kl_after cfg old_distribution data loader j 0 st1 = Some qj /\
                (qj <= Ppo.target_kl cfg)%Q) ->
  exists u,
    Ppo.update cfg epoch st = Some (data, u) /\
    Ppo.update_counts u = Ppo.learning_iters cfg /\
    Ppo.full_passes cfg loader (Ppo.learning_iters cfg) 0 st1 = Some (Ppo.u_trainer u) /\
    ((0 < Ppo.learning_iters cfg)%nat -> (Ppo.final_kl u <= Ppo.target_kl cfg)%Q).
Proof.
  intros data st1 old_distribution loader Hbelow.
  destruct (passes_all cfg old_distribution data loader (Ppo.learning_iters cfg) 0
              (Ppo.mkUpdate st1 0 1%Q []) Hbelow) as (u & Hp & Hc & Hfull & Hfin).
  exists u. subst data st1 loader old_distribution. unfold Ppo.update.
  destruct (get (Ppo.buffer st)) as [data' buf]. simpl in *. rewrite Hp. simpl.
  repeat split; assumption.
Qed.

Lemma update_runs_all_passes_witness :
  let cfg := Ppo.mkConfig [0] 1%Q 1 2 3 1 2%Q false in
  let st := Toy.trainer Toy.rewind_buffer cfg (Toy.mkRewind DrainBuffer.cleared false) in
  exists u,
    Ppo.update (T := Toy.torch) (V := Toy.vec_env) cfg 0 st
      = Some ((get (Ppo.buffer st)).1, u) /\
    Ppo.update_counts u = 1%nat /\
    (Ppo.final_kl u <= 2)%Q.
Proof.
  intros cfg st.
  destruct (update_runs_all_passes Toy.torch Toy.vec_env Toy.rewind_buffer cfg 0 st)
    as (u & Hu & Hc & _ & Hf).
  - intros j Hj. assert (j = 1%nat) as -> by (simpl in Hj; lia).
    exists 1%Q. split; [vm_compute; reflexivity|]. discriminate.
  - exists u. split; [exact Hu|]. split; [exact Hc|]. apply Hf. simpl. lia.
Defined.

(** ** When the penalty raises *)

Lemma fold_opt_none {A B} (f : A -> B -> option A) (bad : B -> Prop) :
  (forall a b, f a b = None <-> bad b) ->
  forall (l : list B) (a : A),
    Ppo.fold_opt f a l = None <-> exists b, b ∈ l /\ bad b.
Proof.
  intros Hbad. induction l as [|b l IH]; intros a; simpl.
  - split; [discriminate|]. intros (b & Hb & _). apply elem_of_nil in Hb. contradiction.
  - destruct (f a b) as [a'|] eqn:Hf; simpl.
    + rewrite IH. split.
      * intros (b' & Hin & Hb'). exists b'. split; [right; exact Hin|exact Hb'].
      * intros (b' & Hin & Hb'). apply elem_of_cons in Hin as [->|Hin].
        -- apply Hbad with (a := a) in Hb'. congruence.
        -- exists b'. auto.
    + split; [|reflexivity]. intros _. exists b. split; [left|].
      apply (Hbad a). exact Hf.
Qed.

Lemma fold_opt_inv {A B} (P : A -> Prop) (f : A -> B -> option A) (l : list B) :
  (forall a b a', b ∈ l -> P a -> f a b = Some a' -> P a') ->
  forall a r, P a -> Ppo.fold_opt f a l = Some r -> P r.
Proof.
  induction l as [|b l IH]; intros Hstep a r Ha; simpl.
  - intros [= <-]. exact Ha.
  - destruct (f a b) as [a'|] eqn:Hf; simpl; [|discriminate].
    apply IH.
    + intros a0 b0 a0' Hin. apply Hstep. right. exact Hin.
    + apply (Hstep a b a'); [left|exact Ha|exact Hf].
Qed.

Lemma tsum_nonneg (a : tensor) : nonneg a -> (0 <= tsum a)%Q.
Proof.
  unfold nonneg, tsum. induction 1 as [|x a Hx _ IH]; cbn [foldr].
  - apply Qle_refl.
  - apply (Qle_trans _ (0 + 0)); [discriminate|].
    apply Qplus_le_compat; assumption.
Qed.

Lemma tmul_nonneg (a b : tensor) : nonneg a -> nonneg b -> nonneg (tmul a b).
Proof.
  unfold nonneg, tmul. intros Ha. revert b.
  induction Ha as [|x a Hx Ha IH]; intros b Hb; simpl; [constructor|].
  destruct Hb as [|y b Hy Hb]; [constructor|].
  constructor; [|apply IH; exact Hb].
  apply Qmult_le_0_compat; assumption.
Qed.

Section RecordFacts.
Context {T : Ppo.Torch} {V : Collector.VecEnv} {B : Buffer}.
Import Ppo Records.

Lemma param_penalty_none (h : Heap) (F : Fisher) (o : option Anchor) (acc : Q)
    (np : string * loc) :
  param_penalty h F o acc np = None <->
  (F !! np.1 = None \/ match o with None => True | Some A => A !! np.1 = None end).
Proof.
  unfold param_penalty.
  destruct (F !! np.1) as [f|]; simpl; [|split; auto].
  destruct o as [A|]; simpl; [|split; auto].
  destruct (A !! np.1) as [l|]; simpl.
  - split; [discriminate|]. intros [?|?]; discriminate.
  - split; auto.
Qed.

Lemma task_penalty_raises (h : Heap) (a : list (string * loc)) (acc : Q)
    (rec : option Fisher * option Anchor) :
  task_penalty h a acc rec = None <-> exists np, np ∈ a /\ lookup_raises rec np.
Proof.
  unfold task_penalty, lookup_raises. destruct rec as [[F|] o]; simpl.
  - rewrite (fold_opt_none _ _ (fun acc np => param_penalty_none h F o acc np)).
    split.
    + intros (np & Hin & Hbad). exists np. split; [exact Hin|]. exists F. auto.
    + intros (np & Hin & F' & [= <-] & Hbad). exists np. auto.
  - split; [discriminate|]. intros (np & _ & F & Hf & _). discriminate.
Qed.

Lemma ewc_loss_raises (st : Trainer) :
  ewc_loss st = None <->
  exists rec np,
    rec ∈ zip (fisher_matrices st) (old_params_list st) /\
    np ∈ actor st /\ lookup_raises rec np.
Proof.
  unfold ewc_loss.
  rewrite (fold_opt_none _ _
             (fun acc rec => task_penalty_raises (heap st) (actor st) acc rec)).
  split.
  - intros (rec & Hrec & np & Hnp & Hbad). exists rec, np. auto.
  - intros (rec & np & Hrec & Hnp & Hbad). exists rec. split; [exact Hrec|].
    exists np. auto.
Qed.

Lemma gradient_step_raises (cfg : Config) (st : Trainer) (mb : Minibatch) :
  gradient_step cfg st mb = None <-> ewc_loss st = None.
Proof.
  unfold gradient_step.
  destruct (critic_losses (critics st) mb) as [loss_r loss_c].
  destruct (ewc_loss st) as [ewc|]; simpl.
  - destruct (optimizer_step _ _ _ _ _ _) as [vals critics']. split; discriminate.
  - split; reflexivity.
Qed.

(** *** The sign of the penalty *)

Lemma param_penalty_nonneg (h : Heap) (F : Fisher) (o : option Anchor) (acc q : Q)
    (np : string * loc) :
  (forall name f, F !! name = Some f -> nonneg f) ->
  (0 <= acc)%Q -> param_penalty h F o acc np = Some q -> (0 <= q)%Q.
Proof.
  intros HF Hacc. unfold param_penalty.
  destruct (F !! np.1) as [f|] eqn:Hf; simpl; [|discriminate].
  destruct o as [A|]; simpl; [|discriminate].
  destruct (A !! np.1) as [l|]; simpl; [|discriminate].
  intros [= <-]. apply (Qle_trans _ (0 + 0)); [discriminate|].
  apply Qplus_le_compat; [exact Hacc|].
  apply tsum_nonneg, tmul_nonneg; [exact (HF _ _ Hf)|apply tpow2_nonneg].
Qed.

Lemma ewc_loss_nonneg (st : Trainer) (q : Q) :
  records_nonneg st -> ewc_loss st = Some q -> (0 <= q)%Q.
Proof.
  intros Hnn. unfold ewc_loss.
  apply (fold_opt_inv (fun q => (0 <= q)%Q)); [|apply Qle_refl].
  intros acc [[F|] o] acc' Hin Hacc; unfold task_penalty; simpl.
  - apply list_elem_of_lookup in Hin as (k & Hk).
    rewrite lookup_zip_with in Hk.
    destruct (fisher_matrices st !! k) as [x|] eqn:Hx; simpl in Hk; [|discriminate].
    destruct (old_params_list st !! k) as [y|]; simpl in Hk; [|discriminate].
    injection Hk as -> ->.
    apply (fold_opt_inv (fun q => (0 <= q)%Q)); [|exact Hacc].
    intros a np a' _ Ha. apply param_penalty_nonneg; [|exact Ha].
    intros name f. exact (Hnn k F name f Hx).
  - intros [= <-]. exact Hacc.
Qed.

Lemma records_nonneg_same (st st' : Trainer) :
  fisher_matrices st' = fisher_matrices st -> records_nonneg st -> records_nonneg st'.
Proof. unfold records_nonneg. intros ->. auto. Qed.

Lemma regularizer_nonneg (cfg : Config) (st st' : Trainer) :
  records_nonneg st -> regularizer_epoch_end cfg st = Some st' -> records_nonneg st'.
Proof.
  intros Hnn He. destruct (switch_due cfg st) eqn:Hd.
  - destruct (switch_spec _ _ _ Hd He) as (num & k & k' & _ & Hk & _ & ->).
    intros j F name f. simpl. intros Hj HF.
    destruct (decide (j = k)) as [->|Hne].
    + rewrite list_lookup_insert_eq in Hj by exact (py_index_lt _ _ _ Hk).
      injection Hj as <-. exact (compute_fisher_info_nonneg _ _ _ _ HF).
    + rewrite list_lookup_insert_ne in Hj by congruence.
      exact (Hnn j F name f Hj HF).
  - rewrite (no_switch_spec _ _ _ Hd He). exact Hnn.
Qed.

Lemma epoch_nonneg (cfg : Config) (n : nat) (st st' : Trainer) (b : bool) :
  records_nonneg st -> epoch cfg n st = Some (st', b) -> records_nonneg st'.
Proof.
  intros Hnn. unfold epoch.
  destruct (collect cfg n st) as [st1|] eqn:Hc; simpl; [|discriminate].
  destruct (update cfg n st1) as [[data u]|] eqn:Hu; simpl; [|discriminate].
  destruct (regularizer_epoch_end cfg (schedule (u_trainer u))) as [st3|] eqn:He;
    simpl; [|discriminate].
  intros [= <- _].
  destruct (collect_fields _ _ _ _ Hc) as (_ & _ & _ & Hf1 & _).
  destruct (update_fields _ _ _ _ _ Hu) as (_ & _ & _ & Hf2 & _).
  apply (regularizer_nonneg cfg (schedule (u_trainer u))); [|exact He].
  apply (records_nonneg_same st); [|exact Hnn].
  simpl. rewrite Hf2, Hf1. reflexivity.
Qed.

Lemma training_loop_nonneg (cfg : Config) (todo : nat) :
  forall (n : nat) (st st' : Trainer) (adv adv' : nat),
    records_nonneg st -> training_loop cfg todo n st adv = Some (st', adv') ->
    records_nonneg st'.
Proof.
  induction todo as [|todo IH]; intros n st st' adv adv' Hnn; simpl.
  - intros [= <- _]. exact Hnn.
  - destruct (epoch cfg n st) as [[st1 b]|] eqn:He; simpl; [|discriminate].
    intros Hl. exact (IH _ _ _ _ _ (epoch_nonneg _ _ _ _ _ Hnn He) Hl).
Qed.

Lemma init_nonneg (cfg : Config) (h : Heap) (a : list (string * loc)) (c : Critics)
    (b : Buf) (e : Collector.EnvState) (o : list tensor) :
  records_nonneg (init cfg h a c b e o).
Proof.
  intros k F name f Hk. simpl in Hk. apply lookup_replicate in Hk as [Hk _].
  discriminate.
Qed.

Lemma gradient_step_logged (cfg : Config) (st st' : Trainer) (mb : Minibatch)
    (e : Event) :
  records_nonneg st -> (0 <= lambda_ewc cfg)%Q ->
  gradient_step cfg st mb = Some (st', e) ->
  penalty_logged_nonneg e /\ records_nonneg st'.
Proof.
  intros Hnn Hlam Hg.
  destruct (gradient_step_fields _ _ _ _ _ Hg) as (_ & _ & Hf & _).
  split; [|exact (records_nonneg_same _ _ Hf Hnn)].
  destruct e as [total la le|kl]; [|exact I]. simpl.
  destruct (gradient_step_penalty _ _ _ _ _ _ _ Hg) as (ewc & Hewc & -> & _).
  apply Qmult_le_0_compat; [exact (ewc_loss_nonneg _ _ Hnn Hewc)|exact Hlam].
Qed.

Lemma minibatches_logged (cfg : Config) (mbs : list Minibatch) :
  forall (st st' : Trainer) (log log' : list Event),
    records_nonneg st -> (0 <= lambda_ewc cfg)%Q ->
    Forall penalty_logged_nonneg log ->
    minibatches cfg st log mbs = Some (st', log') ->
    Forall penalty_logged_nonneg log' /\ records_nonneg st'.
Proof.
  induction mbs as [|mb mbs IH]; intros st st' log log' Hnn Hlam Hlog; simpl.
  - intros [= <- <-]. auto.
  - destruct (gradient_step cfg st mb) as [[st1 e]|] eqn:Hg; simpl; [|discriminate].
    destruct (gradient_step_logged _ _ _ _ _ Hnn Hlam Hg) as [He Hnn1].
    apply IH; [exact Hnn1|exact Hlam|].
    apply Forall_app. split; [exact Hlog|]. constructor; [exact He|constructor].
Qed.

Lemma passes_logged (cfg : Config) (old : Params) (data : Batch)
    (loader : nat -> list Minibatch) (todo : nat) :
  forall (pass : nat) (u u' : Update),
    records_nonneg (u_trainer u) -> (0 <= lambda_ewc cfg)%Q ->
    Forall penalty_logged_nonneg (u_log u) ->
    passes cfg old data loader todo pass u = Some u' ->
    Forall penalty_logged_nonneg (u_log u').
Proof.
  induction todo as [|todo IH]; intros pass u u' Hnn Hlam Hlog; simpl.
  - intros [= <-]. exact Hlog.
  - destruct (minibatches cfg (u_trainer u) (u_log u) (loader pass))
      as [[st1 log1]|] eqn:Hm; simpl; [|discriminate].
    destruct (minibatches_logged _ _ _ _ _ _ Hnn Hlam Hlog Hm) as [Hlog1 Hnn1].
    assert (Forall penalty_logged_nonneg
              (log1 ++ [KLCheck (kl_divergence old (named_values (heap st1) (actor st1))
                                   (b_obs data))])) as Hlog2.
    { apply Forall_app. split; [exact Hlog1|]. constructor; [exact I|constructor]. }
    destruct (Qlt_le_dec _ _).
    + intros [= <-]. exact Hlog2.
    + apply IH; assumption.
Qed.
End RecordFacts.

(** X10.  The EWC term that a gradient step logs ([Loss/Loss_ewc]) is
    never negative as long as [lambda_ewc] is not: from the initial state
    on, every stored Fisher record is elementwise non-negative after any
    number of epochs, so the penalty of every later update is a sum of
    non-negative terms. *)
Theorem logged_penalty_nonneg (T : Ppo.Torch) (V : Collector.VecEnv) (B : Buffer)
    (cfg : Ppo.Config) (h : Ppo.Heap) (a : list (string * Ppo.loc)) (c : Ppo.Critics)
    (b : Buf) (e : Collector.EnvState) (o : list tensor)
    (todo n m : nat) (st st1 : Ppo.Trainer) (adv : nat) (data : Batch) (u : Ppo.Update)
    (total loss_actor loss_ewc : Q) :
  (0 <= Ppo.lambda_ewc cfg)%Q ->
  Ppo.training_loop cfg todo n (Ppo.init cfg h a c b e o) 0 = Some (st, adv) ->
  Ppo.collect cfg m st = Some st1 ->
  Ppo.update cfg m st1 = Some (data, u) ->
  Ppo.GradientStep total loss_actor loss_ewc ∈ Ppo.u_log u ->
  (0 <= loss_ewc)%Q.
Proof.
  intros Hlam Hloop Hc Hu Hin.
  pose proof (training_loop_nonneg _ _ _ _ _ _ _ (init_nonneg cfg h a c b e o) Hloop)
    as Hnn.
  destruct (collect_fields _ _ _ _ Hc) as (_ & _ & _ & Hf1 & _).
  pose proof (records_nonneg_same _ _ Hf1 Hnn) as Hnn1.
  unfold Ppo.update in Hu. destruct (get (Ppo.buffer st1)) as [data' buf].
  destruct (Ppo.passes _ _ _ _ _ _ _) as [u'|] eqn:Hp; simpl in Hu; [|discriminate].
  injection Hu as <- <-.
  assert (Forall Records.penalty_logged_nonneg (Ppo.u_log u')) as Hall.
  { refine (passes_logged _ _ _ _ _ _ _ _ _ Hlam _ Hp).
    - exact (records_nonneg_same _ _ eq_refl Hnn1).
    - constructor. }
  rewrite Forall_forall in Hall. exact (Hall _ Hin).
Qed.

Lemma logged_penalty_nonneg_witness :
  let cfg := Toy.config 2 3 in
  exists st adv st1 data u,
    Ppo.training_loop (T := Toy.torch) (V := Toy.vec_env) (B := Toy.rewind_buffer)
      cfg 2 0 (Ppo.init (T := Toy.torch) (V := Toy.vec_env) (B := Toy.rewind_buffer)
                 cfg [[0%Q]] [("w"%string, O)] tt
                 (Toy.mkRewind DrainBuffer.cleared false) O [[5%Q]]) 0
      = Some (st, adv) /\
    Ppo.collect cfg 2 st = Some st1 /\
    Ppo.update cfg 2 st1 = Some (data, u) /\
    Ppo.GradientStep (22 # 4) (-2 # 2) (13 # 2) ∈ Ppo.u_log u /\
    (0 <= 13 # 2)%Q.
Proof.
  intros cfg.
  destruct (Ppo.training_loop (T := Toy.torch) (V := Toy.vec_env)
              (B := Toy.rewind_buffer) cfg 2 0
              (Ppo.init (T := Toy.torch) (V := Toy.vec_env) (B := Toy.rewind_buffer)
                 cfg [[0%Q]] [("w"%string, O)] tt
                 (Toy.mkRewind DrainBuffer.cleared false) O [[5%Q]]) 0)
    as [[st adv]|] eqn:Hloop; [|vm_compute in Hloop; discriminate Hloop].
  pose proof Hloop as Hst. vm_compute in Hst. injection Hst as Hst _.
  destruct (Ppo.collect cfg 2 st) as [st1|] eqn:Hc;
    [|rewrite <- Hst in Hc; vm_compute in Hc; discriminate Hc].
  pose proof Hc as Hst1. rewrite <- Hst in Hst1. vm_compute in Hst1.
  injection Hst1 as Hst1.
  destruct (Ppo.update cfg 2 st1) as [[data u]|] eqn:Hu;
    [|rewrite <- Hst1 in Hu; vm_compute in Hu; discriminate Hu].
  pose proof Hu as Hlog. rewrite <- Hst1 in Hlog. vm_compute in Hlog.
  injection Hlog as _ Hlog.
  assert (Ppo.GradientStep (22 # 4) (-2 # 2) (13 # 2) ∈ Ppo.u_log u) as Hin.
  { rewrite <- Hlog. simpl. do 2 apply list_elem_of_further. apply list_elem_of_here. }
  exists st, adv, st1, data, u.
  split; [reflexivity|]. split; [exact Hc|]. split; [exact Hu|].
  split; [exact Hin|].
  apply (logged_penalty_nonneg Toy.torch Toy.vec_env Toy.rewind_buffer cfg
           [[0%Q]] [("w"%string, O)] tt (Toy.mkRewind DrainBuffer.cleared false)
           O [[5%Q]] 2 0 2 st st1 adv data u (22 # 4) (-2 # 2) (13 # 2));
    [discriminate | exact Hloop | exact Hc | exact Hu | exact Hin].
Defined.

(** X11.  The penalty loop raises exactly when some slot holds a Fisher
    record and, for some actor parameter, the record has no entry under
    the parameter's name ([KeyError]) or the slot's anchor is [None]
    ([TypeError]) or has no entry under that name ([KeyError]); a gradient
    step fails in exactly these cases.  Slots without a record never
    raise. *)
Theorem penalty_raises_iff (T : Ppo.Torch) (V : Collector.VecEnv) (B : Buffer)
    (cfg : Ppo.Config) (st : Ppo.Trainer) (mb : Ppo.Minibatch) :
  (Ppo.ewc_loss st = None <->
   exists rec np,
     rec ∈ zip (Ppo.fisher_matrices st) (Ppo.old_params_list st) /\
     np ∈ Ppo.actor st /\ Records.lookup_raises rec np) /\
  (Ppo.gradient_step cfg st mb = None <-> Ppo.ewc_loss st = None).
Proof. split; [apply ewc_loss_raises|apply gradient_step_raises]. Qed.

Section EmptyRecord.
Context {T : Ppo.Torch} {V : Collector.VecEnv} {B : Buffer}.
Import Ppo Records.

Lemma compute_fisher_info_no_pairs (data : Batch) (params : Params) :
  zip (b_obs data) (b_act data) = [] -> compute_fisher_info data params = ∅.
Proof.
  intros Hz. unfold compute_fisher_info. rewrite Hz. simpl. apply fmap_empty.
Qed.

Lemma zip_insert_lookup {X Y} (l : list X) (k' : list Y) (i : nat) (x : X) (y : Y) :
  (i < length l)%nat -> (i < length k')%nat ->
  zip (<[i := x]> l) (<[i := y]> k') !! i = Some (x, y).
Proof.
  intros Hl Hk. rewrite lookup_zip_with.
  rewrite !list_lookup_insert_eq by assumption. reflexivity.
Qed.

Lemma update_raises (cfg : Config) (n : nat) (st : Trainer) :
  ewc_loss st = None -> (0 < learning_iters cfg)%nat ->
  dataloader n (get (buffer st)).1 0 <> [] ->
  update cfg n st = None.
Proof.
  intros Hewc Hiters Hmbs. unfold update.
  destruct (get (buffer st)) as [data buf]. simpl in *.
  destruct (learning_iters cfg) as [|k]; [lia|].
  destruct (dataloader n data 0) as [|mb mbs] eqn:Hl; [congruence|].
  simpl. rewrite Hl. simpl.
  assert (gradient_step cfg
            (mkTrainer (heap st) (actor st) (critics st) (fisher_matrices st)
               (old_params_list st) (current_task_index st) (steps_since_change st)
               buf (env st) (obs st)) mb = None) as ->; [|reflexivity].
  apply gradient_step_raises. rewrite <- Hewc. apply ewc_loss_ext; reflexivity.
Qed.
End EmptyRecord.

(** X12.  A task switch taken when the drained buffer yields no
    (observation, action) pair stores an empty Fisher record; if the actor
    has at least one parameter, the penalty loop then raises [KeyError],
    so every gradient step fails and the next epoch's update, if it has a
    minibatch to process, aborts the training. *)
Theorem empty_record_breaks_training (T : Ppo.Torch) (V : Collector.VecEnv)
    (B : Buffer) (cfg : Ppo.Config) (st st' : Ppo.Trainer) :
  length (Ppo.fisher_matrices st) = length (Ppo.old_params_list st) ->
  Ppo.actor st <> [] ->
  Ppo.switch_due cfg st = true ->
  Ppo.regularizer_epoch_end cfg st = Some st' ->
  zip (b_obs (get (Ppo.buffer st)).1) (b_act (get (Ppo.buffer st)).1) = [] ->
  Ppo.ewc_loss st' = None /\
  (forall mb, Ppo.gradient_step cfg st' mb = None) /\
  (forall n st1,
     Ppo.collect cfg n st' = Some st1 ->
     (0 < Ppo.learning_iters cfg)%nat ->
     Ppo.dataloader n (get (Ppo.buffer st1)).1 0 <> [] ->
     Ppo.update cfg n st1 = None).
Proof.
  intros Hlen Hactor Hd He Hz.
  destruct (switch_spec _ _ _ Hd He) as (num & k & k' & _ & Hk & Hk' & ->).
  assert (k' = k) as -> by (rewrite <- Hlen, Hk in Hk'; congruence).
  pose proof (py_index_lt _ _ _ Hk) as Hlt.
  rewrite (compute_fisher_info_no_pairs _ _ Hz).
  match goal with |- Ppo.ewc_loss ?s = None /\ _ => set (st' := s) end.
  assert (Ppo.ewc_loss st' = None) as Hewc.
  { apply ewc_loss_raises.
    assert (exists np, np ∈ Ppo.actor st) as [np Hnp]
      by (destruct (Ppo.actor st) as [|np a]; [congruence|exists np; left]).
    exists (Some ∅, Some (Ppo.save_old_params (Ppo.heap st) (Ppo.actor st)).2), np.
    split; [|split].
    - subst st'. simpl.
      apply (list_elem_of_lookup_2 _ k), zip_insert_lookup; [exact Hlt|].
      rewrite <- Hlen. exact Hlt.
    - exact Hnp.
    - exists ∅. split; [reflexivity|]. left. apply lookup_empty. }
  split; [exact Hewc|]. split.
  - intros mb. apply gradient_step_raises. exact Hewc.
  - intros n st1 Hc Hiters Hmbs. apply update_raises; [|exact Hiters|exact Hmbs].
    rewrite <- Hewc.
    destruct (collect_fields _ _ _ _ Hc) as (Hh & Ha & _ & Hf & Ho & _).
    apply ewc_loss_ext; assumption.
Qed.

Section CompleteRecords.
Context {T : Ppo.Torch} {V : Collector.VecEnv} {B : Buffer}.
Import Ppo Records.

Lemma complete_no_raise (st : Trainer) :
  records_complete st -> exists q, ewc_loss st = Some q.
Proof.
  intros Hc. destruct (ewc_loss st) as [q|] eqn:He; [exists q; reflexivity|].
  apply ewc_loss_raises in He as (rec & np & Hrec & Hnp & Hbad).
  exfalso. exact (Hc rec np Hrec Hnp Hbad).
Qed.

Lemma switch_complete (cfg : Config) (st st' : Trainer) :
  wf st -> records_complete st ->
  switch_due cfg st = true ->
  regularizer_epoch_end cfg st = Some st' ->
  zip (b_obs (get (buffer st)).1) (b_act (get (buffer st)).1) <> [] ->
  records_complete st'.
Proof.
  intros Hwf Hc Hd He Hrows.
  destruct (switch_spec _ _ _ Hd He) as (num & k & k' & _ & Hk & Hk' & ->).
  assert (k' = k) as -> by (rewrite <- (wf_lists _ Hwf), Hk in Hk'; congruence).
  pose proof (py_index_lt _ _ _ Hk) as Hlt.
  intros rec [name l] Hrec Hnp. simpl in Hrec, Hnp.
  apply list_elem_of_lookup in Hrec as (i & Hi).
  destruct (decide (i = k)) as [->|Hne].
  - rewrite zip_insert_lookup in Hi
      by (try exact Hlt; rewrite <- (wf_lists _ Hwf); exact Hlt).
    injection Hi as <-. intros (F & [= <-] & Hbad). simpl in Hbad.
    destruct Hbad as [Hbad|Hbad].
    + rewrite compute_fisher_info_lookup in Hbad.
      * assert (is_Some (sum_squares
                           (map (fun oa => grad_log_prob
                                             (named_values (heap st) (actor st))
                                             oa.1 oa.2 name)
                                (zip (b_obs (get (buffer st)).1)
                                     (b_act (get (buffer st)).1))))) as [f Hf].
        { apply sum_squares_some. intros Hnil. apply map_eq_nil in Hnil.
          exact (Hrows Hnil). }
        rewrite Hf in Hbad. discriminate.
      * rewrite named_values_names. exact (wf_names _ Hwf).
      * rewrite named_values_names. apply list_elem_of_fmap.
        exists (name, l). split; [reflexivity|exact Hnp].
    + destruct (snapshot_values _ _ _ _ (wf_names _ Hwf) (wf_live _ Hwf) Hnp)
        as (l' & Hl' & _). rewrite Hl' in Hbad. discriminate.
  - rewrite lookup_zip_with in Hi.
    rewrite !list_lookup_insert_ne in Hi by congruence.
    apply (Hc rec (name, l)); [|exact Hnp].
    apply (list_elem_of_lookup_2 _ i). rewrite lookup_zip_with. exact Hi.
Qed.
End CompleteRecords.

(** X13.  If no lookup of the penalty can raise before a task switch,
    and the batch drained at the switch holds at least one (observation,
    action) pair, none can raise after it: the new record and the new
    anchor have an entry for every actor parameter, so the penalty is
    defined and every gradient step succeeds. *)
Theorem complete_records_never_raise (T : Ppo.Torch) (V : Collector.VecEnv)
    (B : Buffer) (cfg : Ppo.Config) (st st' : Ppo.Trainer) :
  Ppo.wf st -> Records.records_complete st ->
  Ppo.switch_due cfg st = true ->
  Ppo.regularizer_epoch_end cfg st = Some st' ->
  zip (b_obs (get (Ppo.buffer st)).1) (b_act (get (Ppo.buffer st)).1) <> [] ->
  Records.records_complete st' /\
  (exists q, Ppo.ewc_loss st' = Some q) /\
  (forall mb, exists r, Ppo.gradient_step cfg st' mb = Some r).
Proof.
  intros Hwf Hc Hd He Hrows.
  pose proof (switch_complete _ _ _ Hwf Hc Hd He Hrows) as Hc'.
  split; [exact Hc'|]. split; [exact (complete_no_raise _ Hc')|].
  intros mb. destruct (Ppo.gradient_step cfg st' mb) as [r|] eqn:Hg; [exists r; reflexivity|].
  apply gradient_step_raises in Hg.
  destruct (complete_no_raise _ Hc') as (q & Hq). congruence.
Qed.

(** ** Index errors at a task switch *)

Lemma py_index_none (n : nat) (i : Z) :
  py_index n i = None <-> ~ (- Z.of_nat n <= i < Z.of_nat n).
Proof.
  unfold py_index. repeat case_decide; split; try discriminate; try lia; reflexivity.
Qed.

Lemma py_getitem_none {A} (l : list A) (i : Z) :
  py_getitem l i = None <-> ~ (- Z.of_nat (length l) <= i < Z.of_nat (length l)).
Proof.
  rewrite <- py_index_none. unfold py_getitem.
  destruct (py_index (length l) i) as [k|] eqn:Hk; simpl; [|split; reflexivity].
  apply py_index_lt in Hk. apply lookup_lt_is_Some in Hk as [x ->].
  split; discriminate.
Qed.

(** X14.  The end of an epoch raises only at a task switch, and then
    exactly when [current_task_index] is no valid index of [tasks] or the
    task id found there is no valid index of [fisher_matrices] or of
    [old_params_list]; a valid index of a list of length [n] is any
    integer in [-n, n), negative ones counting from the end.  A malformed
    [tasks] is therefore not noticed before the first switch that reads
    the offending entry. *)
Theorem switch_raises_iff (T : Ppo.Torch) (V : Collector.VecEnv) (B : Buffer)
    (cfg : Ppo.Config) (st : Ppo.Trainer) :
  let valid (n : nat) (i : Z) := - Z.of_nat n <= i < Z.of_nat n in
  Ppo.regularizer_epoch_end cfg st = None <->
  Ppo.switch_due cfg st = true /\
  (~ valid (Ppo.num_tasks cfg) (Ppo.current_task_index st) \/
   exists num,
     py_getitem (Ppo.tasks cfg) (Ppo.current_task_index st) = Some num /\
     (~ valid (length (Ppo.fisher_matrices st)) num \/
      ~ valid (length (Ppo.old_params_list st)) num)).
Proof.
  intros valid. unfold Ppo.regularizer_epoch_end.
  destruct (Ppo.switch_due cfg st).
  2:{ split; [discriminate|]. intros [? _]. discriminate. }
  destruct (py_getitem (Ppo.tasks cfg) (Ppo.current_task_index st)) as [num|] eqn:Hnum;
    simpl.
  - destruct (get (Ppo.buffer st)) as [data buf].
    destruct (Ppo.save_old_params (Ppo.heap st) (Ppo.actor st)) as [h anchor].
    unfold py_setitem.
    destruct (py_index (length (Ppo.fisher_matrices st)) num) as [k|] eqn:Hk; simpl.
    + destruct (py_index (length (Ppo.old_params_list st)) num) as [k'|] eqn:Hk'; simpl.
      * split; [discriminate|]. intros [_ [Hbad|(num' & [= <-] & [Hbad|Hbad])]].
        -- apply py_getitem_none in Hbad. unfold Ppo.num_tasks in Hbad. congruence.
        -- apply py_index_none in Hbad. congruence.
        -- apply py_index_none in Hbad. congruence.
      * split; [|reflexivity]. intros _. split; [reflexivity|]. right.
        exists num. split; [reflexivity|]. right. apply py_index_none. exact Hk'.
    + split; [|reflexivity]. intros _. split; [reflexivity|]. right.
      exists num. split; [reflexivity|]. left. apply py_index_none. exact Hk.
  - split; [|reflexivity]. intros _. split; [reflexivity|]. left.
    apply py_getitem_none in Hnum. exact Hnum.
Qed.

(** A state at the end of an epoch of the small instance, with the
    switch due and nothing stored yet. *)
Lemma toy_switch_state_wf (B : Buffer) (b : Buf) :
  Ppo.wf (Ppo.mkTrainer (T := Toy.torch) (V := Toy.vec_env) (B := B)
            [[0%Q]] [("w"%string, O)] tt [None] [None] 0 2 b O [[5%Q]]).
Proof.
  split; simpl.
  - apply NoDup_singleton.
  - intros np Hnp. apply list_elem_of_singleton in Hnp as ->. simpl. lia.
  - reflexivity.
  - intros k a name l' Hk. destruct k as [|k]; simpl in Hk; discriminate.
Qed.

Lemma toy_switch_state_complete (B : Buffer) (b : Buf) :
  Records.records_complete
    (Ppo.mkTrainer (T := Toy.torch) (V := Toy.vec_env) (B := B)
       [[0%Q]] [("w"%string, O)] tt [None] [None] 0 2 b O [[5%Q]]).
Proof.
  intros rec np Hrec _ (F & HF & _). simpl in Hrec.
  apply list_elem_of_singleton in Hrec as ->. discriminate.
Qed.

Lemma empty_record_breaks_training_witness :
  let cfg := Toy.config 2 3 in
  let st := Ppo.mkTrainer (T := Toy.torch) (V := Toy.vec_env) (B := Toy.drain_buffer)
              [[0%Q]] [("w"%string, O)] tt [None] [None] 0 2
              DrainBuffer.cleared O [[5%Q]] in
  exists st',
    Ppo.regularizer_epoch_end cfg st = Some st' /\
    Ppo.ewc_loss st' = None /\
    (forall mb, Ppo.gradient_step cfg st' mb = None).
Proof.
  intros cfg st.
  destruct (Ppo.regularizer_epoch_end cfg st) as [st'|] eqn:He;
    [|vm_compute in He; discriminate He].
  exists st'. split; [reflexivity|].
  destruct (empty_record_breaks_training Toy.torch Toy.vec_env Toy.drain_buffer
              cfg st st') as (H1 & H2 & _);
    [reflexivity | discriminate | reflexivity | exact He | reflexivity |].
  split; [exact H1|exact H2].
Defined.

Lemma complete_records_never_raise_witness :
  let cfg := Toy.config 2 3 in
  let row := mkTransition [[1%Q]] [[1%Q]] [1%Q] [0%Q] [2%Q] [2%Q] [0%Q] in
  let st := Ppo.mkTrainer (T := Toy.torch) (V := Toy.vec_env) (B := Toy.rewind_buffer)
              [[0%Q]] [("w"%string, O)] tt [None] [None] 0 2
              (Toy.mkRewind (DrainBuffer.mkStorage [row] []) false) O [[5%Q]] in
  exists st',
    Ppo.regularizer_epoch_end cfg st = Some st' /\
    Records.records_complete st' /\
    exists q, Ppo.ewc_loss st' = Some q.
Proof.
  intros cfg row st.
  destruct (Ppo.regularizer_epoch_end cfg st) as [st'|] eqn:He;
    [|vm_compute in He; discriminate He].
  exists st'. split; [reflexivity|].
  destruct (complete_records_never_raise Toy.torch Toy.vec_env Toy.rewind_buffer
              cfg st st') as (H1 & H2 & _).
  - apply toy_switch_state_wf.
  - apply toy_switch_state_complete.
  - reflexivity.
  - exact He.
  - discriminate.
  - split; [exact H1|exact H2].
Defined.

(** ** The shape of the regularizer's state *)

Section SizedFacts.
Context {T : Ppo.Torch} {V : Collector.VecEnv} {B : Buffer}.
Import Ppo Records.

Lemma regularizer_sized (cfg : Config) (st st' : Trainer) :
  sized cfg st -> paired st ->
  regularizer_epoch_end cfg st = Some st' ->
  sized cfg st' /\ paired st'.
Proof.
  intros (Hf & Ho & Hi) Hp He. destruct (switch_due cfg st) eqn:Hd.
  - destruct (switch_spec _ _ _ Hd He) as (num & k & k' & Hnum & Hk & Hk' & ->).
    assert (k' = k) as -> by (rewrite Ho, <- Hf, Hk in Hk'; congruence).
    pose proof (py_index_lt _ _ _ Hk) as Hlt.
    assert (0 < Z.of_nat (num_tasks cfg)) as Hpos by (rewrite <- Hf; lia).
    split.
    + unfold sized. simpl. rewrite !length_insert.
      split; [exact Hf|]. split; [exact Ho|]. right.
      apply Z.mod_pos_bound. exact Hpos.
    + intros j. simpl. destruct (decide (j = k)) as [->|Hne].
      * rewrite !list_lookup_insert_eq by (try exact Hlt; rewrite Ho, <- Hf; exact Hlt).
        split; discriminate.
      * rewrite !list_lookup_insert_ne by congruence. apply Hp.
  - rewrite (no_switch_spec _ _ _ Hd He). split; [|exact Hp].
    unfold sized. simpl. auto.
Qed.

Lemma epoch_sized (cfg : Config) (n : nat) (st st' : Trainer) (b : bool) :
  sized cfg st -> paired st -> epoch cfg n st = Some (st', b) ->
  sized cfg st' /\ paired st'.
Proof.
  intros Hs Hp. unfold epoch.
  destruct (collect cfg n st) as [st1|] eqn:Hc; simpl; [|discriminate].
  destruct (update cfg n st1) as [[data u]|] eqn:Hu; simpl; [|discriminate].
  destruct (regularizer_epoch_end cfg (schedule (u_trainer u))) as [st3|] eqn:He;
    simpl; [|discriminate].
  intros [= <- _].
  destruct (collect_fields _ _ _ _ Hc) as (_ & _ & _ & Hf1 & Ho1 & Hi1 & _).
  destruct (update_fields _ _ _ _ _ Hu) as (_ & _ & _ & Hf2 & Ho2 & Hi2 & _).
  apply (regularizer_sized cfg (schedule (u_trainer u))); [| |exact He].
  - unfold sized in *. simpl. rewrite Hf2, Ho2, Hi2, Hf1, Ho1, Hi1. exact Hs.
  - unfold paired in *. simpl. rewrite Hf2, Ho2, Hf1, Ho1. exact Hp.
Qed.

Lemma training_loop_sized (cfg : Config) (todo : nat) :
  forall (n : nat) (st st' : Trainer) (adv adv' : nat),
    sized cfg st -> paired st ->
    training_loop cfg todo n st adv = Some (st', adv') ->
    sized cfg st' /\ paired st'.
Proof.
  induction todo as [|todo IH]; intros n st st' adv adv' Hs Hp; simpl.
  - intros [= <- _]. auto.
  - destruct (epoch cfg n st) as [[st1 b]|] eqn:He; simpl; [|discriminate].
    intros Hl. destruct (epoch_sized _ _ _ _ _ Hs Hp He) as [Hs1 Hp1].
    exact (IH _ _ _ _ _ Hs1 Hp1 Hl).
Qed.

Lemma init_sized (cfg : Config) (h : Heap) (a : list (string * loc)) (c : Critics)
    (b : Buf) (e : Collector.EnvState) (o : list tensor) :
  sized cfg (init cfg h a c b e o) /\ paired (init cfg h a c b e o).
Proof.
  split.
  - unfold sized. simpl. rewrite !length_replicate. auto.
  - intros k. simpl.
    split; intros Hk; apply lookup_replicate in Hk as [_ Hk];
      apply lookup_replicate; auto.
Qed.
End SizedFacts.

(** X15.  After any number of epochs from the initial state, the two
    lists [fisher_matrices] and [old_params_list] still have one slot per
    entry of [tasks]; a slot holds a Fisher record exactly when it holds
    an anchor; and [current_task_index] is a valid non-negative index of
    [tasks] unless [tasks] is empty, so the lookup [tasks[current_task_index]]
    of a task switch cannot fail on a non-empty task list. *)
Theorem training_keeps_shape (T : Ppo.Torch) (V : Collector.VecEnv) (B : Buffer)
    (cfg : Ppo.Config) (h : Ppo.Heap) (a : list (string * Ppo.loc)) (c : Ppo.Critics)
    (b : Buf) (e : Collector.EnvState) (o : list tensor)
    (todo n : nat) (st : Ppo.Trainer) (adv : nat) :
  Ppo.training_loop cfg todo n (Ppo.init cfg h a c b e o) 0 = Some (st, adv) ->
  length (Ppo.fisher_matrices st) = Ppo.num_tasks cfg /\
  length (Ppo.old_params_list st) = Ppo.num_tasks cfg /\
  (forall k, Ppo.fisher_matrices st !! k = Some None <->
             Ppo.old_params_list st !! k = Some None) /\
  0 <= Ppo.current_task_index st /\
  (Ppo.tasks cfg <> [] ->
   Ppo.current_task_index st < Z.of_nat (Ppo.num_tasks cfg) /\
   exists num, py_getitem (Ppo.tasks cfg) (Ppo.current_task_index st) = Some num).
Proof.
  intros Hloop.
  destruct (init_sized cfg h a c b e o) as [Hs0 Hp0].
  destruct (training_loop_sized _ _ _ _ _ _ _ Hs0 Hp0 Hloop) as [(Hf & Ho & Hi) Hp].
  split; [exact Hf|]. split; [exact Ho|]. split; [exact Hp|]. split; [lia|].
  intros Hne.
  assert (0 < Z.of_nat (Ppo.num_tasks cfg)) as Hpos.
  { unfold Ppo.num_tasks. destruct (Ppo.tasks cfg); [congruence|]. simpl. lia. }
  assert (0 <= Ppo.current_task_index st < Z.of_nat (Ppo.num_tasks cfg)) as Hr by lia.
  split; [lia|].
  destruct (py_getitem (Ppo.tasks cfg) (Ppo.current_task_index st)) as [num|] eqn:Hg;
    [exists num; reflexivity|].
  apply py_getitem_none in Hg. unfold Ppo.num_tasks in Hr. lia.
Qed.

Lemma training_keeps_shape_witness :
  let cfg := Toy.config 2 3 in
  exists st adv,
    Ppo.training_loop (T := Toy.torch) (V := Toy.vec_env) (B := Toy.rewind_buffer)
      cfg 2 0 (Ppo.init (T := Toy.torch) (V := Toy.vec_env) (B := Toy.rewind_buffer)
                 cfg [[0%Q]] [("w"%string, O)] tt
                 (Toy.mkRewind DrainBuffer.cleared false) O [[5%Q]]) 0
      = Some (st, adv) /\
    length (Ppo.fisher_matrices st) = 1%nat /\
    0 <= Ppo.current_task_index st.
Proof.
  intros cfg.
  destruct (Ppo.training_loop (T := Toy.torch) (V := Toy.vec_env)
              (B := Toy.rewind_buffer) cfg 2 0
              (Ppo.init (T := Toy.torch) (V := Toy.vec_env) (B := Toy.rewind_buffer)
                 cfg [[0%Q]] [("w"%string, O)] tt
                 (Toy.mkRewind DrainBuffer.cleared false) O [[5%Q]]) 0)
    as [[st adv]|] eqn:Hloop; [|vm_compute in Hloop; discriminate Hloop].
  exists st, adv. split; [reflexivity|].
  destruct (training_keeps_shape Toy.torch Toy.vec_env Toy.rewind_buffer cfg
              [[0%Q]] [("w"%string, O)] tt (Toy.mkRewind DrainBuffer.cleared false)
              O [[5%Q]] 2 0 st adv Hloop) as (Hf & _ & _ & Hi & _).
  split; [exact Hf|exact Hi].
Defined.

(** ** The evaluation loop *)

Section EvalFacts.
Context {V : Collector.VecEnv}.
Variable act : bool -> list tensor -> list tensor.
Import Eval.

(** The loop is left at the first answer that sets [eval_done], with
    every answer up to it added to the totals. *)
Lemma loop_done (det : bool) (fuel : nat) :
  forall (env : Collector.EnvState) (ob : list tensor) (tot : Totals) (r : State),
    loop act det fuel (env, ob, tot) = Done r <->
    exists k : nat,
      (k < fuel)%nat /\
      (forall i out, (i < k)%nat ->
         (Eval.trace act det (S k) (env, ob)).2 !! i = Some out ->
         eval_done out = Some false) /\
      (exists out, (Eval.trace act det (S k) (env, ob)).2 !! k = Some out /\
                   eval_done out = Some true) /\
      Ppo.fold_opt num_iadd (eval_rew tot)
        (map Collector.reward (Eval.trace act det (S k) (env, ob)).2)
        = Some (eval_rew r.2) /\
      Ppo.fold_opt num_iadd (eval_cost tot)
        (map Collector.cost (Eval.trace act det (S k) (env, ob)).2)
        = Some (eval_cost r.2) /\
      eval_len r.2 = Nat.iter (S k) (fun x => (x + 1)%Q) (eval_len tot) /\
      r.1 = (Eval.trace act det (S k) (env, ob)).1.
Proof.
  induction fuel as [|fuel IH]; intros env ob tot r.
  - simpl. split; [discriminate|]. intros (k & Hk & _). lia.
  - cbn [loop]. unfold body.
    destruct (Collector.env_step env (act det ob)) as [env' out] eqn:Hstep.
    assert (forall k, Eval.trace act det (S k) (env, ob) =
                      ((Eval.trace act det k (env', Collector.next_obs out)).1,
                       out :: (Eval.trace act det k (env', Collector.next_obs out)).2))
      as Htr.
    { intros k. cbn [Eval.trace fst snd]. rewrite Hstep.
      destruct (Eval.trace act det k (env', Collector.next_obs out)); reflexivity. }
    destruct (num_iadd (eval_rew tot) (Collector.reward out)) as [rew|] eqn:Hrew;
      cbn [mbind option_bind].
    2:{ split; [discriminate|]. intros (k & _ & _ & _ & Hf & _).
        rewrite Htr in Hf. cbn [snd map Ppo.fold_opt] in Hf. rewrite Hrew in Hf.
        discriminate. }
    destruct (num_iadd (eval_cost tot) (Collector.cost out)) as [cst|] eqn:Hcst;
      cbn [mbind option_bind].
    2:{ split; [discriminate|]. intros (k & _ & _ & _ & _ & Hf & _).
        rewrite Htr in Hf. cbn [snd map Ppo.fold_opt] in Hf. rewrite Hcst in Hf.
        discriminate. }
    destruct (eval_done out) as [[|]|] eqn:Hd; cbn [mbind option_bind].
    + (* the first answer ends the episode *)
      split.
      * intros [= <-]. exists 0%nat. split; [lia|].
        split; [intros i o Hi; lia|].
        rewrite Htr. cbn [Eval.trace fst snd map Ppo.fold_opt lookup list_lookup].
        rewrite Hrew, Hcst. cbn [mbind option_bind].
        split; [exists out; auto|]. repeat split; reflexivity.
      * intros (k & _ & Hbefore & _ & Hr & Hc & Hl & Hs).
        destruct k as [|k].
        -- rewrite Htr in Hr, Hc, Hs.
           cbn [Eval.trace fst snd map Ppo.fold_opt] in Hr, Hc, Hs.
           rewrite Hrew in Hr. rewrite Hcst in Hc. cbn [mbind option_bind] in Hr, Hc.
           injection Hr as Hr. injection Hc as Hc. simpl in Hl.
           destruct r as [[env1 ob1] [rew1 cst1 len1]]. simpl in *. subst.
           injection Hs as -> ->. reflexivity.
        -- specialize (Hbefore 0%nat out ltac:(lia)). rewrite Htr in Hbefore.
           specialize (Hbefore eq_refl). congruence.
    + (* the episode goes on *)
      rewrite IH. cbn [eval_rew eval_cost eval_len].
      split.
      * intros (k & Hk & Hbefore & (o & Ho & Hod) & Hr & Hc & Hl & Hs).
        exists (S k). split; [lia|]. rewrite (Htr (S k)). cbn [fst snd].
        split.
        { intros i o' Hi. destruct i as [|i]; cbn [lookup list_lookup].
          - intros [= <-]. exact Hd.
          - apply Hbefore. lia. }
        split; [exists o; split; [exact Ho|exact Hod]|].
        cbn [map Ppo.fold_opt]. rewrite Hrew, Hcst. cbn [mbind option_bind].
        split; [exact Hr|]. split; [exact Hc|]. split; [|exact Hs].
        rewrite Hl. rewrite !Nat.iter_succ_r. reflexivity.
      * intros (k & Hk & Hbefore & (o & Ho & Hod) & Hr & Hc & Hl & Hs).
        destruct k as [|k].
        { rewrite Htr in Ho. cbn [snd lookup list_lookup] in Ho.
          injection Ho as <-. congruence. }
        rewrite (Htr (S k)) in Hbefore, Ho, Hr, Hc, Hs. cbn [fst snd] in *.
        cbn [map Ppo.fold_opt] in Hr, Hc. rewrite Hrew in Hr. rewrite Hcst in Hc.
        cbn [mbind option_bind] in Hr, Hc.
        exists k. split; [lia|].
        split; [intros i o' Hi Hl'; apply (Hbefore (S i) o'); [lia|exact Hl']|].
        split; [exists o; split; [exact Ho|exact Hod]|].
        split; [exact Hr|]. split; [exact Hc|]. split; [|exact Hs].
        rewrite Hl. rewrite !Nat.iter_succ_r. reflexivity.
    + split; [discriminate|].
      intros (k & _ & Hbefore & (o & Ho & Hod) & _).
      destruct k as [|k].
      * rewrite Htr in Ho. cbn [snd lookup list_lookup] in Ho.
        injection Ho as <-. congruence.
      * specialize (Hbefore 0%nat out ltac:(lia)). rewrite Htr in Hbefore.
        specialize (Hbefore eq_refl). congruence.
Qed.

(** It is still running exactly when no answer so far has set
    [eval_done] and every answer could be added to the totals. *)
Lemma loop_running (det : bool) (fuel : nat) :
  forall (env : Collector.EnvState) (ob : list tensor) (tot : Totals),
    loop act det fuel (env, ob, tot) = Running <->
    (forall out, out ∈ (Eval.trace act det fuel (env, ob)).2 ->
                 eval_done out = Some false) /\
    is_Some (Ppo.fold_opt num_iadd (eval_rew tot)
               (map Collector.reward (Eval.trace act det fuel (env, ob)).2)) /\
    is_Some (Ppo.fold_opt num_iadd (eval_cost tot)
               (map Collector.cost (Eval.trace act det fuel (env, ob)).2)).
Proof.
  induction fuel as [|fuel IH]; intros env ob tot.
  - simpl. split; [|reflexivity]. intros _.
    split; [intros out Hin; apply elem_of_nil in Hin; contradiction|].
    split; eexists; reflexivity.
  - cbn [loop]. unfold body.
    destruct (Collector.env_step env (act det ob)) as [env' out] eqn:Hstep.
    assert (Eval.trace act det (S fuel) (env, ob) =
            ((Eval.trace act det fuel (env', Collector.next_obs out)).1,
             out :: (Eval.trace act det fuel (env', Collector.next_obs out)).2))
      as ->.
    { cbn [Eval.trace fst snd]. rewrite Hstep.
      destruct (Eval.trace act det fuel (env', Collector.next_obs out)); reflexivity. }
    cbn [fst snd map Ppo.fold_opt].
    destruct (num_iadd (eval_rew tot) (Collector.reward out)) as [rew|] eqn:Hrew;
      cbn [mbind option_bind].
    2:{ split; [discriminate|]. intros (_ & [x Hx] & _). discriminate. }
    destruct (num_iadd (eval_cost tot) (Collector.cost out)) as [cst|] eqn:Hcst;
      cbn [mbind option_bind].
    2:{ split; [discriminate|]. intros (_ & _ & [x Hx]). discriminate. }
    destruct (eval_done out) as [[|]|] eqn:Hd; cbn [mbind option_bind].
    + split; [discriminate|]. intros (Hall & _).
      specialize (Hall out ltac:(left)). congruence.
    + rewrite IH. cbn [eval_rew eval_cost]. split.
      * intros (Hall & Hr & Hc). split; [|auto].
        intros o Ho. apply elem_of_cons in Ho as [->|Ho]; [exact Hd|exact (Hall o Ho)].
      * intros (Hall & Hr & Hc). split; [|auto].
        intros o Ho. apply Hall. right. exact Ho.
    + split; [discriminate|]. intros (Hall & _).
      specialize (Hall out ltac:(left)). congruence.
Qed.

Lemma iter_len (k : nat) (x : Q) :
  (Nat.iter k (fun y => (y + 1)%Q) x == x + inject_Z (Z.of_nat k))%Q.
Proof.
  induction k as [|k IH].
  - simpl. unfold inject_Z. ring.
  - rewrite Nat.iter_succ, IH, Nat2Z.inj_succ. unfold Z.succ.
    rewrite inject_Z_plus. ring.
Qed.
End EvalFacts.

(** X16.  An evaluation episode leaves its [while] loop exactly at the
    first answer of the environment for which [terminated[0] or
    truncated[0]] holds: after [k + 1] steps when the first [k] answers
    have neither flag and answer [k] has one.  The totals it reports are
    the sums of the rewards and of the costs of these [k + 1] answers, the
    length it reports is [k + 1], and the environment and the observation
    are left as the [k + 1] steps leave them.  The loop is still running
    after any number of iterations exactly when none of the answers so far
    has set a flag and all of them could be added to the totals. *)
Theorem eval_episode_ends_at_first_flag (V : Collector.VecEnv)
    (act : bool -> list tensor -> list tensor)
    (reset : Collector.EnvState -> Collector.EnvState * list tensor)
    (deterministic : bool) (fuel : nat) (env : Collector.EnvState) :
  (forall r,
     Eval.episode act reset deterministic fuel env = Eval.Done r <->
     exists k : nat,
       (k < fuel)%nat /\
       let tr := Eval.trace act deterministic (S k) (reset env) in
       (forall i out, (i < k)%nat -> tr.2 !! i = Some out ->
                      Eval.eval_done out = Some false) /\
       (exists out, tr.2 !! k = Some out /\ Eval.eval_done out = Some true) /\
       Ppo.fold_opt Eval.num_iadd (Eval.Float 0) (map Collector.reward tr.2)
         = Some (Eval.eval_rew r.2) /\
       Ppo.fold_opt Eval.num_iadd (Eval.Float 0) (map Collector.cost tr.2)
         = Some (Eval.eval_cost r.2) /\
       Eval.eval_len r.2 = Nat.iter (S k) (fun x => (x + 1)%Q) 0%Q /\
       (Eval.eval_len r.2 == inject_Z (Z.of_nat (S k)))%Q /\
       r.1 = tr.1) /\
  (Eval.episode act reset deterministic fuel env = Eval.Running <->
   let tr := Eval.trace act deterministic fuel (reset env) in
   (forall out, out ∈ tr.2 -> Eval.eval_done out = Some false) /\
   is_Some (Ppo.fold_opt Eval.num_iadd (Eval.Float 0) (map Collector.reward tr.2)) /\
   is_Some (Ppo.fold_opt Eval.num_iadd (Eval.Float 0) (map Collector.cost tr.2))).
Proof.
  unfold Eval.episode. destruct (reset env) as [env0 ob]. split.
  - intros r. rewrite loop_done. cbn [Eval.eval_rew Eval.eval_cost Eval.eval_len].
    split.
    + intros (k & Hk & Hb & Ho & Hr & Hc & Hl & Hs). exists k.
      split; [exact Hk|]. cbv zeta. split; [exact Hb|]. split; [exact Ho|].
      split; [exact Hr|]. split; [exact Hc|]. split; [exact Hl|]. split; [|exact Hs].
      rewrite Hl, iter_len. ring.
    + intros (k & Hk & Hb & Ho & Hr & Hc & Hl & _ & Hs). exists k.
      repeat split; assumption.
  - rewrite loop_running. reflexivity.
Qed.

(** ** The order of the batch rows *)

Lemma teq_refl (a : tensor) : teq a a.
Proof. unfold teq. induction a; constructor; [reflexivity|assumption]. Qed.

Lemma teq_trans (a b c : tensor) : teq a b -> teq b c -> teq a c.
Proof.
  unfold teq. intros Hab. revert c.
  induction Hab as [|x y a b Hxy _ IH]; intros c Hbc; inversion Hbc; subst;
    constructor.
  - etransitivity; eassumption.
  - apply IH. assumption.
Qed.

Lemma oteq_refl (a : option tensor) : oteq a a.
Proof. destruct a; simpl; [apply teq_refl|exact I]. Qed.

Lemma oteq_trans (a b c : option tensor) : oteq a b -> oteq b c -> oteq a c.
Proof.
  destruct a, b, c; simpl; try tauto. apply teq_trans.
Qed.

Lemma tadd_teq (a a' b : tensor) : teq a a' -> teq (tadd a b) (tadd a' b).
Proof.
  unfold teq, tadd. intros Ha. revert b.
  induction Ha as [|x y a a' Hxy _ IH]; intros [|z b]; simpl; constructor.
  - rewrite Hxy. reflexivity.
  - apply IH.
Qed.

Lemma tadd_swap (f x y : tensor) :
  teq (tadd (tadd f x) y) (tadd (tadd f y) x).
Proof.
  unfold teq, tadd. revert x y.
  induction f as [|a f IH]; intros [|b x] [|c y]; simpl; constructor.
  - ring.
  - apply IH.
Qed.

Lemma tadd_comm (x y : tensor) : teq (tadd x y) (tadd y x).
Proof.
  unfold teq, tadd. revert y.
  induction x as [|a x IH]; intros [|b y]; simpl; constructor.
  - ring.
  - apply IH.
Qed.

Lemma tdiv_teq (a b : tensor) (c : Q) : teq a b -> teq (tdiv a c) (tdiv b c).
Proof.
  unfold teq, tdiv. induction 1 as [|x y a b Hxy _ IH]; simpl; constructor.
  - rewrite Hxy. reflexivity.
  - exact IH.
Qed.

Lemma add_square_oteq (acc acc' : option tensor) (g : tensor) :
  oteq acc acc' -> oteq (add_square acc g) (add_square acc' g).
Proof.
  destruct acc, acc'; simpl; try tauto.
  - apply tadd_teq.
  - intros _. apply teq_refl.
Qed.

Lemma add_square_swap (acc : option tensor) (g1 g2 : tensor) :
  oteq (add_square (add_square acc g1) g2) (add_square (add_square acc g2) g1).
Proof.
  destruct acc; simpl; [apply tadd_swap|apply tadd_comm].
Qed.

Lemma foldl_add_square_oteq (grads : list tensor) :
  forall acc acc', oteq acc acc' ->
    oteq (foldl add_square acc grads) (foldl add_square acc' grads).
Proof.
  induction grads as [|g grads IH]; intros acc acc' H; simpl; [exact H|].
  apply IH, add_square_oteq, H.
Qed.

Lemma foldl_add_square_perm (l l' : list tensor) :
  Permutation l l' ->
  forall acc, oteq (foldl add_square acc l) (foldl add_square acc l').
Proof.
  induction 1 as [|x l l' _ IH|x y l|l1 l2 l3 _ IH1 _ IH2]; intros acc; simpl.
  - apply oteq_refl.
  - apply IH.
  - apply foldl_add_square_oteq, add_square_swap.
  - eapply oteq_trans; [apply IH1|apply IH2].
Qed.

Lemma sum_squares_perm (l l' : list tensor) :
  Permutation l l' -> oteq (Ppo.sum_squares l) (Ppo.sum_squares l').
Proof. intros H. exact (foldl_add_square_perm l l' H None). Qed.

(** X17.  The Fisher record does not depend on the order of the rows of
    the drained batch: for two batches with as many observations whose
    (observation, action) pairs are the same up to order, the entry of
    every parameter is the same tensor, entry by entry. *)
Theorem fisher_ignores_row_order (T : Ppo.Torch) (data data' : Batch)
    (params : Ppo.Params) (name : string) :
  NoDup params.*1 -> name ∈ params.*1 ->
  length (b_obs data) = length (b_obs data') ->
  Permutation (zip (b_obs data) (b_act data)) (zip (b_obs data') (b_act data')) ->
  oteq (Ppo.compute_fisher_info data params !! name)
       (Ppo.compute_fisher_info data' params !! name).
Proof.
  intros Hnd Hin Hlen Hperm.
  rewrite !(compute_fisher_info_lookup _ _ _ Hnd Hin), Hlen.
  pose proof (sum_squares_perm _ _
                (Permutation_map (fun oa => Ppo.grad_log_prob params oa.1 oa.2 name)
                   Hperm)) as Hs.
  destruct (Ppo.sum_squares _) as [f|], (Ppo.sum_squares _) as [f'|];
    simpl in *; try tauto.
  apply tdiv_teq. exact Hs.
Qed.

Lemma fisher_ignores_row_order_witness :
  let data := mkBatch [[1%Q]; [2%Q]] [[3%Q]; [4%Q]] [] [] [] [] [] in
  let data' := mkBatch [[2%Q]; [1%Q]] [[4%Q]; [3%Q]] [] [] [] [] [] in
  oteq (Ppo.compute_fisher_info (T := Toy.torch) data [("w"%string, [0%Q])] !! "w"%string)
       (Ppo.compute_fisher_info (T := Toy.torch) data' [("w"%string, [0%Q])] !! "w"%string).
Proof.
  intros data data'.
  apply (fisher_ignores_row_order Toy.torch data data' [("w"%string, [0%Q])] "w"%string).
  - apply NoDup_singleton.
  - apply list_elem_of_here.
  - reflexivity.
  - apply perm_swap.
Defined.

(** ** How often the training loop stores and drains *)

Section DrainCount.
Variable B0 : Buffer.
#[local] Existing Instance Counted.buffer.

Section Rollout.
Context {P : Collector.Policy} {V : Collector.VecEnv}.
Import Collector.

Lemma slots_counted (epoch_end : bool) (obs : list tensor)
    (final : option (list tensor)) (flags : list (bool * bool)) :
  forall (buf buf' : Counted.Calls B0) (idx : nat),
    slots (B := Counted.buffer B0) epoch_end obs final buf idx flags = Some buf' ->
    Counted.stores B0 buf' = Counted.stores B0 buf /\
    Counted.gets B0 buf' = Counted.gets B0 buf.
Proof.
  induction flags as [|[done time_out] flags IH]; intros buf buf' idx; simpl.
  - intros [= <-]. auto.
  - destruct (slot (B := Counted.buffer B0) epoch_end obs final buf idx done time_out)
      as [buf1|] eqn:Hs; simpl; [|discriminate].
    intros Hrest. destruct (IH _ _ _ Hrest) as [-> ->].
    unfold slot in Hs. destruct (epoch_end || done || time_out).
    + destruct (last_values epoch_end done time_out obs final idx) as [lv|];
        simpl in Hs; [|discriminate].
      injection Hs as <-. auto.
    + injection Hs as <-. auto.
Qed.

Lemma rollout_step_counted (n steps : nat) (r r' : Rollout (B := Counted.buffer B0)) :
  rollout_step n steps r = Some r' ->
  Counted.stores B0 (r_buf r') = S (Counted.stores B0 (r_buf r)) /\
  Counted.gets B0 (r_buf r') = Counted.gets B0 (r_buf r).
Proof.
  unfold rollout_step.
  destruct (sample steps (r_obs r)) as [act log_prob].
  destruct (env_step (r_env r) act) as [env' out].
  match goal with
  | |- context [slots ?e ?o ?f ?b 0%nat ?fl] =>
      destruct (slots (B := Counted.buffer B0) e o f b 0%nat fl) as [buf2|] eqn:Hs
  end; simpl; [|discriminate].
  intros [= <-]. simpl.
  destruct (slots_counted _ _ _ _ _ _ _ Hs) as [-> ->]. auto.
Qed.

Lemma rollout_from_counted (n todo : nat) :
  forall (steps : nat) (r r' : Rollout (B := Counted.buffer B0)),
    rollout_from n todo steps r = Some r' ->
    Counted.stores B0 (r_buf r') = (Counted.stores B0 (r_buf r) + todo)%nat /\
    Counted.gets B0 (r_buf r') = Counted.gets B0 (r_buf r).
Proof.
  induction todo as [|todo IH]; intros steps r r'; simpl.
  - intros [= <-]. split; lia.
  - destruct (rollout_step (B := Counted.buffer B0) n steps r) as [r1|] eqn:Hs;
      simpl; [|discriminate].
    intros Hrest. destruct (IH _ _ _ Hrest) as [-> ->].
    destruct (rollout_step_counted _ _ _ _ Hs) as [-> ->]. split; lia.
Qed.
End Rollout.

Context {T : Ppo.Torch} {V : Collector.VecEnv}.
Import Ppo.

Lemma epoch_counted (cfg : Config) (n : nat)
    (st st' : Trainer (B := Counted.buffer B0)) (b : bool) :
  epoch cfg n st = Some (st', b) ->
  Counted.stores B0 (buffer st') =
    (Counted.stores B0 (buffer st) + local_steps_per_epoch cfg)%nat /\
  Counted.gets B0 (buffer st') =
    (Counted.gets B0 (buffer st) + if b then 2 else 1)%nat.
Proof.
  unfold epoch.
  destruct (collect cfg n st) as [st1|] eqn:Hc; simpl; [|discriminate].
  destruct (update cfg n st1) as [[data u]|] eqn:Hu; simpl; [|discriminate].
  destruct (regularizer_epoch_end cfg (schedule (u_trainer u))) as [st3|] eqn:He;
    simpl; [|discriminate].
  intros [= <- <-].
  unfold collect in Hc.
  match type of Hc with
  | context [Collector.rollout ?k ?r] =>
      destruct (Collector.rollout (B := Counted.buffer B0) k r) as [r'|] eqn:Hr
  end; simpl in Hc; [|discriminate].
  injection Hc as <-.
  destruct (rollout_from_counted _ _ _ _ _ Hr) as [Hs1 Hg1]. simpl in Hs1, Hg1.
  destruct (update_fields _ _ _ _ _ Hu) as (_ & Hb2 & _). cbn [buffer] in Hb2.
  destruct (switch_due cfg (schedule (u_trainer u))) eqn:Hd.
  - destruct (switch_spec _ _ _ Hd He) as (num & k & k' & _ & _ & _ & ->).
    cbn [buffer schedule]. rewrite Hb2. simpl. rewrite Hs1, Hg1. split; lia.
  - rewrite (no_switch_spec _ _ _ Hd He). cbn [buffer schedule]. rewrite Hb2.
    simpl. rewrite Hs1, Hg1. split; lia.
Qed.
End DrainCount.

Section Transparent.
Variable B0 : Buffer.

Section Rollout.
Context {P : Collector.Policy} {V : Collector.VecEnv}.
Import Collector.

Lemma slots_inner (epoch_end : bool) (obs : list tensor)
    (final : option (list tensor)) (flags : list (bool * bool)) :
  forall (buf : Counted.Calls B0) (idx : nat),
    Counted.inner B0 <$> slots (B := Counted.buffer B0) epoch_end obs final buf idx flags
    = slots (B := B0) epoch_end obs final (Counted.inner B0 buf) idx flags.
Proof.
  induction flags as [|[done time_out] flags IH]; intros buf idx; simpl; [reflexivity|].
  unfold slot. destruct (epoch_end || done || time_out); simpl; [|apply IH].
  destruct (last_values epoch_end done time_out obs final idx) as [lv|]; simpl;
    [apply IH|reflexivity].
Qed.

Lemma rollout_step_inner (n steps : nat) (r : Rollout (B := Counted.buffer B0)) :
  Counted.inner_rollout B0 <$> rollout_step n steps r = rollout_step n steps (Counted.inner_rollout B0 r).
Proof.
  unfold rollout_step. cbn [Counted.inner_rollout r_env r_obs r_buf].
  destruct (sample steps (r_obs r)) as [act log_prob].
  destruct (env_step (r_env r) act) as [env' out].
  match goal with
  | |- context [slots (B := Counted.buffer B0) ?e ?o ?f ?b 0%nat ?fl] =>
      pose proof (slots_inner e o f fl b 0%nat) as Hs;
      destruct (slots (B := Counted.buffer B0) e o f b 0%nat fl) as [buf2|]
  end; simpl in Hs |- *; rewrite <- Hs; reflexivity.
Qed.

Lemma rollout_from_inner (n todo : nat) :
  forall (steps : nat) (r : Rollout (B := Counted.buffer B0)),
    Counted.inner_rollout B0 <$> rollout_from n todo steps r
    = rollout_from n todo steps (Counted.inner_rollout B0 r).
Proof.
  induction todo as [|todo IH]; intros steps r; simpl; [reflexivity|].
  rewrite <- rollout_step_inner.
  destruct (rollout_step (B := Counted.buffer B0) n steps r) as [r1|]; simpl;
    [apply IH|reflexivity].
Qed.
End Rollout.

Context {T : Ppo.Torch} {V : Collector.VecEnv}.
Import Ppo.
#[local] Abbreviation forget := (Counted.forget B0).

Lemma collect_forget (cfg : Config) (n : nat) (st : Trainer (B := Counted.buffer B0)) :
  forget <$> collect cfg n st = collect cfg n (forget st).
Proof.
  unfold collect, Collector.rollout.
  pose proof (rollout_from_inner (P := policy_of st n) (local_steps_per_epoch cfg)
                (local_steps_per_epoch cfg) 0
                (Collector.mkRollout (B := Counted.buffer B0) (env st) (obs st) (buffer st)))
    as Hr.
  change (policy_of (forget st) n) with (policy_of st n).
  cbn [Counted.forget env obs buffer heap actor critics fisher_matrices old_params_list
       current_task_index steps_since_change].
  unfold Counted.inner_rollout in Hr at 2. cbn [Collector.r_env Collector.r_obs Collector.r_buf] in Hr.
  rewrite <- Hr.
  destruct (Collector.rollout_from _ _ _ _) as [r|]; reflexivity.
Qed.

Lemma gradient_step_forget (cfg : Config) (st : Trainer (B := Counted.buffer B0))
    (mb : Minibatch) :
  (fun r => (forget r.1, r.2)) <$> gradient_step cfg st mb
  = gradient_step cfg (forget st) mb.
Proof.
  unfold gradient_step.
  change (ewc_loss (forget st)) with (ewc_loss st).
  cbn [Counted.forget env obs buffer heap actor critics fisher_matrices old_params_list
       current_task_index steps_since_change].
  destruct (critic_losses (critics st) mb) as [loss_r loss_c].
  destruct (ewc_loss st) as [ewc|]; simpl; [|reflexivity].
  destruct (optimizer_step _ _ _ _ _ _) as [vals critics']. reflexivity.
Qed.

Lemma minibatches_forget (cfg : Config) (mbs : list Minibatch) :
  forall (st : Trainer (B := Counted.buffer B0)) (log : list Event),
    (fun r => (forget r.1, r.2)) <$> minibatches cfg st log mbs
    = minibatches cfg (forget st) log mbs.
Proof.
  induction mbs as [|mb mbs IH]; intros st log; simpl; [reflexivity|].
  rewrite <- gradient_step_forget.
  destruct (gradient_step cfg st mb) as [[st1 e]|]; simpl; [apply IH|reflexivity].
Qed.

Lemma passes_forget (cfg : Config) (old_distribution : Params) (data : Batch)
    (loader : nat -> list Minibatch) (todo : nat) :
  forall (pass : nat) (u : Update (B := Counted.buffer B0)),
    Counted.forget_update B0 <$> passes cfg old_distribution data loader todo pass u
    = passes cfg old_distribution data loader todo pass (Counted.forget_update B0 u).
Proof.
  induction todo as [|todo IH]; intros pass u; simpl; [reflexivity|].
  rewrite <- minibatches_forget.
  destruct (minibatches cfg (u_trainer u) (u_log u) (loader pass)) as [[st1 log1]|];
    simpl; [|reflexivity].
  destruct (Qlt_le_dec _ _); [reflexivity|]. apply IH.
Qed.

Lemma update_forget (cfg : Config) (n : nat) (st : Trainer (B := Counted.buffer B0)) :
  (fun r => (r.1, Counted.forget_update B0 r.2)) <$> update cfg n st = update cfg n (forget st).
Proof.
  unfold update. cbn [get Counted.buffer Counted.forget buffer heap actor critics
                      fisher_matrices old_params_list current_task_index
                      steps_since_change env obs].
  destruct (get (Counted.inner B0 (buffer st))) as [data buf] eqn:Hg. cbn [fst snd].
  match goal with
  | |- context [passes (B := Counted.buffer B0) ?c ?o ?d ?l ?t ?p ?u] =>
      transitivity (u' ← passes c o d l t p (Counted.forget_update B0 u); Some (d, u'));
        [|reflexivity];
      rewrite <- (passes_forget c o d l t p u);
      destruct (passes c o d l t p u) as [u'|]
  end; reflexivity.
Qed.

Lemma regularizer_forget (cfg : Config) (st : Trainer (B := Counted.buffer B0)) :
  forget <$> regularizer_epoch_end cfg st = regularizer_epoch_end cfg (forget st).
Proof.
  unfold regularizer_epoch_end.
  change (switch_due cfg (forget st)) with (switch_due cfg st).
  cbn [get Counted.buffer Counted.forget buffer heap actor critics
       fisher_matrices old_params_list current_task_index steps_since_change env obs].
  destruct (switch_due cfg st); [|reflexivity].
  destruct (py_getitem (tasks cfg) (current_task_index st)) as [num|]; simpl;
    [|reflexivity].
  destruct (get (Counted.inner B0 (buffer st))) as [data buf]. cbn [fst snd].
  destruct (save_old_params (heap st) (actor st)) as [h old_params].
  destruct (py_setitem (fisher_matrices st) num _) as [fm|]; simpl; [|reflexivity].
  destruct (py_setitem (old_params_list st) num _) as [op|]; reflexivity.
Qed.

Lemma epoch_forget (cfg : Config) (n : nat) (st : Trainer (B := Counted.buffer B0)) :
  (fun r => (forget r.1, r.2)) <$> epoch cfg n st = epoch cfg n (forget st).
Proof.
  unfold epoch. rewrite <- collect_forget.
  destruct (collect cfg n st) as [st1|]; simpl; [|reflexivity].
  rewrite <- update_forget.
  destruct (update cfg n st1) as [[data u]|]; simpl; [|reflexivity].
  change (schedule (forget (u_trainer u))) with (forget (schedule (u_trainer u))).
  rewrite <- regularizer_forget.
  destruct (regularizer_epoch_end cfg (schedule (u_trainer u))) as [st3|]; reflexivity.
Qed.

(** Counting the calls changes nothing else: the run on the counted
    buffer is, counters apart, the run on the buffer inside. *)
Lemma training_loop_forget (cfg : Config) (todo : nat) :
  forall (n : nat) (st : Trainer (B := Counted.buffer B0)) (adv : nat),
    (fun r => (forget r.1, r.2)) <$> training_loop cfg todo n st adv
    = training_loop cfg todo n (forget st) adv.
Proof.
  induction todo as [|todo IH]; intros n st adv; simpl; [reflexivity|].
  rewrite <- epoch_forget.
  destruct (epoch cfg n st) as [[st1 b]|]; simpl; [apply IH|reflexivity].
Qed.
End Transparent.

Section LoopCount.
Context {T : Ppo.Torch} {V : Collector.VecEnv}.
Variable B0 : Buffer.

Lemma training_loop_counted (cfg : Ppo.Config) (todo : nat) :
  forall (n : nat) (st st' : Ppo.Trainer (B := Counted.buffer B0)) (adv adv' : nat),
    Ppo.training_loop cfg todo n st adv = Some (st', adv') ->
    Counted.stores B0 (Ppo.buffer st') =
      (Counted.stores B0 (Ppo.buffer st) + todo * Ppo.local_steps_per_epoch cfg)%nat /\
    Counted.gets B0 (Ppo.buffer st') =
      (Counted.gets B0 (Ppo.buffer st) + todo + (adv' - adv))%nat /\
    (adv <= adv')%nat.
Proof.
  induction todo as [|todo IH]; intros n st st' adv adv'; simpl.
  - intros [= <- <-]. repeat split; lia.
  - destruct (Ppo.epoch cfg n st) as [[st1 b]|] eqn:He; simpl; [|discriminate].
    intros Hl. destruct (epoch_counted _ _ _ _ _ _ He) as [Hs1 Hg1].
    destruct (IH _ _ _ _ _ Hl) as (Hs & Hg & Hle).
    rewrite Hs, Hg, Hs1, Hg1. destruct b; repeat split; lia.
Qed.
End LoopCount.

(** X18.  Whatever the buffer, over any number [N] of epochs the trainer
    calls [buffer.store] exactly [N * local_steps_per_epoch] times and
    [buffer.get] exactly once per epoch for the update plus once more for
    every epoch that ends in a task switch: [N] plus the number of
    switches.  The calls are counted by a buffer that hands every call on
    to the buffer of the run and leaves the run as it is. *)
Theorem training_loop_call_counts (T : Ppo.Torch) (V : Collector.VecEnv) (B0 : Buffer)
    (cfg : Ppo.Config) (todo n : nat) (st st' : Ppo.Trainer (B := B0))
    (adv adv' stores gets : nat) :
  Ppo.training_loop cfg todo n st adv = Some (st', adv') ->
  exists st'' : Ppo.Trainer (B := Counted.buffer B0),
    Ppo.training_loop cfg todo n (Counted.count B0 st stores gets) adv
      = Some (st'', adv') /\
    Counted.forget B0 st'' = st' /\
    Counted.stores B0 (Ppo.buffer st'') =
      (stores + todo * Ppo.local_steps_per_epoch cfg)%nat /\
    Counted.gets B0 (Ppo.buffer st'') = (gets + todo + (adv' - adv))%nat /\
    (adv <= adv')%nat.
Proof.
  intros Hrun.
  pose proof (training_loop_forget B0 cfg todo n (Counted.count B0 st stores gets) adv)
    as Hf.
  assert (Counted.forget B0 (Counted.count B0 st stores gets) = st) as Hst
    by (destruct st; reflexivity).
  rewrite Hst, Hrun in Hf.
  destruct (Ppo.training_loop cfg todo n (Counted.count B0 st stores gets) adv)
    as [[st'' adv'']|] eqn:Hc; simpl in Hf; [|discriminate].
  injection Hf as Hf1 Hf2. subst adv''.
  exists st''. split; [reflexivity|]. split; [exact Hf1|].
  exact (training_loop_counted B0 cfg todo n _ _ _ _ Hc).
Qed.

Lemma training_loop_call_counts_witness :
  let cfg := Toy.config 2 3 in
  let st := Toy.trainer Toy.rewind_buffer cfg (Toy.mkRewind DrainBuffer.cleared false) in
  exists (st' : Ppo.Trainer (T := Toy.torch) (V := Toy.vec_env) (B := Toy.rewind_buffer))
         (st'' : Ppo.Trainer (T := Toy.torch) (V := Toy.vec_env)
                   (B := Counted.buffer Toy.rewind_buffer)),
    Ppo.training_loop cfg 3 0 st 0 = Some (st', 1%nat) /\
    Ppo.training_loop cfg 3 0 (Counted.count Toy.rewind_buffer st 0 0) 0
      = Some (st'', 1%nat) /\
    Counted.stores Toy.rewind_buffer (Ppo.buffer st'') = 6%nat /\
    Counted.gets Toy.rewind_buffer (Ppo.buffer st'') = 4%nat.
Proof.
  intros cfg st.
  destruct (Ppo.training_loop cfg 3 0 st 0) as [[st' adv']|] eqn:Hl;
    [|vm_compute in Hl; discriminate Hl].
  assert (adv' = 1%nat) as ->
    by (pose proof Hl as Hl'; vm_compute in Hl'; injection Hl' as _ <-; reflexivity).
  destruct (training_loop_call_counts Toy.torch Toy.vec_env Toy.rewind_buffer
              cfg 3 0 st st' 0 1 0 0 Hl) as (st'' & Hc & _ & Hs & Hg & _).
  exists st', st''. split; [reflexivity|]. split; [exact Hc|].
  split; [exact Hs|exact Hg].
Defined.

(** ** How many gradient steps an update makes *)

Section StepCount.
Context {T : Ppo.Torch} {V : Collector.VecEnv} {B : Buffer}.
Import Ppo.

Lemma gradient_steps_app (l1 l2 : list Event) :
  gradient_steps (l1 ++ l2) = (gradient_steps l1 + gradient_steps l2)%nat.
Proof. unfold gradient_steps. rewrite filter_app, length_app. reflexivity. Qed.

Lemma minibatches_steps (cfg : Config) (mbs : list Minibatch) :
  forall (st st' : Trainer) (log log' : list Event),
    minibatches cfg st log mbs = Some (st', log') ->
    gradient_steps log' = (gradient_steps log + length mbs)%nat /\
    kl_checks log' = kl_checks log.
Proof.
  induction mbs as [|mb mbs IH]; intros st st' log log'; simpl.
  - intros [= _ <-]. split; lia.
  - destruct (gradient_step cfg st mb) as [[st1 e]|] eqn:Hg; simpl; [|discriminate].
    intros Hm. destruct (IH _ _ _ _ Hm) as [-> ->].
    pose proof (gradient_step_event _ _ _ _ _ Hg) as He.
    rewrite gradient_steps_app, kl_checks_app.
    unfold gradient_steps at 2, kl_checks at 2. simpl. rewrite !filter_cons, He. simpl.
    split; lia.
Qed.

Lemma passes_steps (cfg : Config) (old : Params) (data : Batch)
    (loader : nat -> list Minibatch) (todo : nat) :
  forall (pass : nat) (u u' : Update),
    passes cfg old data loader todo pass u = Some u' ->
    gradient_steps (u_log u') =
      (gradient_steps (u_log u)
       + minibatch_total loader (update_counts u' - update_counts u) pass)%nat /\
    (update_counts u <= update_counts u')%nat.
Proof.
  induction todo as [|todo IH]; intros pass u u'; simpl.
  - intros [= <-]. rewrite Nat.sub_diag. simpl. split; lia.
  - destruct (minibatches cfg (u_trainer u) (u_log u) (loader pass))
      as [[st1 log1]|] eqn:Hm; simpl; [|discriminate].
    destruct (minibatches_steps _ _ _ _ _ _ Hm) as [Hs _].
    set (kl := kl_divergence old (named_values (heap st1) (actor st1)) (b_obs data)).
    assert (gradient_steps (log1 ++ [KLCheck kl]) = gradient_steps log1) as Hkl
      by (rewrite gradient_steps_app; unfold gradient_steps at 2; simpl; lia).
    destruct (Qlt_le_dec _ _).
    + intros [= <-]. cbn [u_log update_counts].
      replace (S (update_counts u) - update_counts u)%nat with 1%nat by lia.
      simpl. rewrite Hkl, Hs. split; lia.
    + intros Hp. destruct (IH _ _ _ Hp) as [Hg Hle].
      cbn [u_log update_counts] in Hg, Hle.
      replace (update_counts u' - update_counts u)%nat
        with (S (update_counts u' - S (update_counts u))) by lia.
      simpl. rewrite Hg, Hkl, Hs. split; lia.
Qed.
End StepCount.

(** X19.  An update makes one gradient step per minibatch of every pass
    it runs and nothing else: the number of gradient steps it logs is the
    total number of minibatches of its first [update_counts] passes, so a
    pass is never left half-way and the KL check is made only between
    passes. *)
Theorem update_gradient_steps (T : Ppo.Torch) (V : Collector.VecEnv) (B : Buffer)
    (cfg : Ppo.Config) (epoch : nat) (st : Ppo.Trainer) (data : Batch)
    (u : Ppo.Update) :
  Ppo.update cfg epoch st = Some (data, u) ->
  gradient_steps (Ppo.u_log u) =
    minibatch_total (Ppo.dataloader epoch data) (Ppo.update_counts u) 0 /\
  length (Ppo.u_log u) = (gradient_steps (Ppo.u_log u) + Ppo.update_counts u)%nat.
Proof.
  unfold Ppo.update. destruct (get (Ppo.buffer st)) as [data' buf]. simpl.
  destruct (Ppo.passes _ _ _ _ _ _ _) as [u'|] eqn:Hp; simpl; [|discriminate].
  intros [= <- <-].
  destruct (passes_steps _ _ _ _ _ _ _ _ Hp) as [Hg _].
  cbn [Ppo.u_log Ppo.update_counts] in Hg. rewrite Nat.sub_0_r in Hg.
  split; [exact Hg|].
  destruct (passes_spec _ _ _ _ _ _ _ _ Hp) as (k & _ & _ & Hc & Hkl & _).
  cbn [Ppo.u_log Ppo.update_counts] in Hc, Hkl.
  unfold Ppo.kl_checks in Hkl at 2. simpl in Hkl.
  assert (Ppo.kl_checks (Ppo.u_log u') = Ppo.update_counts u') as Hk by lia.
  rewrite <- Hk. unfold gradient_steps, Ppo.kl_checks.
  generalize (Ppo.u_log u'). intros log.
  induction log as [|e log IH]; [reflexivity|].
  rewrite !filter_cons. destruct (Ppo.is_kl e); simpl; lia.
Qed.

Lemma update_gradient_steps_witness :
  let cfg := Toy.config 2 3 in
  let st := Toy.trainer Toy.rewind_buffer cfg (Toy.mkRewind DrainBuffer.cleared false) in
  exists data u,
    Ppo.update (T := Toy.torch) (V := Toy.vec_env) cfg 0 st = Some (data, u) /\
    gradient_steps (Ppo.u_log u) =
      minibatch_total (Ppo.dataloader (Torch := Toy.torch) 0 data) (Ppo.update_counts u) 0.
Proof.
  intros cfg st.
  destruct (Ppo.update (T := Toy.torch) (V := Toy.vec_env) cfg 0 st)
    as [[data u]|] eqn:Hu; [|vm_compute in Hu; discriminate Hu].
  exists data, u. split; [reflexivity|].
  exact (proj1 (update_gradient_steps Toy.torch Toy.vec_env Toy.rewind_buffer
                  cfg 0 st data u Hu)).
Defined.

(** ** The sign of the penalty, entry by entry *)

Lemma Qsum_pos (e r : Q) :
  (0 <= e)%Q -> (0 <= r)%Q -> ((0 < e + r)%Q <-> (0 < e)%Q \/ (0 < r)%Q).
Proof.
  intros He Hr. split.
  - intros H. destruct (Qlt_le_dec 0 e) as [Hpos|Hle]; [left; exact Hpos|].
    right. lra.
  - intros [H|H]; lra.
Qed.

Lemma Qweighted_square_pos (f x y : Q) :
  (0 <= f)%Q ->
  ((0 < f * ((x - y) * (x - y)))%Q <-> ~ (f == 0)%Q /\ ~ (x == y)%Q).
Proof.
  intros Hf. split.
  - intros H. split; intros Heq.
    + rewrite Heq in H. lra.
    + assert (x - y == 0)%Q as Hz by lra. rewrite Hz in H. lra.
  - intros [Hf0 Hxy].
    assert (0 < f)%Q as Hfpos.
    { destruct (Qlt_le_dec 0 f) as [?|Hle]; [assumption|].
      exfalso. apply Hf0. lra. }
    assert (0 < (x - y) * (x - y))%Q as Hsq.
    { destruct (Qlt_le_dec 0 (x - y)) as [Hp|Hle].
      - apply Qmult_lt_0_compat; exact Hp.
      - assert (0 < y - x)%Q as Hn.
        { destruct (Qlt_le_dec 0 (y - x)) as [?|Hle']; [assumption|].
          exfalso. apply Hxy. lra. }
        assert ((x - y) * (x - y) == (y - x) * (y - x))%Q as -> by ring.
        apply Qmult_lt_0_compat; exact Hn. }
    apply Qmult_lt_0_compat; assumption.
Qed.

Lemma penalty_term_pos (ft : tensor) :
  nonneg ft ->
  forall a b : tensor,
    (0 <= tsum (tmul ft (tpow2 (tsub a b))))%Q /\
    ((0 < tsum (tmul ft (tpow2 (tsub a b))))%Q <-> Moved.entry_moved ft a b).
Proof.
  unfold Moved.entry_moved, tmul, tpow2, tsub, tsum.
  induction 1 as [|f ft Hf Hft IH]; intros a b.
  - simpl. split; [apply Qle_refl|]. split; [intros H; lra|].
    intros (i & f & x & y & Hi & _). discriminate.
  - destruct a as [|x a]; [|destruct b as [|y b]].
    + simpl. split; [apply Qle_refl|]. split; [intros H; lra|].
      intros (i & f0 & x & y & _ & Hx & _). discriminate.
    + simpl. split; [apply Qle_refl|]. split; [intros H; lra|].
      intros (i & f0 & x0 & y & _ & _ & Hy & _). discriminate.
    + destruct (IH a b) as [Hge Hiff]. cbn [zip_with map foldr].
      assert (0 <= f * ((x - y) * (x - y)))%Q as He
        by (apply Qmult_le_0_compat; [exact Hf|apply Qsquare_nonneg]).
      split; [lra|].
      rewrite (Qsum_pos _ _ He Hge), (Qweighted_square_pos f x y Hf), Hiff.
      split.
      * intros [[H1 H2]|(i & f0 & x0 & y0 & Hi & Hx & Hy & H1 & H2)].
        -- exists 0%nat, f, x, y. auto.
        -- exists (S i), f0, x0, y0. auto.
      * intros ([|i] & f0 & x0 & y0 & Hi & Hx & Hy & H1 & H2); simpl in *.
        -- injection Hi as <-. injection Hx as <-. injection Hy as <-. left. auto.
        -- right. exists i, f0, x0, y0. auto.
Qed.

Lemma fold_opt_pos {X} (f : Q -> X -> option Q) (pos : X -> Prop) (l : list X) :
  (forall acc b acc', b ∈ l -> (0 <= acc)%Q -> f acc b = Some acc' ->
     (0 <= acc')%Q /\ ((0 < acc')%Q <-> (0 < acc)%Q \/ pos b)) ->
  forall acc q, (0 <= acc)%Q -> Ppo.fold_opt f acc l = Some q ->
    (0 <= q)%Q /\ ((0 < q)%Q <-> (0 < acc)%Q \/ exists b, b ∈ l /\ pos b).
Proof.
  induction l as [|b l IH]; intros Hstep acc q Hacc; simpl.
  - intros [= <-]. split; [exact Hacc|]. split; [auto|].
    intros [H|(b & Hb & _)]; [exact H|]. apply elem_of_nil in Hb. contradiction.
  - destruct (f acc b) as [acc'|] eqn:Hf; simpl; [|discriminate].
    intros Hrest.
    destruct (Hstep acc b acc' ltac:(left) Hacc Hf) as [Hge' Hiff'].
    destruct (IH (fun a0 b0 a0' Hin => Hstep a0 b0 a0' ltac:(right; exact Hin))
                 acc' q Hge' Hrest) as [Hge Hiff].
    split; [exact Hge|]. rewrite Hiff, Hiff'. split.
    + intros [[H|H]|(b' & Hin & Hb')].
      * left. exact H.
      * right. exists b. split; [left|exact H].
      * right. exists b'. split; [right; exact Hin|exact Hb'].
    + intros [H|(b' & Hin & Hb')]; [left; left; exact H|].
      apply elem_of_cons in Hin as [->|Hin].
      * left. right. exact Hb'.
      * right. exists b'. auto.
Qed.

Section MovedFacts.
Context {T : Ppo.Torch} {V : Collector.VecEnv} {B : Buffer}.
Import Ppo Moved.

Lemma param_penalty_pos (h : Heap) (F : Fisher) (o : option Anchor)
    (acc acc' : Q) (np : string * loc) :
  (forall name f, F !! name = Some f -> nonneg f) ->
  (0 <= acc)%Q -> param_penalty h F o acc np = Some acc' ->
  (0 <= acc')%Q /\ ((0 < acc')%Q <-> (0 < acc)%Q \/ param_moved h F o np).
Proof.
  intros HF Hacc. unfold param_penalty, param_moved.
  destruct (F !! np.1) as [ft|] eqn:Hft; simpl; [|discriminate].
  destruct o as [A|]; simpl; [|discriminate].
  destruct (A !! np.1) as [l'|] eqn:Hl'; simpl; [|discriminate].
  intros [= <-].
  destruct (penalty_term_pos ft (HF _ _ Hft) (h !!! np.2) (h !!! l')) as [Hge Hiff].
  split; [lra|].
  rewrite (Qplus_comm acc), (Qsum_pos _ _ Hge Hacc), Hiff. split.
  - intros [H|H]; [right|left; exact H]. exists ft, A, l'. auto.
  - intros [H|(ft' & A' & l'' & [= <-] & [= <-] & Hl'' & H)]; [right; exact H|].
    left. rewrite Hl' in Hl''. injection Hl'' as <-. exact H.
Qed.

Lemma task_penalty_pos (st : Trainer) (acc acc' : Q)
    (rec : option Fisher * option Anchor) :
  Records.records_nonneg st ->
  rec ∈ zip (fisher_matrices st) (old_params_list st) ->
  (0 <= acc)%Q -> task_penalty (heap st) (actor st) acc rec = Some acc' ->
  (0 <= acc')%Q /\
  ((0 < acc')%Q <->
   (0 < acc)%Q \/
   exists F, rec.1 = Some F /\
             exists np, np ∈ actor st /\ param_moved (heap st) F rec.2 np).
Proof.
  intros Hnn Hin Hacc. unfold task_penalty. destruct rec as [[F|] o]; simpl.
  - apply list_elem_of_lookup in Hin as (k & Hk). rewrite lookup_zip_with in Hk.
    destruct (fisher_matrices st !! k) as [x|] eqn:Hx; simpl in Hk; [|discriminate].
    destruct (old_params_list st !! k) as [y|]; simpl in Hk; [|discriminate].
    injection Hk as -> ->.
    intros Hfold.
    destruct (fold_opt_pos (param_penalty (heap st) F o) (param_moved (heap st) F o)
                (actor st)
                (fun a0 np a0' _ Ha0 Hp =>
                   param_penalty_pos (heap st) F o a0 a0' np
                     (fun name f => Hnn k F name f Hx) Ha0 Hp)
                acc acc' Hacc Hfold) as [Hge Hiff].
    split; [exact Hge|]. rewrite Hiff. split.
    + intros [H|H]; [left; exact H|right]. exists F. auto.
    + intros [H|(F' & [= <-] & H)]; [left; exact H|right; exact H].
  - intros [= <-]. split; [exact Hacc|]. split; [auto|].
    intros [H|(F & HF & _)]; [exact H|discriminate].
Qed.
End MovedFacts.

(** X20.  As long as every stored Fisher record is elementwise
    non-negative (as every record made by [compute_fisher_info] is), the
    EWC penalty is never negative, and it is strictly positive exactly
    when some actor parameter differs from the anchor of some slot in an
    entry to which that slot's Fisher record gives a non-zero weight. *)
Theorem penalty_positive_iff_moved (T : Ppo.Torch) (V : Collector.VecEnv)
    (B : Buffer) (st : Ppo.Trainer) (q : Q) :
  Records.records_nonneg st ->
  Ppo.ewc_loss st = Some q ->
  (0 <= q)%Q /\ ((0 < q)%Q <-> Moved.weighted_move st).
Proof.
  intros Hnn Hq. unfold Ppo.ewc_loss in Hq.
  destruct (fold_opt_pos (Ppo.task_penalty (Ppo.heap st) (Ppo.actor st))
              (fun rec => exists F, rec.1 = Some F /\
                 exists np, np ∈ Ppo.actor st /\
                            Moved.param_moved (Ppo.heap st) F rec.2 np)
              (zip (Ppo.fisher_matrices st) (Ppo.old_params_list st))
              (fun a0 rec a0' Hin Ha0 Hp => task_penalty_pos st a0 a0' rec Hnn Hin Ha0 Hp)
              0%Q q (Qle_refl 0) Hq) as [Hge Hiff].
  split; [exact Hge|]. rewrite Hiff. unfold Moved.weighted_move. split.
  - intros [H|(rec & Hin & F & HF & np & Hnp & Hm)]; [lra|].
    apply list_elem_of_lookup in Hin as (k & Hk). rewrite lookup_zip_with in Hk.
    destruct (Ppo.fisher_matrices st !! k) as [x|] eqn:Hx; simpl in Hk; [|discriminate].
    destruct (Ppo.old_params_list st !! k) as [y|] eqn:Hy; simpl in Hk; [|discriminate].
    injection Hk as <-. simpl in HF, Hm. subst x.
    exists k, F, y, np. auto.
  - intros (k & F & o & np & Hk & Ho & Hnp & Hm). right.
    exists (Some F, o). split.
    + apply (list_elem_of_lookup_2 _ k). rewrite lookup_zip_with, Hk, Ho. reflexivity.
    + exists F. split; [reflexivity|]. exists np. auto.
Qed.

(** One parameter at location 0, its anchor at location 1, and a record
    that weighs the parameter's single entry by 2. *)
Lemma toy_moved_state_nonneg :
  Records.records_nonneg
    (Ppo.mkTrainer (T := Toy.torch) (V := Toy.vec_env) (B := Toy.drain_buffer)
       [[1%Q]; [0%Q]] [("w"%string, O)] tt
       [Some {[ "w"%string := [2%Q] ]}] [Some {[ "w"%string := 1%nat ]}]
       0 0 DrainBuffer.cleared O [[5%Q]]).
Proof.
  intros k F name f Hk HF. destruct k as [|k]; simpl in Hk; [|discriminate].
  injection Hk as <-. apply lookup_singleton_Some in HF as [_ <-].
  repeat constructor. discriminate.
Qed.

Lemma penalty_positive_iff_moved_witness :
  let st := Ppo.mkTrainer (T := Toy.torch) (V := Toy.vec_env) (B := Toy.drain_buffer)
              [[1%Q]; [0%Q]] [("w"%string, O)] tt
              [Some {[ "w"%string := [2%Q] ]}] [Some {[ "w"%string := 1%nat ]}]
              0 0 DrainBuffer.cleared O [[5%Q]] in
  exists q, Ppo.ewc_loss st = Some q /\
            (0 <= q)%Q /\ ((0 < q)%Q <-> Moved.weighted_move st).
Proof.
  intros st.
  destruct (Ppo.ewc_loss st) as [q|] eqn:Hq; [|vm_compute in Hq; discriminate Hq].
  exists q. split; [reflexivity|].
  exact (penalty_positive_iff_moved Toy.torch Toy.vec_env Toy.drain_buffer st q
           toy_moved_state_nonneg Hq).
Defined.
